(** * Tune Shifter content script

    A shallow embedding of the content script of the extension (the
    media registry, the per-site settings store, the reverb audio graph
    and the message handler) together with the properties of its
    specification.

    Conventions of the embedding.
    - A JavaScript number held in the settings, in a message or on an
      element is a rational [Q]; the gain values handed to the Web Audio
      nodes, which come out of [Math.cos] and [Math.sin], are reals [R].
      Floating-point rounding is not modelled.
    - DOM elements and Web Audio graphs are objects with identity: they
      live in two heaps ([elements], [graphs]) and are named by
      references, so that a closure holding a graph and the registry
      entry for the same graph alias one object.
    - The module-level variables of the script are the record [Script];
      what belongs to the browser (the DOM, the extension storage, the
      node objects, the callbacks waiting to run) is the record [Page];
      what the browser allows or refuses is the read-only record [Host].
    - A chain of [await]s inside one handler is run to completion as one
      transition.  Work the script starts without awaiting it (the
      [setTimeout] callback of [toggleReverb], the promise chain started
      by [applySettingsToElement]) is put in the [pending] list and run by
      a later transition.
    - An exception is the outcome [Throw]; [try_catch] is the [try]
      statement.  The calls that can throw are those into the browser:
      the storage calls, the making of the audio context, the offline
      rendering, [resume] and [createMediaElementSource].
    - An assignment to a property of an element stores the value; the
      range checks of the DOM setters are not modelled. *)

From Stdlib Require Import QArith Qround Qabs Reals Lra Qreals.
From Stdlib Require Lqa.
From stdpp Require Import gmap strings list fin_maps sorting pretty.

Close Scope R_scope.
Close Scope Q_scope.
Local Open Scope nat_scope.

(** ** Data model *)

Abbreviation elref := nat (only parsing).
Abbreviation gref := nat (only parsing).

Inductive MediaType := audio | video.

(** What the script reads and writes on an [HTMLMediaElement]. *)
Record Element := {
  e_tagName : MediaType;
  e_src : string;
  e_currentSrc : string;
  e_paused : bool;
  e_currentTime : Q;
  e_duration : option Q;          (* [None] is NaN *)
  e_volume : Q;
  e_playbackRate : Q;
  e_preservesPitch : bool;
  e_mozPreservesPitch : bool;
  e_muted : bool;
  e_tappable : bool;              (* [createMediaElementSource] accepts it *)
  e_tapped : bool                 (* a source node was already made for it *)
}.

Record MediaInfo := {
  mi_id : nat;
  mi_type : MediaType;
  mi_src : string;
  mi_title : string;
  mi_paused : bool;
  mi_currentTime : Q;
  mi_duration : Q;
  mi_volume : Q;
  mi_playbackRate : Q;
  mi_preservesPitch : bool;
  mi_muted : bool;
  mi_reverb : Q;
  mi_reverbEnabled : bool
}.

(** [PersistedSettings]: the record [saveSettings] builds. *)
Record PersistedSettings := {
  p_volume : Q;
  p_playbackRate : Q;
  p_preservesPitch : bool;
  p_muted : bool;
  p_reverb : Q
}.

(** [SiteSettings]: the in-memory record. *)
Record SiteSettings := {
  volume : Q;
  playbackRate : Q;
  preservesPitch : bool;
  muted : bool;
  reverb : Q;
  reverbEnabled : bool
}.

Inductive MessageRequest :=
  | ping
  | getMedia
  | setVolume (id : nat) (value : Q)
  | setPlaybackRate (id : nat) (value : Q)
  | setPreservesPitch (id : nat) (value : bool)
  | setMuted (id : nat) (value : bool)
  | setReverb (id : nat) (value : Q)
  | setReverbEnabled (id : nat) (value : bool)
  | otherAction (action : string).

Inductive Response :=
  | RespPong                       (* { pong: true } *)
  | RespMedia (media : list MediaInfo)
  | RespOk                         (* { ok: true } *)
  | RespError (msg : string).

Definition DEFAULT_SETTINGS : SiteSettings :=
  {| volume := 1; playbackRate := 1; preservesPitch := true;
     muted := false; reverb := 0; reverbEnabled := false |}.

(** A value found under a key of [chrome.storage.local].  An object is
    given by the fields of it that the script can read, each one present
    or not, at its declared type. *)
Record StoredObject := {
  so_volume : option Q;
  so_playbackRate : option Q;
  so_preservesPitch : option bool;
  so_muted : option bool;
  so_reverb : option Q;
  so_reverbEnabled : option bool
}.

Inductive StoredValue :=
  | SvNull
  | SvBool (b : bool)
  | SvNum (q : Q)
  | SvStr (s : string)
  | SvArray (len : nat)
  | SvObject (o : StoredObject).

Inductive ContextState := running | suspended.

(** The rendered impulse response: two channels of decaying noise. *)
Record AudioBuffer := {
  ab_channels : nat;
  ab_decayTime : Q;
  ab_preDelay : Q
}.

(** A gain parameter: its value when last set directly, and the target
    and time constant of the last [setTargetAtTime], if any. *)
Record GainNode := {
  gain_value : R;
  gain_target : option (R * R)
}.

Record MediaAudioGraph := {
  sourceNode : elref;
  dryGain : GainNode;
  wetGain : GainNode;
  convolver : option AudioBuffer;  (* the buffer of the convolver node *)
  reverbMix : Q;
  g_reverbEnabled : bool;
  g_connected : bool               (* [false] once the nodes are disconnected *)
}.

(** Work started and not awaited. *)
Inductive callback :=
  | CbBuild (id : nat) (el : elref)    (* rest of [ensureAudioGraph], then the mix *)
  | CbMix (id : nat)                   (* [.then(() => updateReverbMix(..))] alone *)
  | CbTeardown (g : gref) (id : nat)   (* the [setTimeout] callback of a disable *)
  | CbLoad.                            (* the [loadSettings()] that ends the script *)

Inductive logev :=
  | LogGet (key : string) (ok : bool)
  | LogSet (key : string) (v : PersistedSettings) (ok : bool)
  | LogResponse (r : Response).

Record Script := {
  currentSettings : SiteSettings;
  settingsLoaded : bool;
  audioContext : option ContextState;
  impulseResponseBuffer : option AudioBuffer;
  audioGraphRegistry : gmap nat gref;
  mediaRegistry : list (nat * elref);
  nextId : nat
}.

Record Page := {
  elements : gmap elref Element;
  document : list elref;            (* media elements in the document, in order *)
  graphs : gmap gref MediaAudioGraph;
  storage : gmap string StoredValue;
  listeners : list (elref * nat);   (* once-only play listeners: element, captured id *)
  pending : list callback;
  log : list logev
}.

Record Host := {
  hostname : string;
  storage_readable : bool;          (* [storage.local.get] resolves *)
  storage_writable : bool;          (* [storage.local.set] resolves *)
  audio_available : bool;           (* [new AudioContext()] returns *)
  render_ok : bool;                 (* [startRendering] resolves *)
  context_starts : ContextState;
  resume_ok : bool                  (* [ctx.resume()] resolves *)
}.

Record World := {
  script : Script;
  page : Page;
  host : Host
}.

Global Instance MediaType_eq_dec : EqDecision MediaType.
Proof. solve_decision. Defined.

Global Instance ContextState_eq_dec : EqDecision ContextState.
Proof. solve_decision. Defined.

(** ** Field updates *)

Definition with_script (f : Script -> Script) (w : World) : World :=
  {| script := f (script w); page := page w; host := host w |}.

Definition with_page (f : Page -> Page) (w : World) : World :=
  {| script := script w; page := f (page w); host := host w |}.

Definition set_currentSettings (c : SiteSettings) (s : Script) : Script :=
  {| currentSettings := c; settingsLoaded := settingsLoaded s;
     audioContext := audioContext s;
     impulseResponseBuffer := impulseResponseBuffer s;
     audioGraphRegistry := audioGraphRegistry s;
     mediaRegistry := mediaRegistry s; nextId := nextId s |}.

Definition set_settingsLoaded (b : bool) (s : Script) : Script :=
  {| currentSettings := currentSettings s; settingsLoaded := b;
     audioContext := audioContext s;
     impulseResponseBuffer := impulseResponseBuffer s;
     audioGraphRegistry := audioGraphRegistry s;
     mediaRegistry := mediaRegistry s; nextId := nextId s |}.

Definition set_audioContext (c : option ContextState) (s : Script) : Script :=
  {| currentSettings := currentSettings s; settingsLoaded := settingsLoaded s;
     audioContext := c;
     impulseResponseBuffer := impulseResponseBuffer s;
     audioGraphRegistry := audioGraphRegistry s;
     mediaRegistry := mediaRegistry s; nextId := nextId s |}.

Definition set_impulseResponseBuffer (b : option AudioBuffer) (s : Script) : Script :=
  {| currentSettings := currentSettings s; settingsLoaded := settingsLoaded s;
     audioContext := audioContext s;
     impulseResponseBuffer := b;
     audioGraphRegistry := audioGraphRegistry s;
     mediaRegistry := mediaRegistry s; nextId := nextId s |}.

Definition set_audioGraphRegistry (r : gmap nat gref) (s : Script) : Script :=
  {| currentSettings := currentSettings s; settingsLoaded := settingsLoaded s;
     audioContext := audioContext s;
     impulseResponseBuffer := impulseResponseBuffer s;
     audioGraphRegistry := r;
     mediaRegistry := mediaRegistry s; nextId := nextId s |}.

Definition set_mediaRegistry (r : list (nat * elref)) (s : Script) : Script :=
  {| currentSettings := currentSettings s; settingsLoaded := settingsLoaded s;
     audioContext := audioContext s;
     impulseResponseBuffer := impulseResponseBuffer s;
     audioGraphRegistry := audioGraphRegistry s;
     mediaRegistry := r; nextId := nextId s |}.

Definition set_nextId (n : nat) (s : Script) : Script :=
  {| currentSettings := currentSettings s; settingsLoaded := settingsLoaded s;
     audioContext := audioContext s;
     impulseResponseBuffer := impulseResponseBuffer s;
     audioGraphRegistry := audioGraphRegistry s;
     mediaRegistry := mediaRegistry s; nextId := n |}.

Definition set_elements (e : gmap elref Element) (p : Page) : Page :=
  {| elements := e; document := document p; graphs := graphs p;
     storage := storage p; listeners := listeners p;
     pending := pending p; log := log p |}.

Definition set_document (d : list elref) (p : Page) : Page :=
  {| elements := elements p; document := d; graphs := graphs p;
     storage := storage p; listeners := listeners p;
     pending := pending p; log := log p |}.

Definition set_graphs (g : gmap gref MediaAudioGraph) (p : Page) : Page :=
  {| elements := elements p; document := document p; graphs := g;
     storage := storage p; listeners := listeners p;
     pending := pending p; log := log p |}.

Definition set_storage (s : gmap string StoredValue) (p : Page) : Page :=
  {| elements := elements p; document := document p; graphs := graphs p;
     storage := s; listeners := listeners p;
     pending := pending p; log := log p |}.

Definition set_listeners (l : list (elref * nat)) (p : Page) : Page :=
  {| elements := elements p; document := document p; graphs := graphs p;
     storage := storage p; listeners := l;
     pending := pending p; log := log p |}.

Definition set_pending (t : list callback) (p : Page) : Page :=
  {| elements := elements p; document := document p; graphs := graphs p;
     storage := storage p; listeners := listeners p;
     pending := t; log := log p |}.

Definition set_log (l : list logev) (p : Page) : Page :=
  {| elements := elements p; document := document p; graphs := graphs p;
     storage := storage p; listeners := listeners p;
     pending := pending p; log := l |}.

(** Shorthands for reading the world. *)
Definition settings (w : World) : SiteSettings := currentSettings (script w).
Definition registry (w : World) : list (nat * elref) := mediaRegistry (script w).
Definition graphOf (w : World) (id : nat) : option gref :=
  audioGraphRegistry (script w) !! id.

Definition enqueue (t : callback) (w : World) : World :=
  with_page (fun p => set_pending (pending p ++ [t]) p) w.

Definition emit (e : logev) (w : World) : World :=
  with_page (fun p => set_log (log p ++ [e]) p) w.

(** ** Exceptions and state *)

Inductive outcome (A : Type) :=
  | Ok (a : A)
  | Throw.
Arguments Ok {A} a.
Arguments Throw {A}.

Definition M (A : Type) : Type := World -> outcome A * World.

Definition ret {A} (a : A) : M A := fun w => (Ok a, w).
Definition bind {A B} (m : M A) (k : A -> M B) : M B :=
  fun w => match m w with
           | (Ok a, w') => k a w'
           | (Throw, w') => (Throw, w')
           end.
Definition try_catch {A} (m : M A) (handler : M A) : M A :=
  fun w => match m w with
           | (Ok a, w') => (Ok a, w')
           | (Throw, w') => handler w'
           end.
Definition update (f : World -> World) : M unit := fun w => (Ok tt, f w).
Definition read {A} (f : World -> A) : M A := fun w => (Ok (f w), w).

Notation "x <- m ;; k" := (bind m (fun x => k))
  (at level 100, m at next level, right associativity).
Notation "m ;;; k" := (bind m (fun _ => k))
  (at level 100, right associativity).

Definition lift {A} (f : World -> A * World) : M A :=
  fun w => let (a, w') := f w in (Ok a, w').

(** ** Elements *)

(** A reference with no entry in the heap denotes an untouched element. *)
Definition blank_element : Element :=
  {| e_tagName := audio; e_src := ""; e_currentSrc := ""; e_paused := true;
     e_currentTime := 0; e_duration := None; e_volume := 1;
     e_playbackRate := 1; e_preservesPitch := true;
     e_mozPreservesPitch := true; e_muted := false;
     e_tappable := true; e_tapped := false |}.

Definition elem (w : World) (el : elref) : Element :=
  default blank_element (elements (page w) !! el).

Definition set_e_volume (v : Q) (e : Element) : Element :=
  {| e_tagName := e_tagName e; e_src := e_src e; e_currentSrc := e_currentSrc e;
     e_paused := e_paused e; e_currentTime := e_currentTime e;
     e_duration := e_duration e; e_volume := v;
     e_playbackRate := e_playbackRate e; e_preservesPitch := e_preservesPitch e;
     e_mozPreservesPitch := e_mozPreservesPitch e; e_muted := e_muted e;
     e_tappable := e_tappable e; e_tapped := e_tapped e |}.

Definition set_e_playbackRate (v : Q) (e : Element) : Element :=
  {| e_tagName := e_tagName e; e_src := e_src e; e_currentSrc := e_currentSrc e;
     e_paused := e_paused e; e_currentTime := e_currentTime e;
     e_duration := e_duration e; e_volume := e_volume e;
     e_playbackRate := v; e_preservesPitch := e_preservesPitch e;
     e_mozPreservesPitch := e_mozPreservesPitch e; e_muted := e_muted e;
     e_tappable := e_tappable e; e_tapped := e_tapped e |}.

Definition set_e_preservesPitch (b : bool) (e : Element) : Element :=
  {| e_tagName := e_tagName e; e_src := e_src e; e_currentSrc := e_currentSrc e;
     e_paused := e_paused e; e_currentTime := e_currentTime e;
     e_duration := e_duration e; e_volume := e_volume e;
     e_playbackRate := e_playbackRate e; e_preservesPitch := b;
     e_mozPreservesPitch := e_mozPreservesPitch e; e_muted := e_muted e;
     e_tappable := e_tappable e; e_tapped := e_tapped e |}.

Definition set_e_mozPreservesPitch (b : bool) (e : Element) : Element :=
  {| e_tagName := e_tagName e; e_src := e_src e; e_currentSrc := e_currentSrc e;
     e_paused := e_paused e; e_currentTime := e_currentTime e;
     e_duration := e_duration e; e_volume := e_volume e;
     e_playbackRate := e_playbackRate e; e_preservesPitch := e_preservesPitch e;
     e_mozPreservesPitch := b; e_muted := e_muted e;
     e_tappable := e_tappable e; e_tapped := e_tapped e |}.

Definition set_e_muted (b : bool) (e : Element) : Element :=
  {| e_tagName := e_tagName e; e_src := e_src e; e_currentSrc := e_currentSrc e;
     e_paused := e_paused e; e_currentTime := e_currentTime e;
     e_duration := e_duration e; e_volume := e_volume e;
     e_playbackRate := e_playbackRate e; e_preservesPitch := e_preservesPitch e;
     e_mozPreservesPitch := e_mozPreservesPitch e; e_muted := b;
     e_tappable := e_tappable e; e_tapped := e_tapped e |}.

Definition set_e_tapped (b : bool) (e : Element) : Element :=
  {| e_tagName := e_tagName e; e_src := e_src e; e_currentSrc := e_currentSrc e;
     e_paused := e_paused e; e_currentTime := e_currentTime e;
     e_duration := e_duration e; e_volume := e_volume e;
     e_playbackRate := e_playbackRate e; e_preservesPitch := e_preservesPitch e;
     e_mozPreservesPitch := e_mozPreservesPitch e; e_muted := e_muted e;
     e_tappable := e_tappable e; e_tapped := b |}.

(** An assignment to a property of the element [el]. *)
Definition write_el (el : elref) (f : Element -> Element) (w : World) : World :=
  with_page (fun p => set_elements (<[el := f (elem w el)]> (elements p)) p) w.

Definition nonempty (s : string) : bool :=
  match s with EmptyString => false | _ => true end.

(** [document.contains(el)] *)
Definition document_contains (w : World) (el : elref) : bool :=
  bool_decide (el ∈ document (page w)).

(** ** JavaScript [Map] with insertion order *)

Fixpoint map_get {V} (k : nat) (m : list (nat * V)) : option V :=
  match m with
  | [] => None
  | (k', v) :: rest => if decide (k' = k) then Some v else map_get k rest
  end.

Fixpoint map_set {V} (k : nat) (v : V) (m : list (nat * V)) : list (nat * V) :=
  match m with
  | [] => [(k, v)]
  | (k', v') :: rest =>
      if decide (k' = k) then (k, v) :: rest else (k', v') :: map_set k v rest
  end.

Fixpoint map_delete {V} (k : nat) (m : list (nat * V)) : list (nat * V) :=
  match m with
  | [] => []
  | (k', v') :: rest =>
      if decide (k' = k) then rest else (k', v') :: map_delete k rest
  end.

(** ** Settings store *)

Definition getCurrentDomain (w : World) : string :=
  if nonempty (hostname (host w)) then hostname (host w) else "default".

Definition storageKey (w : World) : string :=
  "tuneShifter_" +:+ getCurrentDomain w.

(** [chrome.storage.local.get([key])], awaited. *)
Definition storage_get (key : string) : M (option StoredValue) :=
  fun w =>
    if storage_readable (host w)
    then (Ok (storage (page w) !! key), emit (LogGet key true) w)
    else (Throw, emit (LogGet key false) w).

Definition stored_of (p : PersistedSettings) : StoredObject :=
  {| so_volume := Some (p_volume p);
     so_playbackRate := Some (p_playbackRate p);
     so_preservesPitch := Some (p_preservesPitch p);
     so_muted := Some (p_muted p);
     so_reverb := Some (p_reverb p);
     so_reverbEnabled := None |}.

(** [chrome.storage.local.set({ [key]: v })], awaited: the event is logged
    when the call settles. *)
Definition storage_set (key : string) (v : PersistedSettings) : M unit :=
  fun w =>
    if storage_writable (host w)
    then (Ok tt,
          emit (LogSet key v true)
            (with_page (fun p =>
               set_storage (<[key := SvObject (stored_of v)]> (storage p)) p) w))
    else (Throw, emit (LogSet key v false) w).

Definition truthy (v : StoredValue) : bool :=
  match v with
  | SvNull => false
  | SvBool b => b
  | SvNum q => negb (Qeq_bool q 0)
  | SvStr s => nonempty s
  | SvArray _ => true
  | SvObject _ => true
  end.

(** [typeof v === 'object'] *)
Definition typeof_object (v : StoredValue) : bool :=
  match v with
  | SvNull | SvArray _ | SvObject _ => true
  | _ => false
  end.

Definition no_fields : StoredObject :=
  {| so_volume := None; so_playbackRate := None; so_preservesPitch := None;
     so_muted := None; so_reverb := None; so_reverbEnabled := None |}.

(** The own named properties [...v] copies; an array has only indices. *)
Definition own_fields (v : StoredValue) : StoredObject :=
  match v with
  | SvObject o => o
  | _ => no_fields
  end.

(** [{ ...base, ...o }] *)
Definition spread (base : SiteSettings) (o : StoredObject) : SiteSettings :=
  {| volume := default (volume base) (so_volume o);
     playbackRate := default (playbackRate base) (so_playbackRate o);
     preservesPitch := default (preservesPitch base) (so_preservesPitch o);
     muted := default (muted base) (so_muted o);
     reverb := default (reverb base) (so_reverb o);
     reverbEnabled := default (reverbEnabled base) (so_reverbEnabled o) |}.

Definition set_volume (v : Q) (c : SiteSettings) : SiteSettings :=
  {| volume := v; playbackRate := playbackRate c;
     preservesPitch := preservesPitch c; muted := muted c;
     reverb := reverb c; reverbEnabled := reverbEnabled c |}.

Definition set_playbackRate (v : Q) (c : SiteSettings) : SiteSettings :=
  {| volume := volume c; playbackRate := v;
     preservesPitch := preservesPitch c; muted := muted c;
     reverb := reverb c; reverbEnabled := reverbEnabled c |}.

Definition set_preservesPitch (b : bool) (c : SiteSettings) : SiteSettings :=
  {| volume := volume c; playbackRate := playbackRate c;
     preservesPitch := b; muted := muted c;
     reverb := reverb c; reverbEnabled := reverbEnabled c |}.

Definition set_muted (b : bool) (c : SiteSettings) : SiteSettings :=
  {| volume := volume c; playbackRate := playbackRate c;
     preservesPitch := preservesPitch c; muted := b;
     reverb := reverb c; reverbEnabled := reverbEnabled c |}.

Definition set_reverb (v : Q) (c : SiteSettings) : SiteSettings :=
  {| volume := volume c; playbackRate := playbackRate c;
     preservesPitch := preservesPitch c; muted := muted c;
     reverb := v; reverbEnabled := reverbEnabled c |}.

Definition set_reverbEnabled (b : bool) (c : SiteSettings) : SiteSettings :=
  {| volume := volume c; playbackRate := playbackRate c;
     preservesPitch := preservesPitch c; muted := muted c;
     reverb := reverb c; reverbEnabled := b |}.

Definition assign_settings (c : SiteSettings) : World -> World :=
  with_script (set_currentSettings c).

Definition modify_settings (f : SiteSettings -> SiteSettings) (w : World) : World :=
  assign_settings (f (settings w)) w.

(** The value [loadSettings] assigns for what [result[storageKey]] holds. *)
Definition loaded_settings (siteSettings : option StoredValue) : SiteSettings :=
  match siteSettings with
  | Some v =>
      if truthy v && typeof_object v
      then set_reverbEnabled false (spread DEFAULT_SETTINGS (own_fields v))
      else DEFAULT_SETTINGS
  | None => DEFAULT_SETTINGS
  end.

Definition loadSettings : M unit :=
  try_catch
    (key <- read storageKey ;;
     result <- storage_get key ;;
     update (assign_settings (loaded_settings result)) ;;;
     update (with_script (set_settingsLoaded true)))
    (update (assign_settings DEFAULT_SETTINGS) ;;;
     update (with_script (set_settingsLoaded true))).

Definition settingsToSave (c : SiteSettings) : PersistedSettings :=
  {| p_volume := volume c; p_playbackRate := playbackRate c;
     p_preservesPitch := preservesPitch c; p_muted := muted c;
     p_reverb := reverb c |}.

Definition saveSettings : M unit :=
  try_catch
    (key <- read storageKey ;;
     c <- read settings ;;
     storage_set key (settingsToSave c))
    (ret tt).

(** ** Media registry *)

Fixpoint find_id (el : elref) (reg : list (nat * elref)) : option nat :=
  match reg with
  | [] => None
  | (id, registered) :: rest =>
      if decide (registered = el) then Some id else find_id el rest
  end.

Definition getMediaId (el : elref) (w : World) : nat * World :=
  match find_id el (registry w) with
  | Some id => (id, w)
  | None =>
      let id := nextId (script w) in
      (id, with_script (fun s =>
             set_mediaRegistry (map_set id el (mediaRegistry s))
               (set_nextId (S id) s)) w)
  end.

(** The test of [pruneRegistry] on one entry. *)
Definition prunable (w : World) (el : elref) : bool :=
  negb (document_contains w el)
  && negb (nonempty (e_src (elem w el)))
  && negb (nonempty (e_currentSrc (elem w el))).

Definition prune_entry (w : World) (entry : nat * elref) : World :=
  let (id, el) := entry in
  if prunable w el
  then with_script (fun s =>
         set_audioGraphRegistry (delete id (audioGraphRegistry s))
           (set_mediaRegistry (map_delete id (mediaRegistry s)) s)) w
  else w.

(** The loop visits the entries present when it starts; deleting the entry
    being visited does not disturb the others. *)
Definition pruneRegistry (w : World) : World :=
  fold_left prune_entry (registry w) w.

(** [querySelectorAll("audio")] followed by [querySelectorAll("video")]. *)
Definition discoverMediaElements (w : World) : list elref :=
  filter (fun el => e_tagName (elem w el) = audio) (document (page w))
  ++ filter (fun el => e_tagName (elem w el) = video) (document (page w)).

(** ** Audio graph *)

Definition math_min (a b : Q) : Q := if Qle_bool a b then a else b.
Definition math_max (a b : Q) : Q := if Qle_bool a b then b else a.

(** [param.value = v] *)
Definition gain_at (v : R) : GainNode :=
  {| gain_value := v; gain_target := None |}.

(** [param.setTargetAtTime(target, now, timeConstant)] *)
Definition setTargetAtTime (target timeConstant : R) (g : GainNode) : GainNode :=
  {| gain_value := gain_value g; gain_target := Some (target, timeConstant) |}.

Definition set_gains (dry wet : GainNode) (g : MediaAudioGraph) : MediaAudioGraph :=
  {| sourceNode := sourceNode g; dryGain := dry; wetGain := wet;
     convolver := convolver g; reverbMix := reverbMix g;
     g_reverbEnabled := g_reverbEnabled g; g_connected := g_connected g |}.

Definition set_reverbMix (m : Q) (g : MediaAudioGraph) : MediaAudioGraph :=
  {| sourceNode := sourceNode g; dryGain := dryGain g; wetGain := wetGain g;
     convolver := convolver g; reverbMix := m;
     g_reverbEnabled := g_reverbEnabled g; g_connected := g_connected g |}.

(** [disconnect()] on the four nodes. *)
Definition disconnect (g : MediaAudioGraph) : MediaAudioGraph :=
  {| sourceNode := sourceNode g; dryGain := dryGain g; wetGain := wetGain g;
     convolver := convolver g; reverbMix := reverbMix g;
     g_reverbEnabled := g_reverbEnabled g; g_connected := false |}.

(** The graph object a registry entry refers to. *)
Definition graph_object (w : World) (id : nat) : option MediaAudioGraph :=
  g ← graphOf w id; graphs (page w) !! g.

Definition write_graph (g : gref) (f : MediaAudioGraph -> MediaAudioGraph)
    (w : World) : World :=
  with_page (fun p => set_graphs (alter f g (graphs p)) p) w.

Definition createImpulseResponse : M AudioBuffer :=
  fun w =>
    if render_ok (host w)
    then (Ok {| ab_channels := 2; ab_decayTime := 3; ab_preDelay := 3 # 100 |}, w)
    else (Throw, w).

Definition initAudioContext : M ContextState :=
  fun w =>
    match audioContext (script w) with
    | Some ctx => (Ok ctx, w)
    | None =>
        if audio_available (host w)
        then
          (update (with_script (set_audioContext (Some (context_starts (host w))))) ;;;
           buffer <- createImpulseResponse ;;
           update (with_script (set_impulseResponseBuffer (Some buffer))) ;;;
           ret (context_starts (host w))) w
        else (Throw, w)
    end.

(** [await ctx.resume()] *)
Definition resume : M unit :=
  fun w =>
    if resume_ok (host w)
    then (Ok tt, with_script (set_audioContext (Some running)) w)
    else (Throw, w).

(** [ctx.createMediaElementSource(el)]: refused for an element that was
    tapped before, or that the browser does not let the script tap. *)
Definition createMediaElementSource (el : elref) : M unit :=
  fun w =>
    if e_tapped (elem w el) || negb (e_tappable (elem w el))
    then (Throw, w)
    else (Ok tt, write_el el (set_e_tapped true) w).

(** A new graph object, on a reference not in use. *)
Definition new_graph (G : MediaAudioGraph) : M gref :=
  fun w =>
    let g := fresh (dom (graphs (page w))) in
    (Ok g, with_page (fun p => set_graphs (<[g := G]> (graphs p)) p) w).

(** The [try] block of [createAudioGraph]. *)
Definition createAudioGraph_try (id : nat) (el : elref) : M (option gref) :=
  ctx <- initAudioContext ;;
  (if decide (ctx = suspended) then resume else ret tt) ;;;
  createMediaElementSource el ;;;
  buffer <- read (fun w => impulseResponseBuffer (script w)) ;;
  graph <- new_graph
    {| sourceNode := el; dryGain := gain_at 1%R; wetGain := gain_at 0%R;
       convolver := buffer; reverbMix := 0;
       g_reverbEnabled := true; g_connected := true |} ;;
  update (with_script (fun s =>
    set_audioGraphRegistry (<[id := graph]> (audioGraphRegistry s)) s)) ;;;
  ret (Some graph).

Definition createAudioGraph (id : nat) (el : elref) : M (option gref) :=
  fun w =>
    if negb (reverbEnabled (settings w)) then (Ok None, w)
    else
      match graphOf w id with
      | Some graph => (Ok (Some graph), w)
      | None => try_catch (createAudioGraph_try id el) (ret None) w
      end.

Definition updateReverbMix (id : nat) (wetMix : Q) (w : World) : World :=
  match graphOf w id, audioContext (script w) with
  | Some graph, Some _ =>
      let dryValue := cos (Q2R wetMix * PI / 2) in
      let wetValue := sin (Q2R wetMix * PI / 2) in
      write_graph graph (fun G =>
        set_reverbMix wetMix
          (set_gains (setTargetAtTime dryValue (2 / 100) (dryGain G))
                     (setTargetAtTime wetValue (2 / 100) (wetGain G)) G)) w
  | _, _ => w
  end.

Definition ensureAudioGraph (id : nat) (el : elref) : M (option gref) :=
  createAudioGraph id el.

(** The fade of a disable: wet towards 0 and dry towards 1, over 100 ms. *)
Definition fade_out (G : MediaAudioGraph) : MediaAudioGraph :=
  set_gains (setTargetAtTime 1 (1 / 10) (dryGain G))
            (setTargetAtTime 0 (1 / 10) (wetGain G)) G.

Definition toggleReverb (id : nat) (enabled : bool) : M unit :=
  fun w =>
    match map_get id (registry w) with
    | None => (Ok tt, w)
    | Some el =>
        if enabled
        then (createAudioGraph id el ;;;
              update (fun w' => updateReverbMix id (reverb (settings w')) w')) w
        else
          match graphOf w id, audioContext (script w) with
          | Some graph, Some _ =>
              (Ok tt,
               enqueue (CbTeardown graph id) (write_graph graph fade_out w))
          | _, _ => (Ok tt, w)
          end
    end.

(** [applySettingsToElement]: the element is updated at once; the promise
    of [ensureAudioGraph] is not awaited.  Its checks run in the call; an
    existing graph leaves only the mix to be applied, a missing one leaves
    the [try] block to run. *)
Definition applySettingsToElement (el : elref) (id : nat) (w : World) : World :=
  let c := settings w in
  let w1 :=
    write_el el (set_e_muted (muted c))
      (write_el el (set_e_mozPreservesPitch (preservesPitch c))
        (write_el el (set_e_preservesPitch (preservesPitch c))
          (write_el el (set_e_playbackRate (playbackRate c))
            (write_el el (set_e_volume (volume c)) w)))) in
  if reverbEnabled c
  then match graphOf w1 id with
       | Some _ => enqueue (CbMix id) w1
       | None => enqueue (CbBuild id el) w1
       end
  else w1.

(** One waiting callback runs. *)
Definition run_callback (t : callback) (w : World) : World :=
  match t with
  | CbLoad => snd (loadSettings w)
  | CbBuild id el =>
      let w' := snd (try_catch (createAudioGraph_try id el) (ret None) w) in
      updateReverbMix id (reverb (settings w')) w'
  | CbMix id => updateReverbMix id (reverb (settings w)) w
  | CbTeardown graph id =>
      with_script (fun s =>
        set_audioGraphRegistry (delete id (audioGraphRegistry s)) s)
        (write_graph graph disconnect w)
  end.

(** The [n]-th waiting callback is taken out of the list and run. *)
Definition run_pending (n : nat) (w : World) : World :=
  match pending (page w) !! n with
  | Some t =>
      run_callback t
        (with_page (fun p => set_pending (delete n (pending p)) p) w)
  | None => w
  end.

Definition is_promise_job (t : callback) : bool :=
  match t with
  | CbBuild _ _ | CbMix _ => true
  | CbTeardown _ _ | CbLoad => false
  end.

Definition run_job (n : nat) (w : World) : World :=
  match pending (page w) !! n with
  | Some t => if is_promise_job t then run_pending n w else w
  | None => w
  end.

Definition run_jobs (ns : list nat) (w : World) : World :=
  fold_left (fun w' n => run_job n w') ns w.

(** ** Snapshot, commands and the message handler *)

(** The value and the property of [applyChange], taken together. *)
Inductive SettingChange :=
  | change_volume (value : Q)
  | change_playbackRate (value : Q)
  | change_preservesPitch (value : bool)
  | change_muted (value : bool)
  | change_reverb (value : Q)
  | change_reverbEnabled (value : bool).

(** The switch of [applyChange]. *)
Definition change_body (id : nat) (el : elref) (change : SettingChange) : M unit :=
  match change with
  | change_volume value =>
      update (write_el el (set_e_volume (math_max 0 (math_min 1 value)))) ;;;
      update (fun w' => modify_settings (set_volume (e_volume (elem w' el))) w')
  | change_playbackRate value =>
      update (write_el el (set_e_playbackRate value)) ;;;
      update (fun w' =>
        modify_settings (set_playbackRate (e_playbackRate (elem w' el))) w')
  | change_preservesPitch value =>
      update (write_el el (set_e_preservesPitch value)) ;;;
      update (write_el el (set_e_mozPreservesPitch value)) ;;;
      update (modify_settings (set_preservesPitch value))
  | change_muted value =>
      update (write_el el (set_e_muted value)) ;;;
      update (fun w' => modify_settings (set_muted (e_muted (elem w' el))) w')
  | change_reverb value =>
      update (modify_settings (set_reverb (math_max 0 (math_min 1 value)))) ;;;
      update (fun w' =>
        if reverbEnabled (settings w')
        then updateReverbMix id (reverb (settings w')) w'
        else w')
  | change_reverbEnabled value =>
      update (modify_settings (set_reverbEnabled value)) ;;;
      (fun w' => toggleReverb id (reverbEnabled (settings w')) w')
  end.

Definition applyChange (id : nat) (change : SettingChange) : M bool :=
  fun w =>
    match map_get id (registry w) with
    | None => (Ok false, w)
    | Some el =>
        (change_body id el change ;;;
         saveSettings ;;;
         ret true) w
    end.

Section ContentScript.

(** [getTitle] reads the title attribute, the caption, the label and the
    source address of the element, and nothing of the script. *)
Variable getTitle : Element -> string.

Definition buildMediaInfo (el : elref) (id : nat) (w : World) : MediaInfo :=
  let graph := graph_object w id in
  let e := elem w el in
  let c := settings w in
  {| mi_id := id;
     mi_type := e_tagName e;
     mi_src := if nonempty (e_currentSrc e) then e_currentSrc e else e_src e;
     mi_title := getTitle e;
     mi_paused := e_paused e;
     mi_currentTime := e_currentTime e;
     mi_duration := match e_duration e with
                    | Some d => if Qeq_bool d 0 then 0 else d
                    | None => 0
                    end;
     mi_volume := volume c;
     mi_playbackRate := playbackRate c;
     mi_preservesPitch := preservesPitch c;
     mi_muted := muted c;
     mi_reverb := match graph with
                  | Some G => reverbMix G
                  | None => reverb c
                  end;
     mi_reverbEnabled := match graph with
                         | Some G => g_reverbEnabled G
                         | None => false
                         end |}.

(** The loop of [getAllMedia] over the registry.  Each [await] of the
    loop lets waiting promise reactions run before the next entry is read,
    and nothing else (a timer or a storage answer needs a new turn of the
    event loop): [sched k] names the reactions that run after entry [k].
    No reaction writes the media registry, so the loop visits the entries
    it started with. *)
Fixpoint snapshot (sched : nat -> list nat) (k : nat)
    (entries : list (nat * elref)) (w : World) : list MediaInfo * World :=
  match entries with
  | [] => ([], w)
  | (id, el) :: rest =>
      let info := buildMediaInfo el id w in
      let (infos, w') := snapshot sched (S k) rest (run_jobs (sched k) w) in
      (info :: infos, w')
  end.

Definition identify_and_apply (w : World) (el : elref) : World :=
  let (id, w') := getMediaId el w in applySettingsToElement el id w'.

Definition getAllMedia (sched : nat -> list nat) (w : World)
    : list MediaInfo * World :=
  let w1 := pruneRegistry w in
  let w2 := fold_left identify_and_apply (discoverMediaElements w1) w1 in
  snapshot sched 0 (registry w2) w2.

Definition ensure_loaded : M unit :=
  fun w => if settingsLoaded (script w) then (Ok tt, w) else loadSettings w.

Definition handleAsync (sched : nat -> list nat) (request : MessageRequest)
    : M Response :=
  ensure_loaded ;;;
  match request with
  | ping => ret RespPong
  | getMedia => media <- lift (getAllMedia sched) ;; ret (RespMedia media)
  | setVolume id value => applyChange id (change_volume value) ;;; ret RespOk
  | setPlaybackRate id value =>
      applyChange id (change_playbackRate value) ;;; ret RespOk
  | setPreservesPitch id value =>
      applyChange id (change_preservesPitch value) ;;; ret RespOk
  | setMuted id value => applyChange id (change_muted value) ;;; ret RespOk
  | setReverb id value => applyChange id (change_reverb value) ;;; ret RespOk
  | setReverbEnabled id value =>
      applyChange id (change_reverbEnabled value) ;;; ret RespOk
  | otherAction _ => ret (RespError "Unknown action")
  end.

(** The listener: [handleAsync().then(sendResponse)]. *)
Definition onMessage (sched : nat -> list nat) (request : MessageRequest)
    (w : World) : World :=
  match handleAsync sched request w with
  | (Ok response, w') => emit (LogResponse response) w'
  | (Throw, w') => w'
  end.

(** ** Page events *)

Definition add_play_listener (el : elref) (id : nat) (w : World) : World :=
  with_page (fun p => set_listeners (listeners p ++ [(el, id)]) p) w.

(** [new Audio(src)] and [document.createElement] of a media tag. *)
Definition onConstruct (el : elref) (w : World) : World :=
  let (id, w') := getMediaId el w in add_play_listener el id w'.

(** [processMedia] of the mutation observer. *)
Definition processMedia (w : World) (el : elref) : World :=
  let (id, w') := getMediaId el w in
  add_play_listener el id (applySettingsToElement el id w').

Definition onMutation (added : list elref) (w : World) : World :=
  fold_left processMedia added w.

(** The scan that runs when the script is loaded. *)
Definition initialScan (w : World) : World :=
  fold_left identify_and_apply (discoverMediaElements w) w.

(** A play event: the capturing listener of the document sees it when the
    element is in the document, then the once-only listeners of the
    element run and are removed. *)
Definition onPlay (el : elref) (w : World) : World :=
  let w1 := if document_contains w el then identify_and_apply w el else w in
  let mine := filter (fun l => l.1 = el) (listeners (page w1)) in
  let others := filter (fun l => l.1 ≠ el) (listeners (page w1)) in
  fold_left (fun w' l => applySettingsToElement l.1 l.2 w') mine
    (with_page (set_listeners others) w1).

(** What the page itself does: it replaces what an element shows to
    scripts (the record of taps is the browser's), or the list of media
    elements attached to the document. *)
Definition page_edit (el : elref) (e : Element) (w : World) : World :=
  write_el el (fun old => set_e_tapped (e_tapped old) e) w.

Definition page_attach (doc : list elref) (w : World) : World :=
  with_page (set_document doc) w.

Inductive event :=
  | EvConstruct (el : elref)
  | EvMutation (added : list elref)
  | EvPlay (el : elref)
  | EvMessage (sched : nat -> list nat) (request : MessageRequest)
  | EvCallback (n : nat)
  | EvPageEdit (el : elref) (e : Element)
  | EvPageAttach (doc : list elref).

Definition step (w : World) (ev : event) : World :=
  match ev with
  | EvConstruct el => onConstruct el w
  | EvMutation added => onMutation added w
  | EvPlay el => onPlay el w
  | EvMessage sched request => onMessage sched request w
  | EvCallback n => run_pending n w
  | EvPageEdit el e => page_edit el e w
  | EvPageAttach doc => page_attach doc w
  end.

Definition run (evs : list event) (w : World) : World := fold_left step evs w.

End ContentScript.

(** The world when the script has just been evaluated: nothing loaded,
    both registries empty, the first id is 1; the scan has run and the
    first [loadSettings()] is waiting. *)
Definition fresh_script : Script :=
  {| currentSettings := DEFAULT_SETTINGS; settingsLoaded := false;
     audioContext := None; impulseResponseBuffer := None;
     audioGraphRegistry := ∅; mediaRegistry := []; nextId := 1 |}.

Definition boot (h : Host) (els : gmap elref Element) (doc : list elref)
    (store : gmap string StoredValue) : World :=
  enqueue CbLoad
    (initialScan
       {| script := fresh_script;
          page := {| elements := els; document := doc; graphs := ∅;
                     storage := store; listeners := []; pending := [];
                     log := [] |};
          host := h |}).

(** ** Vocabulary of the properties *)

(** The id a mutating command names. *)
Definition command_id (request : MessageRequest) : option nat :=
  match request with
  | setVolume id _ | setPlaybackRate id _ | setPreservesPitch id _
  | setMuted id _ | setReverb id _ | setReverbEnabled id _ => Some id
  | ping | getMedia | otherAction _ => None
  end.

Definition registry_ids (w : World) : list nat := (registry w).*1.

(** The registry as every run keeps it: ids in ascending order, all below
    the next id to hand out, and no element entered twice. *)
Definition wf_registry (w : World) : Prop :=
  StronglySorted lt (registry_ids w)
  ∧ Forall (fun id => id < nextId (script w)) (registry_ids w)
  ∧ NoDup (registry w).*2.

(** [w'] comes after [w]: ids are handed out upwards, and an entry of the
    later registry under an id that was already handed out in [w] is an
    entry [w] had. *)
Definition extends (w w' : World) : Prop :=
  nextId (script w) ≤ nextId (script w')
  ∧ ∀ id el, (id, el) ∈ registry w' → id < nextId (script w) →
             (id, el) ∈ registry w.

(** A transition that keeps registries well formed and only extends them. *)
Definition registry_step (w w' : World) : Prop :=
  wf_registry w → wf_registry w' ∧ extends w w'.

(** What pruning leaves alone. *)
Definition prune_view (w : World) :=
  (settings w, settingsLoaded (script w), nextId (script w), page w, host w).

(** The entry [mi] shows the four playback settings of [c]. *)
Definition reports (c : SiteSettings) (mi : MediaInfo) : Prop :=
  mi_volume mi = volume c
  ∧ mi_playbackRate mi = playbackRate c
  ∧ mi_preservesPitch mi = preservesPitch c
  ∧ mi_muted mi = muted c.

(** The page rewrites elements behind the back of the script. *)
Definition page_edits (edits : list (elref * Element)) (w : World) : World :=
  fold_left (fun w' edit => page_edit edit.1 edit.2 w') edits w.

(** The part of the world the reverb commands act on. *)
Definition audio_state (w : World) :=
  (audioGraphRegistry (script w), audioContext (script w), graphs (page w),
   pending (page w), elements (page w), registry w,
   settingsLoaded (script w), settings w).

(** The audio state as every run keeps it: a graph in the registry is an
    object of the heap, and the context that made it is there. *)
Definition audio_wf (w : World) : Prop :=
  ∀ id g, graphOf w id = Some g →
    is_Some (graphs (page w) !! g) ∧ is_Some (audioContext (script w)).

(** [w'] comes after [w]: graph objects and the context stay, and a
    registry entry of [w'] is one of [w] or a well-formed new one. *)
Definition audio_le (w w' : World) : Prop :=
  (∀ id g, graphOf w' id = Some g →
     graphOf w id = Some g
     ∨ is_Some (graphs (page w') !! g) ∧ is_Some (audioContext (script w')))
  ∧ (∀ g, is_Some (graphs (page w) !! g) → is_Some (graphs (page w') !! g))
  ∧ (is_Some (audioContext (script w)) → is_Some (audioContext (script w'))).

Definition audio_core (w : World) :=
  (audioGraphRegistry (script w), audioContext (script w), graphs (page w)).

(** What was logged between two worlds of a run. *)
Definition new_events (w w' : World) : list logev :=
  drop (length (log (page w))) (log (page w')).

Definition is_write (e : logev) : bool :=
  match e with LogSet _ _ _ => true | _ => false end.

(** A response goes out while no write has settled yet. *)
Definition responds_before_write_settles (evs : list logev) : Prop :=
  ∃ pre r post,
    evs = pre ++ LogResponse r :: post ∧ Forall (fun e => is_write e = false) pre.

(** What an operation of the audio graph leaves alone. *)
Definition quiet_view (w : World) :=
  (settings w, settingsLoaded (script w), registry w, nextId (script w),
   host w, document (page w), storage (page w), listeners (page w),
   log (page w)).

(** What the property-specific part of [applyChange] leaves alone. *)
Definition command_view (w : World) :=
  (log (page w), host w, registry w, nextId (script w)).

(** The part of the world the registry operations decide on. *)
Definition registry_view (w : World) := (registry w, nextId (script w)).

Definition keeps {X A} (view : World -> X) (m : M A) : Prop :=
  ∀ w, view (snd (m w)) = view w.

Definition keeps_fn {X} (view : World -> X) (f : World -> World) : Prop :=
  ∀ w, view (f w) = view w.

(** No exception leaves [m]. *)
Definition never_throws {A} (m : M A) : Prop :=
  ∀ w, ∃ a, fst (m w) = Ok a.

(** ** Worlds to compute on *)

Definition example_host : Host :=
  {| hostname := "example.org"; storage_readable := true;
     storage_writable := true; audio_available := true; render_ok := true;
     context_starts := running; resume_ok := true |}.

Definition song : Element :=
  {| e_tagName := audio; e_src := "https://example.org/song.mp3";
     e_currentSrc := "https://example.org/song.mp3"; e_paused := false;
     e_currentTime := 12; e_duration := Some 180%Q; e_volume := 1;
     e_playbackRate := 1; e_preservesPitch := true;
     e_mozPreservesPitch := true; e_muted := false;
     e_tappable := true; e_tapped := false |}.

Definition plain_title (e : Element) : string := e_src e.
Definition no_jobs (k : nat) : list nat := [].

(** A page with no media, and a page with one [audio] element, number 10,
    in the document, after the script has started and its first load has
    finished. *)
Definition empty_world : World :=
  run plain_title [EvCallback 0] (boot example_host ∅ [] ∅).

Definition tracked_world : World :=
  run plain_title [EvCallback 0] (boot example_host {[ 10 := song ]} [10] ∅).

(** The same page with reverb switched on for id 1. *)
Definition reverb_on : World :=
  onMessage plain_title no_jobs (setReverbEnabled 1 true) tracked_world.

(** A store holding, for the site, a record that lacks some fields and
    carries a reverbEnabled field. *)
Definition stale_record : StoredObject :=
  {| so_volume := Some (1 # 2)%Q; so_playbackRate := None;
     so_preservesPitch := Some false; so_muted := None;
     so_reverb := Some (3 # 4)%Q; so_reverbEnabled := Some true |}.

Definition revisited_world : World :=
  boot example_host ∅ []
    {[ "tuneShifter_example.org" := SvObject stale_record ]}.

(** Reverb switched on, off and on again for id 1, each command answered
    before the next is sent, then the timer of the disable. *)
Definition toggled_thrice : World :=
  onMessage plain_title no_jobs (setReverbEnabled 1 true)
    (onMessage plain_title no_jobs (setReverbEnabled 1 false)
       (onMessage plain_title no_jobs (setReverbEnabled 1 true) tracked_world)).

Definition after_teardown : World := run_pending 0 toggled_thrice.

(** An element made by [document.createElement], polled while it has no
    source and is in no document, then given a source and inserted. *)
Definition constructed : World :=
  run plain_title [EvCallback 0; EvConstruct 7] (boot example_host ∅ [] ∅).

Definition reinserted : World :=
  run plain_title
    [EvMessage no_jobs getMedia; EvPageEdit 7 song; EvPageAttach [7];
     EvMutation [7]]
    constructed.

(** ** Commands as messages *)

(** The message that asks for the change [change] of the medium [id]. *)
Definition request_of (id : nat) (change : SettingChange) : MessageRequest :=
  match change with
  | change_volume value => setVolume id value
  | change_playbackRate value => setPlaybackRate id value
  | change_preservesPitch value => setPreservesPitch id value
  | change_muted value => setMuted id value
  | change_reverb value => setReverb id value
  | change_reverbEnabled value => setReverbEnabled id value
  end.

(** What loading the settings leaves alone. *)
Definition load_view (w : World) :=
  (audioContext (script w), impulseResponseBuffer (script w),
   audioGraphRegistry (script w), registry w, nextId (script w),
   elements (page w), document (page w), graphs (page w), storage (page w),
   listeners (page w), pending (page w), host w).

(** What saving the settings leaves alone. *)
Definition save_view (w : World) :=
  (script w, elements (page w), document (page w), graphs (page w),
   listeners (page w), pending (page w), host w).

(** ** The script as a sequence of small steps *)

(** The part of the [try] block of [createAudioGraph] that follows the
    context: the tap of the element, the nodes and the registry entry. *)
Definition build_graph (id : nat) (el : elref) : M (option gref) :=
  createMediaElementSource el ;;;
  buffer <- read (fun w => impulseResponseBuffer (script w)) ;;
  graph <- new_graph
    {| sourceNode := el; dryGain := gain_at 1%R; wetGain := gain_at 0%R;
       convolver := buffer; reverbMix := 0;
       g_reverbEnabled := true; g_connected := true |} ;;
  update (with_script (fun s =>
    set_audioGraphRegistry (<[id := graph]> (audioGraphRegistry s)) s)) ;;;
  ret (Some graph).

(** An update of a graph object that changes gains and mix only. *)
Definition gain_edit (f : MediaAudioGraph → MediaAudioGraph) : Prop :=
  ∀ G, sourceNode (f G) = sourceNode G
       ∧ convolver (f G) = convolver G
       ∧ g_reverbEnabled (f G) = g_reverbEnabled G
       ∧ g_connected (f G) = g_connected G.

(** What the script may put in the list of waiting callbacks once it
    runs: never a second first load, and a teardown only for the graph the
    id has at that time. *)
Definition enqueued_by_script (w : World) (cb : callback) : Prop :=
  match cb with
  | CbLoad => False
  | CbTeardown g id => graphOf w id = Some g
  | CbBuild _ _ | CbMix _ => True
  end.

(** An assignment to an element that changes what plays how, and nothing
    of what plays. *)
Definition playback_edit (f : Element → Element) : Prop :=
  ∀ e, e_tagName (f e) = e_tagName e
       ∧ e_src (f e) = e_src e
       ∧ e_currentSrc (f e) = e_currentSrc e
       ∧ e_paused (f e) = e_paused e
       ∧ e_currentTime (f e) = e_currentTime e
       ∧ e_duration (f e) = e_duration e
       ∧ e_tappable (f e) = e_tappable e
       ∧ e_tapped (f e) = e_tapped e.

(** The small steps every transition of the script is made of. *)
Inductive small_step : World → World → Prop :=
  | small_identify w el : small_step w (getMediaId el w).2
  | small_write_el w el f : playback_edit f → small_step w (write_el el f w)
  | small_listeners w l : small_step w (with_page (set_listeners l) w)
  | small_enqueue w cb :
      enqueued_by_script w cb → small_step w (enqueue cb w)
  | small_take_job w n cb :
      pending (page w) !! n = Some cb → is_promise_job cb = true →
      small_step w (with_page (fun p => set_pending (delete n (pending p)) p) w)
  | small_first_load w n :
      pending (page w) !! n = Some CbLoad → small_step w (run_pending n w)
  | small_teardown w n g id :
      pending (page w) !! n = Some (CbTeardown g id) →
      small_step w (run_pending n w)
  | small_ensure_loaded w : small_step w (ensure_loaded w).2
  | small_save w : small_step w (saveSettings w).2
  | small_settings w f : small_step w (modify_settings f w)
  | small_respond w r : small_step w (emit (LogResponse r) w)
  | small_prune w entry : small_step w (prune_entry w entry)
  | small_init w : small_step w (initAudioContext w).2
  | small_resume w : small_step w (resume w).2
  | small_build w id el :
      is_Some (audioContext (script w)) →
      small_step w (build_graph id el w).2
  | small_write_graph w g f : gain_edit f → small_step w (write_graph g f w).

(** What the page does by itself. *)
Inductive page_step : World → World → Prop :=
  | page_step_edit w el e : page_step w (page_edit el e w)
  | page_step_attach w doc : page_step w (page_attach doc w).

(** A small step of the script or of the page. *)
Definition world_step (w w' : World) : Prop := small_step w w' ∨ page_step w w'.

(** Zero or more steps. *)
Inductive steps_of (one : World → World → Prop) : World → World → Prop :=
  | steps_refl w : steps_of one w w
  | steps_cons w1 w2 w3 :
      one w1 w2 → steps_of one w2 w3 → steps_of one w1 w3.

Abbreviation small_steps := (steps_of small_step).
Abbreviation world_steps := (steps_of world_step).

(** The events that are the script's own: all but what the page does to
    its elements and its document. *)
Definition by_script (ev : event) : bool :=
  match ev with
  | EvPageEdit _ _ | EvPageAttach _ => false
  | _ => true
  end.

(** The world before the scan of the script start. *)
Definition start_world (h : Host) (els : gmap elref Element) (doc : list elref)
    (store : gmap string StoredValue) : World :=
  {| script := fresh_script;
     page := {| elements := els; document := doc; graphs := ∅;
                storage := store; listeners := []; pending := [];
                log := [] |};
     host := h |}.

(** ** The store along a run *)

(** What a page can do to the store: nothing outside the key of its site,
    and nothing at all when the browser refuses the writes. *)
Definition store_le (w w' : World) : Prop :=
  host w' = host w
  ∧ (∀ key, key ≠ storageKey w →
       storage (page w') !! key = storage (page w) !! key)
  ∧ (storage_writable (host w) = false → storage (page w') = storage (page w)).

Definition is_read (e : logev) : bool :=
  match e with LogGet _ _ => true | _ => false end.

Definition is_first_load (cb : callback) : bool :=
  match cb with CbLoad => true | _ => false end.

(** The reads of the store that were made. *)
Definition reads (w : World) : nat :=
  length (filter (fun e => is_read e = true) (log (page w))).

(** The reads made and those still to come: the first load if it waits,
    and the load of the handler if nothing was loaded yet. *)
Definition read_budget (w : World) : nat :=
  reads w
  + length (filter (fun cb => is_first_load cb = true) (pending (page w)))
  + (if settingsLoaded (script w) then 0 else 1).

Definition reads_le (w w' : World) : Prop :=
  read_budget w' ≤ read_budget w
  ∧ reads w ≤ reads w'
  ∧ (settingsLoaded (script w) = true → settingsLoaded (script w') = true).

(** What the steps that neither read the store nor touch the queue leave
    alone. *)
Definition reads_view (w : World) :=
  (log (page w), pending (page w), settingsLoaded (script w)).

(** ** The audio graphs along a run *)

(** The graph objects as every run keeps them: the element under a graph
    is tapped and the flag of the graph is set; no element is under two
    graphs; a graph of the registry is connected and stands under one id;
    a teardown that waits holds a graph that exists and that no other id
    has. *)
Definition graphs_wf (w : World) : Prop :=
  (∀ g G, graphs (page w) !! g = Some G →
     e_tapped (elem w (sourceNode G)) = true ∧ g_reverbEnabled G = true)
  ∧ (∀ g1 g2 G1 G2,
       graphs (page w) !! g1 = Some G1 → graphs (page w) !! g2 = Some G2 →
       sourceNode G1 = sourceNode G2 → g1 = g2)
  ∧ (∀ id g, graphOf w id = Some g →
       ∃ G, graphs (page w) !! g = Some G ∧ g_connected G = true)
  ∧ (∀ id id' g, graphOf w id = Some g → graphOf w id' = Some g → id = id')
  ∧ (∀ g id, CbTeardown g id ∈ pending (page w) →
       is_Some (graphs (page w) !! g)
       ∧ ∀ id', graphOf w id' = Some g → id' = id).

(** Graph objects stay, over the same element; a tap and a disconnection
    are not undone. *)
Definition graphs_le (w w' : World) : Prop :=
  (∀ x, e_tapped (elem w x) = true → e_tapped (elem w' x) = true)
  ∧ (∀ g G, graphs (page w) !! g = Some G →
       ∃ G', graphs (page w') !! g = Some G'
         ∧ sourceNode G' = sourceNode G
         ∧ (g_connected G = false → g_connected G' = false)).

(** What the steps that do not concern the audio graphs leave alone. *)
Definition graph_view (w : World) :=
  (graphs (page w), audioGraphRegistry (script w), elements (page w),
   pending (page w)).

(** Reverb switched on and off for id 1 of the page with one element, and
    the timer of the disable. *)
Definition switched_off_events : list event :=
  [EvCallback 0; EvMessage no_jobs (setReverbEnabled 1 true);
   EvMessage no_jobs (setReverbEnabled 1 false); EvCallback 0].

Definition switched_off : World :=
  run plain_title switched_off_events
    (boot example_host {[ 10 := song ]} [10] ∅).

(** ** When a graph can be built *)

(** The browser lets the script have a running audio context: the one it
    has, resumed if need be, or a new one with its impulse response. *)
Definition context_obtainable (w : World) : bool :=
  match audioContext (script w) with
  | Some running => true
  | Some suspended => resume_ok (host w)
  | None =>
      audio_available (host w) && render_ok (host w)
      && match context_starts (host w) with
         | running => true
         | suspended => resume_ok (host w)
         end
  end.

(** The [try] block of [createAudioGraph] will go through for [el]. *)
Definition buildable (w : World) (el : elref) : bool :=
  context_obtainable w
  && negb (e_tapped (elem w el)) && e_tappable (elem w el).

(** ** Registry and elements *)

(** The ids that a pruning loop over [entries] removes. *)
Definition pruned_ids (w : World) (entries : list (nat * elref)) : list nat :=
  (filter (fun entry => prunable w entry.2 = true) entries).*1.

(** The element [el] plays with the settings in memory. *)
Definition synced (w : World) (el : elref) : Prop :=
  e_volume (elem w el) = volume (settings w)
  ∧ e_playbackRate (elem w el) = playbackRate (settings w)
  ∧ e_preservesPitch (elem w el) = preservesPitch (settings w)
  ∧ e_mozPreservesPitch (elem w el) = preservesPitch (settings w)
  ∧ e_muted (elem w el) = muted (settings w).

(** What of an element the settings are written to. *)
Definition playback_of (w : World) (el : elref) :=
  (e_volume (elem w el), e_playbackRate (elem w el),
   e_preservesPitch (elem w el), e_mozPreservesPitch (elem w el),
   e_muted (elem w el)).

(** ** The panel *)

(** What the command [change] makes of the settings. *)
Definition settings_after (change : SettingChange) (c : SiteSettings)
    : SiteSettings :=
  match change with
  | change_volume value => set_volume (math_max 0 (math_min 1 value)) c
  | change_playbackRate value => set_playbackRate value c
  | change_preservesPitch value => set_preservesPitch value c
  | change_muted value => set_muted value c
  | change_reverb value => set_reverb (math_max 0 (math_min 1 value)) c
  | change_reverbEnabled value => set_reverbEnabled value c
  end.

(** [s.slice(0, n)] *)
Fixpoint slice_to (n : nat) (s : string) : string :=
  match n, s with
  | S n', String c rest => String c (slice_to n' rest)
  | _, _ => EmptyString
  end.

Module Popup.

(** A JavaScript number as the panel may be given it. *)
Inductive number :=
  | Finite (q : Q)
  | NaN
  | PosInfinity
  | NegInfinity.

Definition isFinite (x : number) : bool :=
  match x with Finite _ => true | _ => false end.

(** [x < 0] *)
Definition below_zero (x : number) : bool :=
  match x with
  | Finite q => negb (Qle_bool 0 q)
  | NegInfinity => true
  | NaN | PosInfinity => false
  end.

(** The integer part of a finite number, towards zero. *)
Definition trunc (q : Q) : Z :=
  if Qle_bool 0 q then Qfloor q else Qceiling q.

(** [a % b] on finite numbers, [b] not zero: the remainder has the sign of
    the dividend. *)
Definition remainder (a b : Q) : Q := (a - b * inject_Z (trunc (a / b)))%Q.

(** [s.padStart(targetLength, fill)]: the filler is repeated and cut to
    the length that is missing. *)
Definition padStart (targetLength : nat) (fill : string) (s : string) : string :=
  let missing := targetLength - String.length s in
  if nonempty fill
  then slice_to missing (String.concat "" (replicate missing fill)) +:+ s
  else s.

(** [formatTime]; an integer below 10^21 prints in plain decimal digits. *)
Definition formatTime (seconds : number) : string :=
  if negb (isFinite seconds) || below_zero seconds then "--:--"
  else
    match seconds with
    | Finite q =>
        let m := Qfloor (q / 60) in
        let s := Qfloor (remainder q 60) in
        pretty m +:+ ":" +:+ padStart 2 "0" (pretty s)
    | _ => "--:--"
    end.

Definition set_mi_volume (v : Q) (m : MediaInfo) : MediaInfo :=
  {| mi_id := mi_id m; mi_type := mi_type m; mi_src := mi_src m;
     mi_title := mi_title m; mi_paused := mi_paused m;
     mi_currentTime := mi_currentTime m; mi_duration := mi_duration m;
     mi_volume := v; mi_playbackRate := mi_playbackRate m;
     mi_preservesPitch := mi_preservesPitch m; mi_muted := mi_muted m;
     mi_reverb := mi_reverb m; mi_reverbEnabled := mi_reverbEnabled m |}.

Definition set_mi_playbackRate (v : Q) (m : MediaInfo) : MediaInfo :=
  {| mi_id := mi_id m; mi_type := mi_type m; mi_src := mi_src m;
     mi_title := mi_title m; mi_paused := mi_paused m;
     mi_currentTime := mi_currentTime m; mi_duration := mi_duration m;
     mi_volume := mi_volume m; mi_playbackRate := v;
     mi_preservesPitch := mi_preservesPitch m; mi_muted := mi_muted m;
     mi_reverb := mi_reverb m; mi_reverbEnabled := mi_reverbEnabled m |}.

Definition set_mi_preservesPitch (b : bool) (m : MediaInfo) : MediaInfo :=
  {| mi_id := mi_id m; mi_type := mi_type m; mi_src := mi_src m;
     mi_title := mi_title m; mi_paused := mi_paused m;
     mi_currentTime := mi_currentTime m; mi_duration := mi_duration m;
     mi_volume := mi_volume m; mi_playbackRate := mi_playbackRate m;
     mi_preservesPitch := b; mi_muted := mi_muted m;
     mi_reverb := mi_reverb m; mi_reverbEnabled := mi_reverbEnabled m |}.

Definition set_mi_muted (b : bool) (m : MediaInfo) : MediaInfo :=
  {| mi_id := mi_id m; mi_type := mi_type m; mi_src := mi_src m;
     mi_title := mi_title m; mi_paused := mi_paused m;
     mi_currentTime := mi_currentTime m; mi_duration := mi_duration m;
     mi_volume := mi_volume m; mi_playbackRate := mi_playbackRate m;
     mi_preservesPitch := mi_preservesPitch m; mi_muted := b;
     mi_reverb := mi_reverb m; mi_reverbEnabled := mi_reverbEnabled m |}.

Definition set_mi_reverb (v : Q) (m : MediaInfo) : MediaInfo :=
  {| mi_id := mi_id m; mi_type := mi_type m; mi_src := mi_src m;
     mi_title := mi_title m; mi_paused := mi_paused m;
     mi_currentTime := mi_currentTime m; mi_duration := mi_duration m;
     mi_volume := mi_volume m; mi_playbackRate := mi_playbackRate m;
     mi_preservesPitch := mi_preservesPitch m; mi_muted := mi_muted m;
     mi_reverb := v; mi_reverbEnabled := mi_reverbEnabled m |}.

Definition set_mi_reverbEnabled (b : bool) (m : MediaInfo) : MediaInfo :=
  {| mi_id := mi_id m; mi_type := mi_type m; mi_src := mi_src m;
     mi_title := mi_title m; mi_paused := mi_paused m;
     mi_currentTime := mi_currentTime m; mi_duration := mi_duration m;
     mi_volume := mi_volume m; mi_playbackRate := mi_playbackRate m;
     mi_preservesPitch := mi_preservesPitch m; mi_muted := mi_muted m;
     mi_reverb := mi_reverb m; mi_reverbEnabled := b |}.

(** The function [sendCommand] gives to [setMedia] once the content script
    has answered: the optimistic update.  The action, the id and the value
    of the call are those of the message sent. *)
Definition optimistic_entry (request : MessageRequest) (m : MediaInfo)
    : MediaInfo :=
  match request with
  | setVolume id value =>
      if decide (mi_id m ≠ id) then m else set_mi_volume value m
  | setPlaybackRate id value =>
      if decide (mi_id m ≠ id) then m else set_mi_playbackRate value m
  | setPreservesPitch id value =>
      if decide (mi_id m ≠ id) then m else set_mi_preservesPitch value m
  | setMuted id value =>
      if decide (mi_id m ≠ id) then m else set_mi_muted value m
  | setReverb id value =>
      if decide (mi_id m ≠ id) then m else set_mi_reverb value m
  | setReverbEnabled id value =>
      if decide (mi_id m ≠ id) then m else set_mi_reverbEnabled value m
  | ping | getMedia | otherAction _ => m
  end.

Definition optimistic_update (request : MessageRequest)
    (prev : list MediaInfo) : list MediaInfo :=
  optimistic_entry request <$> prev.

(** The fill of the slider track, in per cent. *)
Definition fill_pct (value min max : Q) : Q :=
  ((value - min) / (max - min) * 100)%Q.

Definition RATE_PRESETS : list (string * Q) :=
  [("0.5x", 1 # 2); ("0.8x", 4 # 5); ("1x", 1); ("1.2x", 6 # 5);
   ("1.5x", 3 # 2)]%Q.

(** [Math.abs(value - preset.value) < 0.01] *)
Definition preset_active (value : Q) (preset : string * Q) : bool :=
  negb (Qle_bool (1 # 100) (Qabs (value - preset.2))).

End Popup.

(** The entry [m] shows the value of [change] in the field it is for. *)
Definition shows (change : SettingChange) (m : MediaInfo) : Prop :=
  match change with
  | change_volume value => (mi_volume m == value)%Q
  | change_playbackRate value => mi_playbackRate m = value
  | change_preservesPitch value => mi_preservesPitch m = value
  | change_muted value => mi_muted m = value
  | change_reverb value => (mi_reverb m == value)%Q
  | change_reverbEnabled value => mi_reverbEnabled m = value
  end.

(** A change of one of the four playback settings, the volume within the
    range of its slider. *)
Definition playback_change (change : SettingChange) : Prop :=
  match change with
  | change_volume value => (0 <= value)%Q ∧ (value <= 1)%Q
  | change_playbackRate _ | change_preservesPitch _ | change_muted _ => True
  | change_reverb _ | change_reverbEnabled _ => False
  end.

(** ** The title of a medium *)

Module Title.

(** What [getTitle] reads of a media element. *)
Record MediaElement := {
  title : string;
  caption : option string;    (* the text of the [figcaption] of the closest
                                 [figure], when there are both *)
  ariaLabel : option string;  (* [getAttribute("aria-label")] *)
  currentSrc : string;
  src : string;
  sourceSrc : option string;  (* the [src] of the first [source] child *)
  tagName : MediaType
}.

(** [s.split("/")] *)
Fixpoint split_slash (s : string) : list string :=
  match s with
  | EmptyString => [EmptyString]
  | String c rest =>
      if decide (String c EmptyString = "/")
      then EmptyString :: split_slash rest
      else match split_slash rest with
           | first :: others => String c first :: others
           | [] => [String c EmptyString]
           end
  end.

(** [.pop()] of what [split] returns. *)
Definition last_segment (s : string) : string :=
  default EmptyString (last (split_slash s)).

(** [a || b] on strings *)
Definition or_else (a b : string) : string := if nonempty a then a else b.

Definition generic_label (el : MediaElement) : string :=
  match tagName el with video => "Video" | audio => "Audio" end.

Section GetTitle.

(** What the browser computes: [parse_url s] is the pathname and the
    hostname of [new URL(s)], or nothing when the constructor throws;
    [decodeURIComponent] gives nothing when it throws. *)
Variable parse_url : string → option (string * string).
Variable decodeURIComponent : string → option string.
Variable trim : string → string.

(** The block for an element that has an address. *)
Definition title_of_src (address : string) : string :=
  match parse_url address with
  | Some (pathname, hostname) =>
      let filename := last_segment pathname in
      if nonempty filename && negb (bool_decide (filename = "/"))
      then match decodeURIComponent filename with
           | Some name => name
           | None => slice_to 60 address
           end
      else hostname
  | None => slice_to 60 address
  end.

(** The block for the [source] child, and the label that ends the chain. *)
Definition title_of_source (el : MediaElement) : string :=
  match sourceSrc el with
  | Some address =>
      if nonempty address
      then match parse_url address with
           | Some (pathname, _) =>
               let filename := last_segment pathname in
               if nonempty filename
               then match decodeURIComponent filename with
                    | Some name => name
                    | None => generic_label el
                    end
               else generic_label el
           | None => generic_label el
           end
      else generic_label el
  | None => generic_label el
  end.

Definition title_after_label (el : MediaElement) : string :=
  let address := or_else (currentSrc el) (src el) in
  if nonempty address then title_of_src address else title_of_source el.

Definition title_after_caption (el : MediaElement) : string :=
  match ariaLabel el with
  | Some label => if nonempty label then label else title_after_label el
  | None => title_after_label el
  end.

Definition getTitle (el : MediaElement) : string :=
  if nonempty (title el) then title el
  else match caption el with
       | Some text =>
           if nonempty text then trim text else title_after_caption el
       | None => title_after_caption el
       end.

End GetTitle.

(** An attribute or a text that is absent or empty. *)
Definition blank (s : option string) : Prop :=
  match s with Some text => nonempty text = false | None => True end.

Fixpoint has_slash (s : string) : bool :=
  match s with
  | EmptyString => false
  | String c rest => bool_decide (String c EmptyString = "/") || has_slash rest
  end.

End Title.

(** ** The impulse response along a run *)

(** The impulse response as every run keeps it: before there is a context
    there is no buffer and no graph, and every graph holds the buffer of
    the script. *)
Definition buffer_wf (w : World) : Prop :=
  (audioContext (script w) = None →
     impulseResponseBuffer (script w) = None ∧ graphs (page w) = ∅)
  ∧ ∀ g G, graphs (page w) !! g = Some G →
      convolver G = impulseResponseBuffer (script w).

(** Once there is a context, it stays and the buffer is not made again. *)
Definition buffer_le (w w' : World) : Prop :=
  is_Some (audioContext (script w)) →
  is_Some (audioContext (script w'))
  ∧ impulseResponseBuffer (script w') = impulseResponseBuffer (script w).

Definition buffer_view (w : World) :=
  (audioContext (script w), impulseResponseBuffer (script w), graphs (page w)).

(** ** What the script leaves to the page *)

(** [e'] is the same medium in the same place of its playback as [e]: only
    the five playback properties and the record of the tap may differ. *)
Definition same_media (e e' : Element) : Prop :=
  e_tagName e' = e_tagName e
  ∧ e_src e' = e_src e
  ∧ e_currentSrc e' = e_currentSrc e
  ∧ e_paused e' = e_paused e
  ∧ e_currentTime e' = e_currentTime e
  ∧ e_duration e' = e_duration e
  ∧ e_tappable e' = e_tappable e.

(** From [w] to [w'] the document has the same elements attached and every
    element is the same medium. *)
Definition media_kept (w w' : World) : Prop :=
  document (page w') = document (page w)
  ∧ ∀ el, same_media (elem w el) (elem w' el).

(** * Properties *)

(** ** What the operations leave alone *)

Section Keeps.
Context {X : Type} (view : World -> X).

Lemma keeps_ret {A} (a : A) : keeps view (ret a).
Proof. intros w. reflexivity. Qed.

Lemma keeps_read {A} (f : World -> A) : keeps view (read f).
Proof. intros w. reflexivity. Qed.

Lemma keeps_update (f : World -> World) :
  keeps_fn view f -> keeps view (update f).
Proof. intros H w. apply H. Qed.

Lemma keeps_bind {A B} (m : M A) (k : A -> M B) :
  keeps view m -> (∀ a, keeps view (k a)) -> keeps view (bind m k).
Proof.
  intros Hm Hk w. unfold bind. specialize (Hm w).
  destruct (m w) as [[a|] w1]; simpl in *; [|exact Hm].
  rewrite <- Hm. apply Hk.
Qed.

Lemma keeps_try_catch {A} (m h : M A) :
  keeps view m -> keeps view h -> keeps view (try_catch m h).
Proof.
  intros Hm Hh w. unfold try_catch. specialize (Hm w).
  destruct (m w) as [[a|] w1]; simpl in *; [exact Hm|].
  rewrite <- Hm. apply Hh.
Qed.

End Keeps.

Lemma keeps_initAudioContext : keeps quiet_view initAudioContext.
Proof.
  intros w. unfold initAudioContext.
  destruct (audioContext (script w)); [reflexivity|].
  destruct (audio_available (host w)); [|reflexivity].
  unfold bind, update, createImpulseResponse, ret. simpl.
  destruct (render_ok (host w)); reflexivity.
Qed.

Lemma keeps_resume : keeps quiet_view resume.
Proof. intros w. unfold resume. destruct (resume_ok (host w)); reflexivity. Qed.

Lemma keeps_createMediaElementSource el :
  keeps quiet_view (createMediaElementSource el).
Proof.
  intros w. unfold createMediaElementSource.
  destruct (e_tapped (elem w el) || negb (e_tappable (elem w el))); reflexivity.
Qed.

Lemma keeps_createAudioGraph_try id el :
  keeps quiet_view (createAudioGraph_try id el).
Proof.
  unfold createAudioGraph_try.
  apply keeps_bind; [apply keeps_initAudioContext|]. intros ctx.
  apply keeps_bind;
    [destruct (decide (ctx = suspended)); [apply keeps_resume|apply keeps_ret]|].
  intros _. apply keeps_bind; [apply keeps_createMediaElementSource|]. intros _.
  apply keeps_bind; [apply keeps_read|]. intros buffer.
  apply keeps_bind; [intros w; reflexivity|]. intros g.
  apply keeps_bind; [intros w; reflexivity|]. intros _. apply keeps_ret.
Qed.

Lemma keeps_createAudioGraph id el : keeps quiet_view (createAudioGraph id el).
Proof.
  intros w. unfold createAudioGraph.
  destruct (negb (reverbEnabled (settings w))); [reflexivity|].
  destruct (graphOf w id); [reflexivity|].
  apply (keeps_try_catch quiet_view);
    [apply keeps_createAudioGraph_try|apply keeps_ret].
Qed.

Lemma keeps_updateReverbMix id m : keeps_fn quiet_view (updateReverbMix id m).
Proof.
  intros w. unfold updateReverbMix.
  destruct (graphOf w id); [|reflexivity].
  destruct (audioContext (script w)); reflexivity.
Qed.

Lemma keeps_toggleReverb id b : keeps quiet_view (toggleReverb id b).
Proof.
  intros w. unfold toggleReverb.
  destruct (map_get id (registry w)) as [el|]; [|reflexivity].
  destruct b.
  - revert w. apply keeps_bind; [apply keeps_createAudioGraph|].
    intros _ w. simpl. rewrite keeps_updateReverbMix. reflexivity.
  - destruct (graphOf w id); [|reflexivity].
    destruct (audioContext (script w)); reflexivity.
Qed.

(** Projections of an unchanged [quiet_view]. *)
Lemma quiet_view_inv (w w' : World) :
  quiet_view w' = quiet_view w ->
  settings w' = settings w
  ∧ settingsLoaded (script w') = settingsLoaded (script w)
  ∧ registry w' = registry w
  ∧ nextId (script w') = nextId (script w)
  ∧ host w' = host w
  ∧ document (page w') = document (page w)
  ∧ storage (page w') = storage (page w)
  ∧ listeners (page w') = listeners (page w)
  ∧ log (page w') = log (page w).
Proof. unfold quiet_view. intros H. injection H. intros. repeat split; assumption. Qed.

(** ** The settings store *)

Lemma loadSettings_settings (w : World) :
  settings (snd (loadSettings w)) =
  if storage_readable (host w)
  then loaded_settings (storage (page w) !! storageKey w)
  else DEFAULT_SETTINGS.
Proof.
  unfold loadSettings, try_catch, bind, read, storage_get, update.
  destruct (storage_readable (host w)) eqn:Hr; reflexivity.
Qed.

Lemma loaded_settings_reverbEnabled (v : option StoredValue) :
  reverbEnabled (loaded_settings v) = false.
Proof.
  destruct v as [v|]; simpl; [|reflexivity].
  destruct (truthy v && typeof_object v); reflexivity.
Qed.

Lemma saveSettings_storage (w : World) :
  storage (page (snd (saveSettings w))) =
  if storage_writable (host w)
  then <[storageKey w := SvObject (stored_of (settingsToSave (settings w)))]>
         (storage (page w))
  else storage (page w).
Proof.
  unfold saveSettings, try_catch, bind, read, storage_set, ret.
  destruct (storage_writable (host w)) eqn:Hw; reflexivity.
Qed.

(** C3.  The record [saveSettings] writes has the five fields volume,
    playbackRate, preservesPitch, muted and reverb, taken from the
    settings in memory, and no reverbEnabled field (when the store refuses
    the write nothing is stored); and whatever the store holds, also a
    record with reverbEnabled set to true, the settings in memory after
    [loadSettings] have reverbEnabled = false, in particular after a save
    from settings that had it true. *)
Theorem C3_reverbEnabled_not_persisted (w : World) :
  (storage (page (snd (saveSettings w))) =
     if storage_writable (host w)
     then <[storageKey w :=
              SvObject {| so_volume := Some (volume (settings w));
                          so_playbackRate := Some (playbackRate (settings w));
                          so_preservesPitch := Some (preservesPitch (settings w));
                          so_muted := Some (muted (settings w));
                          so_reverb := Some (reverb (settings w));
                          so_reverbEnabled := None |}]> (storage (page w))
     else storage (page w))
  ∧ reverbEnabled (settings (snd (loadSettings w))) = false
  ∧ (∀ o : StoredObject,
       reverbEnabled (loaded_settings (Some (SvObject o))) = false)
  ∧ reverbEnabled (settings (snd (loadSettings (snd (saveSettings w))))) = false.
Proof.
  split; [apply saveSettings_storage|].
  assert (H : ∀ w', reverbEnabled (settings (snd (loadSettings w'))) = false).
  { intros w'. rewrite loadSettings_settings.
    destruct (storage_readable (host w'));
      [apply loaded_settings_reverbEnabled | reflexivity]. }
  split; [apply H|]. split; [|apply H].
  intros o. apply loaded_settings_reverbEnabled.
Qed.



(** ** The audio graph *)

Lemma equal_power_unit (x : R) : (cos x * cos x + sin x * sin x = 1)%R.
Proof. pose proof (sin2_cos2 x) as H. unfold Rsqr in H. lra. Qed.

Lemma equal_power_not_linear (m x : R) :
  (0 < m)%R → (m < 1)%R → ¬ (cos x = 1 - m ∧ sin x = m)%R.
Proof.
  intros H0 H1 [Hc Hs]. pose proof (equal_power_unit x) as H.
  rewrite Hc, Hs in H. nra.
Qed.

Lemma quarter_turn (m : Q) :
  (0 <= m)%Q → (m <= 1)%Q →
  (0 <= Q2R m * PI / 2 <= PI / 2)%R.
Proof.
  intros H0 H1. apply Qle_Rle in H0, H1.
  rewrite RMicromega.Q2R_0 in H0. rewrite RMicromega.Q2R_1 in H1.
  pose proof PI_RGT_0. split; nra.
Qed.

(** The mix set on a graph that is there, with its context. *)
Lemma equal_power_of_graph (w : World) (id : nat) (m : Q) :
  is_Some (graph_object w id) →
  is_Some (audioContext (script w)) →
  (0 <= m)%Q → (m <= 1)%Q →
  let dry := cos (Q2R m * PI / 2) in
  let wet := sin (Q2R m * PI / 2) in
  ∃ G', graph_object (updateReverbMix id m w) id = Some G'
    ∧ gain_target (dryGain G') = Some (dry, (2 / 100)%R)
    ∧ gain_target (wetGain G') = Some (wet, (2 / 100)%R)
    ∧ reverbMix G' = m
    ∧ (0 <= dry)%R ∧ (0 <= wet)%R
    ∧ (dry * dry + wet * wet = 1)%R
    ∧ ((0 < m)%Q → (m < 1)%Q → ¬ (dry = 1 - Q2R m ∧ wet = Q2R m)%R).
Proof.
  intros [G HG] [ctx Hctx] H0 H1 dry wet.
  unfold graph_object in HG.
  destruct (graphOf w id) as [g|] eqn:Hg; [|discriminate]. simpl in HG.
  unfold updateReverbMix, graph_object. rewrite Hg, Hctx.
  eexists. split.
  - unfold graphOf, write_graph. simpl. fold (graphOf w id). rewrite Hg. simpl.
    rewrite lookup_alter_eq, HG. reflexivity.
  - pose proof (quarter_turn m H0 H1) as [Hlo Hhi]. pose proof PI_RGT_0.
    simpl. repeat split.
    + apply cos_ge_0; lra.
    + apply sin_ge_0; lra.
    + apply equal_power_unit.
    + intros Hpos Hlt. apply equal_power_not_linear.
      * apply Qlt_Rlt in Hpos. rewrite RMicromega.Q2R_0 in Hpos. exact Hpos.
      * apply Qlt_Rlt in Hlt. rewrite RMicromega.Q2R_1 in Hlt. exact Hlt.
Qed.

Ltac tap_case els el :=
  unfold elem; simpl;
  destruct (e_tapped (default blank_element (els !! el))) eqn:Ht; simpl; [done|];
  destruct (e_tappable (default blank_element (els !! el))) eqn:Hp; simpl; [|done];
  repeat split; eauto;
  try (apply not_elem_of_dom, is_fresh);
  try (eexists; repeat split; eauto; fail).

(** The two ways out of the [try] block: an exception before anything was
    built, or a graph on a fresh reference over a newly tapped element. *)
Lemma createAudioGraph_try_cases (id : nat) (el : elref) (w : World) :
  match createAudioGraph_try id el w with
  | (Throw, w') =>
      elements (page w') = elements (page w)
      ∧ audioGraphRegistry (script w') = audioGraphRegistry (script w)
      ∧ graphs (page w') = graphs (page w)
      ∧ (is_Some (audioContext (script w)) → is_Some (audioContext (script w')))
  | (Ok None, _) => False
  | (Ok (Some g), w') =>
      e_tapped (elem w el) = false ∧ e_tappable (elem w el) = true
      ∧ graphs (page w) !! g = None
      ∧ elements (page w') = <[el := set_e_tapped true (elem w el)]> (elements (page w))
      ∧ audioGraphRegistry (script w') = <[id := g]> (audioGraphRegistry (script w))
      ∧ (∃ G, graphs (page w') = <[g := G]> (graphs (page w))
              ∧ sourceNode G = el ∧ g_connected G = true
              ∧ g_reverbEnabled G = true)
      ∧ is_Some (audioContext (script w'))
  end.
Proof.
  unfold createAudioGraph_try, initAudioContext, createImpulseResponse, resume,
    createMediaElementSource, new_graph.
  unfold bind, ret, update, read.
  destruct w as [[cs ld ctx irb agr mr nid] [els doc gs st ls pd lg]
                 [hn sr sw aa ro cst rok]].
  simpl.
  destruct ctx as [c|]; simpl.
  - destruct (decide (c = suspended)); simpl.
    + destruct rok; simpl; [|done]. tap_case els el.
    + tap_case els el.
  - destruct aa; simpl; [|done].
    destruct ro; simpl; [|done].
    destruct (decide (cst = suspended)); simpl.
    + destruct rok; simpl; [|done]. tap_case els el.
    + tap_case els el.
Qed.

Lemma elem_write_el (el x : elref) (f : Element → Element) (w : World) :
  elem (write_el el f w) x = if decide (x = el) then f (elem w el) else elem w x.
Proof.
  unfold elem, write_el. simpl. rewrite lookup_insert.
  repeat case_decide; simplify_eq; done.
Qed.

Lemma e_tapped_write_el (el x : elref) (f : Element → Element) (w : World) :
  (∀ e, e_tapped (f e) = e_tapped e) →
  e_tapped (elem (write_el el f w) x) = e_tapped (elem w x).
Proof.
  intros Hf. rewrite elem_write_el. case_decide; [subst; apply Hf|done].
Qed.

(** [applySettingsToElement] writes the five playback properties and
    touches no tap. *)
Lemma applySettingsToElement_tapped (el x : elref) (id : nat) (w : World) :
  e_tapped (elem (applySettingsToElement el id w) x) = e_tapped (elem w x).
Proof.
  unfold applySettingsToElement. cbv zeta.
  match goal with
  | |- context [if reverbEnabled (settings w) then ?a else ?w1] =>
      assert (Hw1 : e_tapped (elem w1 x) = e_tapped (elem w x));
      [|destruct (reverbEnabled (settings w)); [|exact Hw1];
        destruct (graphOf w1 id); exact Hw1]
  end.
  by rewrite !e_tapped_write_el.
Qed.



(** ** Exceptions stay inside *)

Lemma never_throws_ret {A} (a : A) : never_throws (ret a).
Proof. intros w. exists a. reflexivity. Qed.

Lemma never_throws_update (f : World -> World) : never_throws (update f).
Proof. intros w. exists tt. reflexivity. Qed.

Lemma never_throws_bind {A B} (m : M A) (k : A -> M B) :
  never_throws m -> (∀ a, never_throws (k a)) -> never_throws (bind m k).
Proof.
  intros Hm Hk w. unfold bind. destruct (Hm w) as [a Ha].
  destruct (m w) as [[a'|] w1]; simpl in *; [|discriminate]. apply Hk.
Qed.

Lemma never_throws_try_catch {A} (m h : M A) :
  never_throws h -> never_throws (try_catch m h).
Proof.
  intros Hh w. unfold try_catch.
  destruct (m w) as [[a|] w1]; simpl; [eauto|apply Hh].
Qed.

Lemma never_throws_loadSettings : never_throws loadSettings.
Proof.
  apply never_throws_try_catch.
  apply never_throws_bind; [apply never_throws_update|].
  intros _. apply never_throws_update.
Qed.

Lemma never_throws_saveSettings : never_throws saveSettings.
Proof. apply never_throws_try_catch, never_throws_ret. Qed.

Lemma never_throws_createAudioGraph id el : never_throws (createAudioGraph id el).
Proof.
  intros w. unfold createAudioGraph.
  destruct (negb (reverbEnabled (settings w))); [by eexists|].
  destruct (graphOf w id); [by eexists|].
  apply never_throws_try_catch, never_throws_ret.
Qed.

Lemma never_throws_toggleReverb id b : never_throws (toggleReverb id b).
Proof.
  intros w. unfold toggleReverb.
  destruct (map_get id (registry w)) as [el|]; [|by eexists].
  destruct b.
  - revert w. apply never_throws_bind; [apply never_throws_createAudioGraph|].
    intros _. apply never_throws_update.
  - destruct (graphOf w id); [|by eexists].
    destruct (audioContext (script w)); by eexists.
Qed.

Lemma never_throws_ensure_loaded : never_throws ensure_loaded.
Proof.
  intros w. unfold ensure_loaded.
  destruct (settingsLoaded (script w)); [by eexists|].
  apply never_throws_loadSettings.
Qed.

Lemma never_throws_change_body id el change :
  never_throws (change_body id el change).
Proof.
  destruct change; simpl;
    repeat (apply never_throws_bind; [apply never_throws_update|intros _]);
    try apply never_throws_update.
  intros w. apply never_throws_toggleReverb.
Qed.

Lemma never_throws_applyChange id change : never_throws (applyChange id change).
Proof.
  intros w. unfold applyChange.
  destruct (map_get id (registry w)) as [el|]; [|by eexists].
  revert w. apply never_throws_bind; [apply never_throws_change_body|].
  intros _. apply never_throws_bind; [apply never_throws_saveSettings|].
  intros _. apply never_throws_ret.
Qed.

(** No exception leaves the handler, whatever the request. *)
Lemma never_throws_handleAsync (getTitle : Element -> string)
    (sched : nat -> list nat) (request : MessageRequest) :
  never_throws (handleAsync getTitle sched request).
Proof.
  unfold handleAsync.
  apply never_throws_bind; [apply never_throws_ensure_loaded|]. intros _.
  destruct request;
    try (apply never_throws_bind;
         [apply never_throws_applyChange|intros _; apply never_throws_ret]);
    try apply never_throws_ret.
  apply never_throws_bind; [|intros media; apply never_throws_ret].
  intros w. unfold lift. destruct (getAllMedia getTitle sched w). by eexists.
Qed.

(** ** Commands *)

Lemma loadSettings_run (w : World) :
  loadSettings w =
  (Ok tt,
   with_script (set_settingsLoaded true)
     (assign_settings
        (if storage_readable (host w)
         then loaded_settings (storage (page w) !! storageKey w)
         else DEFAULT_SETTINGS)
        (emit (LogGet (storageKey w) (storage_readable (host w))) w))).
Proof.
  unfold loadSettings, try_catch, bind, read, storage_get, update.
  destruct (storage_readable (host w)) eqn:Hr; reflexivity.
Qed.

Lemma saveSettings_run (w : World) :
  saveSettings w =
  (Ok tt,
   emit (LogSet (storageKey w) (settingsToSave (settings w))
           (storage_writable (host w)))
     (if storage_writable (host w)
      then with_page (fun p =>
             set_storage
               (<[storageKey w := SvObject (stored_of (settingsToSave (settings w)))]>
                  (storage p)) p) w
      else w)).
Proof.
  unfold saveSettings, try_catch, bind, read, storage_set, ret.
  destruct (storage_writable (host w)) eqn:Hw; reflexivity.
Qed.

Lemma ensure_loaded_run (w : World) :
  ∃ w0, ensure_loaded w = (Ok tt, w0)
    ∧ registry w0 = registry w
    ∧ nextId (script w0) = nextId (script w)
    ∧ host w0 = host w
    ∧ storage (page w0) = storage (page w)
    ∧ settingsLoaded (script w0) = true
    ∧ (settingsLoaded (script w) = true → w0 = w)
    ∧ (∃ gets, log (page w0) = log (page w) ++ gets
               ∧ Forall (fun e => is_write e = false) gets).
Proof.
  unfold ensure_loaded.
  destruct (settingsLoaded (script w)) eqn:Hl.
  - exists w. repeat split; try done. exists []. rewrite app_nil_r. by split.
  - rewrite loadSettings_run. eexists. split; [reflexivity|].
    repeat split; try done. eexists. split; [reflexivity|].
    repeat constructor.
Qed.

Lemma new_events_app (w w' : World) (evs : list logev) :
  log (page w') = log (page w) ++ evs → new_events w w' = evs.
Proof. intros H. unfold new_events. rewrite H. apply drop_app_length. Qed.

(** C7.  A mutating command whose id is not in the media registry is
    answered {ok: true} and no exception leaves the handler.  Nothing is
    done for it: [applyChange] returns at once, and the handler leaves the
    world as its first step left it, that step being the load of the
    settings when they had not been loaded yet, and nothing otherwise.
    The store is not written. *)
Theorem C7_unknown_id_is_noop (getTitle : Element -> string)
    (sched : nat -> list nat) (request : MessageRequest) (id : nat) (w : World) :
  command_id request = Some id →
  map_get id (registry w) = None →
  let w0 := snd (ensure_loaded w) in
  handleAsync getTitle sched request w = (Ok RespOk, w0)
  ∧ onMessage getTitle sched request w = emit (LogResponse RespOk) w0
  ∧ (∀ change, applyChange id change w0 = (Ok false, w0))
  ∧ (settingsLoaded (script w) = true → w0 = w)
  ∧ storage (page w0) = storage (page w)
  ∧ Forall (fun e => is_write e = false) (new_events w w0).
Proof.
  intros Hid Hnone w0. subst w0.
  destruct (ensure_loaded_run w)
    as (w0 & Hrun & Hreg & _ & _ & Hst & _ & Hsame & gets & Hlog & Hgets).
  rewrite Hrun. simpl.
  assert (Happly : ∀ change, applyChange id change w0 = (Ok false, w0)).
  { intros change. unfold applyChange. rewrite Hreg, Hnone. reflexivity. }
  assert (Hh : handleAsync getTitle sched request w = (Ok RespOk, w0)).
  { unfold handleAsync, bind. rewrite Hrun.
    destruct request; simpl in Hid; try discriminate;
      injection Hid as ->; rewrite Happly; reflexivity. }
  split; [exact Hh|]. split; [unfold onMessage; rewrite Hh; reflexivity|].
  split; [exact Happly|]. split; [exact Hsame|]. split; [exact Hst|].
  rewrite (new_events_app _ _ _ Hlog). exact Hgets.
Qed.

Lemma C7_unknown_id_is_noop_witness :
  handleAsync plain_title no_jobs (setVolume 5 (1 # 2)%Q) tracked_world
  = (Ok RespOk, tracked_world).
Proof.
  assert (Hnone : map_get 5 (registry tracked_world) = None)
    by (vm_compute; reflexivity).
  assert (Hloaded : settingsLoaded (script tracked_world) = true)
    by (vm_compute; reflexivity).
  destruct (C7_unknown_id_is_noop plain_title no_jobs
              (setVolume 5 (1 # 2)%Q) 5 tracked_world eq_refl Hnone)
    as (Hrun & _ & _ & Hsame & _).
  rewrite Hrun, (Hsame Hloaded). reflexivity.
Defined.

Lemma quiet_to_command (w w' : World) :
  quiet_view w' = quiet_view w → command_view w' = command_view w.
Proof.
  intros H. apply quiet_view_inv in H.
  destruct H as (_ & _ & Hr & Hn & Hh & _ & _ & _ & Hl).
  unfold command_view. rewrite Hr, Hn, Hh, Hl. reflexivity.
Qed.

Lemma keeps_change_body id el change :
  keeps command_view (change_body id el change).
Proof.
  destruct change; simpl;
    repeat (apply keeps_bind; [intros w; reflexivity|intros _]);
    try (intros w; reflexivity).
  - intros w. unfold update. simpl.
    destruct (reverbEnabled (settings w)); [|reflexivity].
    apply quiet_to_command, keeps_updateReverbMix.
  - intros w. apply quiet_to_command, keeps_toggleReverb.
Qed.

Lemma storageKey_host (w w' : World) : host w' = host w → storageKey w' = storageKey w.
Proof. unfold storageKey, getCurrentDomain. intros ->. reflexivity. Qed.

(** A change to a registered id: the switch, then the write, awaited. *)
Lemma applyChange_tracked (id : nat) (el : elref) (change : SettingChange)
    (w : World) :
  map_get id (registry w) = Some el →
  ∃ w', applyChange id change w = (Ok true, w')
    ∧ settings w' = settings (snd (change_body id el change w))
    ∧ log (page w') =
        log (page w) ++ [LogSet (storageKey w) (settingsToSave (settings w'))
                           (storage_writable (host w))].
Proof.
  intros Hel. unfold applyChange. rewrite Hel. unfold bind at 1.
  destruct (never_throws_change_body id el change w) as [[] Hok].
  pose proof (keeps_change_body id el change w) as Hkeep.
  destruct (change_body id el change w) as [r w1]. simpl in *. subst r.
  unfold command_view in Hkeep. injection Hkeep as Hlog Hhost _ _.
  unfold bind. rewrite saveSettings_run. unfold ret.
  eexists. split; [reflexivity|].
  rewrite (storageKey_host w w1 Hhost), Hhost.
  destruct (storage_writable (host w)); simpl; rewrite Hlog; split; reflexivity.
Qed.

Lemma no_response_before_write (k : string) (v : PersistedSettings) (ok : bool)
    (r : Response) :
  ¬ responds_before_write_settles [LogSet k v ok; LogResponse r].
Proof.
  intros (pre & r' & post & Heq & Hpre).
  destruct pre as [|e pre]; simpl in Heq; [discriminate|].
  injection Heq as <- _. inversion Hpre. discriminate.
Qed.




(** ** The media registry *)

Lemma StronglySorted_sublist {A} (R : relation A) (l1 l2 : list A) :
  l1 `sublist_of` l2 → StronglySorted R l2 → StronglySorted R l1.
Proof.
  induction 1 as [|x l1 l2 Hsub IH|x l1 l2 Hsub IH]; intros Hs.
  - constructor.
  - apply StronglySorted_inv in Hs as [Hs Hall]. constructor; [auto|].
    rewrite Forall_forall in *. intros y Hy. apply Hall.
    eapply elem_of_sublist; eauto.
  - apply StronglySorted_inv in Hs as [Hs _]. auto.
Qed.

Lemma Forall_sublist_of {A} (P : A → Prop) (l1 l2 : list A) :
  l1 `sublist_of` l2 → Forall P l2 → Forall P l1.
Proof.
  intros Hsub. rewrite !Forall_forall. intros H x Hx.
  apply H. eapply elem_of_sublist; eauto.
Qed.

Lemma map_delete_sublist {V} (k : nat) (m : list (nat * V)) :
  map_delete k m `sublist_of` m.
Proof.
  induction m as [|[k' v] m IH]; simpl; [constructor|].
  destruct (decide (k' = k)); [by apply sublist_cons|by apply sublist_skip].
Qed.

Lemma map_set_fresh {V} (k : nat) (v : V) (m : list (nat * V)) :
  k ∉ m.*1 → map_set k v m = m ++ [(k, v)].
Proof.
  induction m as [|[k' v'] m IH]; simpl; [done|].
  intros Hk. apply not_elem_of_cons in Hk as [Hne Hk].
  destruct (decide (k' = k)); [congruence|]. by rewrite IH.
Qed.

Lemma find_id_elem_of (el : elref) (reg : list (nat * elref)) (id : nat) :
  find_id el reg = Some id → (id, el) ∈ reg.
Proof.
  induction reg as [|[k e] reg IH]; simpl; [done|].
  destruct (decide (e = el)) as [->|].
  - intros [= ->]. left.
  - intros H. right. auto.
Qed.

Lemma find_id_None (el : elref) (reg : list (nat * elref)) :
  find_id el reg = None → el ∉ reg.*2.
Proof.
  induction reg as [|[k e] reg IH]; simpl; [intros _; apply not_elem_of_nil|].
  destruct (decide (e = el)); [done|].
  intros H. apply not_elem_of_cons. split; [congruence|auto].
Qed.

Lemma find_id_registered (el : elref) (reg : list (nat * elref)) (id : nat) :
  NoDup reg.*2 → (id, el) ∈ reg → find_id el reg = Some id.
Proof.
  induction reg as [|[k e] reg IH]; simpl; intros Hnd Hin.
  - by apply elem_of_nil in Hin.
  - apply NoDup_cons in Hnd as [Hnotin Hnd].
    destruct (decide (e = el)) as [->|Hne].
    + apply elem_of_cons in Hin as [[= -> ]|Hin]; [done|].
      exfalso. apply Hnotin. apply list_elem_of_fmap. by exists (id, el).
    + apply elem_of_cons in Hin as [[= ]|Hin]; [congruence|auto].
Qed.

Lemma sorted_ids_functional (reg : list (nat * elref)) (id : nat) (e1 e2 : elref) :
  StronglySorted lt reg.*1 → (id, e1) ∈ reg → (id, e2) ∈ reg → e1 = e2.
Proof.
  induction reg as [|[k e] reg IH]; simpl; intros Hs H1 H2.
  - by apply elem_of_nil in H1.
  - apply StronglySorted_inv in Hs as [Hs Hall].
    rewrite Forall_forall in Hall.
    assert (Hfresh : ∀ x, (k, x) ∈ reg → False).
    { intros x Hx. assert (k < k); [|lia].
      apply Hall. apply list_elem_of_fmap. by exists (k, x). }
    apply elem_of_cons in H1 as [[= -> ->]|H1];
      apply elem_of_cons in H2 as [[= ]|H2]; subst; eauto; try done.
    + exfalso. eauto.
    + exfalso. eauto.
Qed.

Lemma extends_refl (w : World) : extends w w.
Proof. split; [lia|auto]. Qed.

Lemma extends_trans (w1 w2 w3 : World) :
  extends w1 w2 → extends w2 w3 → extends w1 w3.
Proof.
  intros [Hn1 H1] [Hn2 H2]. split; [lia|].
  intros id el Hin Hlt. apply H1; [|done]. apply H2; [done|lia].
Qed.

Lemma registry_step_refl (w : World) : registry_step w w.
Proof. intros Hwf. split; [done|apply extends_refl]. Qed.

Lemma registry_step_trans (w1 w2 w3 : World) :
  registry_step w1 w2 → registry_step w2 w3 → registry_step w1 w3.
Proof.
  intros H12 H23 Hwf. destruct (H12 Hwf) as [Hwf2 He12].
  destruct (H23 Hwf2) as [Hwf3 He23]. split; [done|].
  eapply extends_trans; eauto.
Qed.

Lemma registry_step_same_view (w w' : World) :
  registry_view w' = registry_view w → registry_step w w'.
Proof.
  unfold registry_view. intros [= Hr Hn] (Hs & Hb & Hnd).
  unfold wf_registry, extends, registry_ids in *. rewrite Hr, Hn.
  repeat split; auto.
Qed.

Lemma getMediaId_step (el : elref) (w : World) :
  registry_step w (snd (getMediaId el w)).
Proof.
  unfold getMediaId.
  destruct (find_id el (registry w)) as [id|] eqn:Hfind; simpl;
    [apply registry_step_refl|].
  intros (Hs & Hb & Hnd). unfold registry_ids in *.
  assert (Hfresh : nextId (script w) ∉ (registry w).*1).
  { intros Hin. rewrite Forall_forall in Hb. specialize (Hb _ Hin). lia. }
  unfold wf_registry, extends, registry_ids, registry. simpl.
  fold (registry w). rewrite (map_set_fresh _ _ _ Hfresh), !fmap_app. simpl.
  split; [split; [|split]|split].
  - apply StronglySorted_app_2; [|done|repeat constructor].
    intros x1 x2 Hx1 Hx2. apply list_elem_of_singleton in Hx2 as ->.
    rewrite Forall_forall in Hb. auto.
  - apply Forall_app. split; [|repeat constructor].
    eapply Forall_impl; [exact Hb|]. simpl. lia.
  - apply NoDup_app. split; [done|]. split; [|apply NoDup_singleton].
    intros x Hx Hx'. apply list_elem_of_singleton in Hx' as ->.
    by apply find_id_None in Hfind.
  - lia.
  - intros id e Hin Hlt. apply elem_of_app in Hin as [Hin|Hin]; [done|].
    apply list_elem_of_singleton in Hin as [= -> ->]. lia.
Qed.

Lemma prune_entry_keeps (w : World) (entry : nat * elref) :
  prune_view (prune_entry w entry) = prune_view w
  ∧ registry (prune_entry w entry) `sublist_of` registry w.
Proof.
  destruct entry as [id el]. unfold prune_entry.
  destruct (prunable w el); [|by split].
  split; [reflexivity|]. apply map_delete_sublist.
Qed.

Lemma prune_entries_keep (entries : list (nat * elref)) (w : World) :
  prune_view (fold_left prune_entry entries w) = prune_view w
  ∧ registry (fold_left prune_entry entries w) `sublist_of` registry w.
Proof.
  revert w.
  induction entries as [|entry entries IH]; intros w; simpl; [by split|].
  destruct (IH (prune_entry w entry)) as [Hv Hs].
  destruct (prune_entry_keeps w entry) as [Hv' Hs'].
  split; [congruence|]. by etrans.
Qed.

Lemma pruneRegistry_keeps (w : World) :
  prune_view (pruneRegistry w) = prune_view w
  ∧ registry (pruneRegistry w) `sublist_of` registry w.
Proof. apply prune_entries_keep. Qed.

Lemma pruneRegistry_step (w : World) : registry_step w (pruneRegistry w).
Proof.
  destruct (pruneRegistry_keeps w) as [Hv Hsub].
  unfold prune_view in Hv. injection Hv as _ _ Hn _ _.
  intros (Hs & Hb & Hnd). unfold wf_registry, extends, registry_ids in *.
  rewrite Hn. split; [split; [|split]|split].
  - eapply StronglySorted_sublist; [|exact Hs]. by apply fmap_sublist.
  - eapply Forall_sublist_of; [|exact Hb]. by apply fmap_sublist.
  - eapply sublist_NoDup; [exact Hnd|]. by apply fmap_sublist.
  - lia.
  - intros id el Hin _. eapply elem_of_sublist; eauto.
Qed.

Lemma keeps_applySettingsToElement el id :
  keeps_fn quiet_view (applySettingsToElement el id).
Proof.
  intros w. unfold applySettingsToElement.
  destruct (reverbEnabled (settings w)); [|reflexivity].
  match goal with |- context [graphOf ?x id] => destruct (graphOf x id) end;
    reflexivity.
Qed.

Lemma quiet_to_registry (w w' : World) :
  quiet_view w' = quiet_view w → registry_view w' = registry_view w.
Proof.
  intros H. apply quiet_view_inv in H.
  destruct H as (_ & _ & Hr & Hn & _). unfold registry_view. by rewrite Hr, Hn.
Qed.

Lemma run_callback_quiet (t : callback) :
  t ≠ CbLoad → keeps_fn quiet_view (run_callback t).
Proof.
  intros Ht w. destruct t as [id el|id|g id|]; simpl; [| | |done].
  - rewrite keeps_updateReverbMix.
    apply (keeps_try_catch quiet_view);
      [apply keeps_createAudioGraph_try|apply keeps_ret].
  - apply keeps_updateReverbMix.
  - reflexivity.
Qed.

Lemma run_callback_registry (t : callback) :
  keeps_fn registry_view (run_callback t).
Proof.
  intros w. destruct t as [id el|id|g id|].
  - by apply quiet_to_registry, run_callback_quiet.
  - by apply quiet_to_registry, run_callback_quiet.
  - by apply quiet_to_registry, run_callback_quiet.
  - simpl. rewrite loadSettings_run. reflexivity.
Qed.

Lemma run_pending_registry (n : nat) : keeps_fn registry_view (run_pending n).
Proof.
  intros w. unfold run_pending.
  destruct (pending (page w) !! n); [|done].
  rewrite run_callback_registry. reflexivity.
Qed.

Lemma run_job_quiet (n : nat) : keeps_fn quiet_view (run_job n).
Proof.
  intros w. unfold run_job, run_pending.
  destruct (pending (page w) !! n) as [t|]; [|done].
  destruct (is_promise_job t) eqn:Hjob; [|done].
  rewrite run_callback_quiet; [reflexivity|]. by intros ->.
Qed.

Lemma run_jobs_quiet (ns : list nat) : keeps_fn quiet_view (run_jobs ns).
Proof.
  intros w. unfold run_jobs. revert w.
  induction ns as [|n ns IH]; intros w; simpl; [done|].
  rewrite IH. apply run_job_quiet.
Qed.

(** What giving out an id leaves alone. *)
Lemma getMediaId_settings (el : elref) (w : World) :
  settings (snd (getMediaId el w)) = settings w
  ∧ page (snd (getMediaId el w)) = page w
  ∧ host (snd (getMediaId el w)) = host w.
Proof.
  unfold getMediaId. destruct (find_id el (registry w)); done.
Qed.

Lemma identify_and_apply_step (w : World) (el : elref) :
  registry_step w (identify_and_apply w el).
Proof.
  unfold identify_and_apply.
  pose proof (getMediaId_step el w) as Hstep.
  destruct (getMediaId el w) as [id w1]. simpl in Hstep.
  eapply registry_step_trans; [exact Hstep|].
  apply registry_step_same_view, quiet_to_registry, keeps_applySettingsToElement.
Qed.

Lemma identify_and_apply_settings (w : World) (el : elref) :
  settings (identify_and_apply w el) = settings w.
Proof.
  unfold identify_and_apply.
  pose proof (getMediaId_settings el w) as (Hs & _).
  destruct (getMediaId el w) as [id w1]. simpl in Hs.
  pose proof (keeps_applySettingsToElement el id w1) as H.
  apply quiet_view_inv in H as (-> & _). exact Hs.
Qed.

Lemma fold_registry_step {A} (f : World → A → World) (l : list A) (w : World) :
  (∀ w a, registry_step w (f w a)) → registry_step w (fold_left f l w).
Proof.
  intros Hf. revert w.
  induction l as [|a l IH]; intros w; simpl; [apply registry_step_refl|].
  eapply registry_step_trans; [apply Hf|apply IH].
Qed.

Lemma fold_settings {A} (f : World → A → World) (l : list A) (w : World) :
  (∀ w a, settings (f w a) = settings w) → settings (fold_left f l w) = settings w.
Proof.
  intros Hf. revert w.
  induction l as [|a l IH]; intros w; simpl; [done|]. by rewrite IH.
Qed.

Lemma getMediaId_prefix (el : elref) (w : World) :
  wf_registry w → registry w `prefix_of` registry (snd (getMediaId el w)).
Proof.
  intros (_ & Hb & _). unfold getMediaId.
  destruct (find_id el (registry w)); simpl; [done|].
  unfold registry at 2. simpl. fold (registry w).
  rewrite map_set_fresh; [by apply prefix_app_r|].
  intros Hin. unfold registry_ids in Hb. rewrite Forall_forall in Hb.
  specialize (Hb _ Hin). lia.
Qed.

Lemma identify_and_apply_prefix (w : World) (el : elref) :
  wf_registry w → registry w `prefix_of` registry (identify_and_apply w el).
Proof.
  intros Hwf. unfold identify_and_apply.
  pose proof (getMediaId_prefix el w Hwf) as Hp.
  destruct (getMediaId el w) as [id w1]. simpl in Hp.
  pose proof (keeps_applySettingsToElement el id w1) as H.
  apply quiet_view_inv in H as (_ & _ & -> & _). exact Hp.
Qed.

Lemma identify_all_prefix (els : list elref) (w : World) :
  wf_registry w →
  registry w `prefix_of` registry (fold_left identify_and_apply els w).
Proof.
  revert w. induction els as [|el els IH]; intros w Hwf; simpl; [done|].
  etrans; [apply identify_and_apply_prefix, Hwf|].
  apply IH. by apply identify_and_apply_step.
Qed.

Section ContentScriptFacts.
Variable getTitle : Element -> string.

Lemma snapshot_spec (sched : nat -> list nat) (k : nat)
    (entries : list (nat * elref)) (w : World) :
  mi_id <$> (snapshot getTitle sched k entries w).1 = entries.*1
  ∧ Forall (reports (settings w)) (snapshot getTitle sched k entries w).1
  ∧ quiet_view (snapshot getTitle sched k entries w).2 = quiet_view w.
Proof.
  revert k w. induction entries as [|[id el] entries IH]; intros k w; simpl.
  - repeat split. constructor.
  - specialize (IH (S k) (run_jobs (sched k) w)).
    destruct (snapshot getTitle sched (S k) entries (run_jobs (sched k) w))
      as [infos w'] eqn:Hsnap.
    simpl in *. destruct IH as (Hids & Hrep & Hq).
    pose proof (run_jobs_quiet (sched k) w) as Hjobs.
    split; [f_equal; exact Hids|]. split; [|congruence].
    constructor; [by repeat split|].
    apply quiet_view_inv in Hjobs as (<- & _). exact Hrep.
Qed.

(** The world [getAllMedia] takes its snapshot of. *)
Lemma getAllMedia_spec (sched : nat -> list nat) (w : World) :
  let w2 := fold_left identify_and_apply
              (discoverMediaElements (pruneRegistry w)) (pruneRegistry w) in
  mi_id <$> (getAllMedia getTitle sched w).1 = registry_ids w2
  ∧ Forall (reports (settings w)) (getAllMedia getTitle sched w).1
  ∧ registry_view (getAllMedia getTitle sched w).2 = registry_view w2
  ∧ settings (getAllMedia getTitle sched w).2 = settings w
  ∧ registry_step w w2.
Proof.
  intros w2. unfold getAllMedia. fold w2.
  destruct (snapshot_spec sched 0 (registry w2) w2) as (Hids & Hrep & Hq).
  assert (Hset : settings w2 = settings w).
  { unfold w2. rewrite fold_settings by apply identify_and_apply_settings.
    destruct (pruneRegistry_keeps w) as [Hv _]. by injection Hv. }
  split; [exact Hids|]. split; [by rewrite <- Hset|].
  split; [by apply quiet_to_registry|].
  split; [apply quiet_view_inv in Hq as (-> & _); exact Hset|].
  eapply registry_step_trans; [apply pruneRegistry_step|].
  apply fold_registry_step, identify_and_apply_step.
Qed.

Lemma applyChange_registry (id : nat) (change : SettingChange) :
  keeps registry_view (applyChange id change).
Proof.
  intros w. unfold applyChange.
  destruct (map_get id (registry w)) as [el|]; [|done].
  revert w. apply keeps_bind.
  - intros w. pose proof (keeps_change_body id el change w) as H.
    unfold command_view in H. injection H as _ _ Hr Hn.
    unfold registry_view. by rewrite Hr, Hn.
  - intros _. apply keeps_bind; [|intros _; apply keeps_ret].
    intros w. rewrite saveSettings_run.
    destruct (storage_writable (host w)); reflexivity.
Qed.

Lemma handleAsync_step (sched : nat -> list nat) (request : MessageRequest)
    (w : World) :
  registry_step w (snd (handleAsync getTitle sched request w)).
Proof.
  unfold handleAsync, bind.
  destruct (ensure_loaded_run w) as (w0 & Hrun & Hreg & Hn & _).
  rewrite Hrun.
  eapply (registry_step_trans _ w0).
  { apply registry_step_same_view. unfold registry_view. by rewrite Hreg, Hn. }
  assert (Hset : ∀ id change,
    registry_step w0 (snd (bind (applyChange id change) (fun _ => ret RespOk) w0))).
  { intros id change. apply registry_step_same_view.
    apply (keeps_bind registry_view);
      [apply applyChange_registry|intros _; apply keeps_ret]. }
  destruct request; try apply Hset; try apply registry_step_refl.
  unfold lift, ret.
  destruct (getAllMedia_spec sched w0) as (_ & _ & Hv & _ & Hstep).
  destruct (getAllMedia getTitle sched w0) as [media w']. simpl in *.
  eapply registry_step_trans; [exact Hstep|].
  by apply registry_step_same_view.
Qed.

Lemma processMedia_step (w : World) (el : elref) :
  registry_step w (processMedia w el).
Proof.
  unfold processMedia.
  pose proof (getMediaId_step el w) as Hstep.
  destruct (getMediaId el w) as [id w1]. simpl in Hstep.
  eapply registry_step_trans; [exact Hstep|].
  apply registry_step_same_view.
  change (registry_view (applySettingsToElement el id w1) = registry_view w1).
  apply quiet_to_registry, keeps_applySettingsToElement.
Qed.

Lemma onPlay_step (el : elref) (w : World) : registry_step w (onPlay el w).
Proof.
  unfold onPlay. cbv zeta.
  set (w1 := if document_contains w el then identify_and_apply w el else w).
  assert (H1 : registry_step w w1).
  { unfold w1. destruct (document_contains w el);
      [apply identify_and_apply_step|apply registry_step_refl]. }
  eapply registry_step_trans; [exact H1|].
  eapply registry_step_trans;
    [|apply fold_registry_step; intros w' l;
      apply registry_step_same_view, quiet_to_registry,
        keeps_applySettingsToElement].
  by apply registry_step_same_view.
Qed.

Lemma step_registry_step (w : World) (ev : event) :
  registry_step w (step getTitle w ev).
Proof.
  destruct ev as [el|added|el|sched request|n|el e|doc]; simpl.
  - unfold onConstruct. pose proof (getMediaId_step el w) as Hstep.
    destruct (getMediaId el w) as [id w1]. simpl in Hstep.
    eapply registry_step_trans; [exact Hstep|].
    by apply registry_step_same_view.
  - apply fold_registry_step, processMedia_step.
  - apply onPlay_step.
  - unfold onMessage. pose proof (handleAsync_step sched request w) as Hstep.
    destruct (handleAsync getTitle sched request w) as [[r|] w']; simpl in *;
      [|exact Hstep].
    eapply registry_step_trans; [exact Hstep|]. by apply registry_step_same_view.
  - apply registry_step_same_view, run_pending_registry.
  - by apply registry_step_same_view.
  - by apply registry_step_same_view.
Qed.

Lemma run_registry_step (evs : list event) (w : World) :
  registry_step w (run getTitle evs w).
Proof. apply fold_registry_step, step_registry_step. Qed.

End ContentScriptFacts.

Lemma boot_wf (h : Host) (els : gmap elref Element) (doc : list elref)
    (store : gmap string StoredValue) :
  wf_registry (boot h els doc store).
Proof.
  unfold boot, initialScan.
  match goal with |- wf_registry (enqueue _ (fold_left _ _ ?w0)) =>
    assert (Hwf : wf_registry w0)
      by (repeat split; simpl; constructor);
    destruct (fold_registry_step identify_and_apply
                (discoverMediaElements w0) w0 identify_and_apply_step Hwf)
      as [H _]
  end.
  exact H.
Qed.

(** ** Identity of tracked media *)

Lemma getMediaId_registered (el : elref) (w : World) :
  wf_registry w →
  ((getMediaId el w).1, el) ∈ registry (getMediaId el w).2.
Proof.
  intros (_ & Hb & _). unfold getMediaId.
  destruct (find_id el (registry w)) as [id|] eqn:Hfind; simpl.
  - by apply find_id_elem_of.
  - unfold registry at 1. simpl. fold (registry w).
    rewrite map_set_fresh.
    + apply elem_of_app. right. apply list_elem_of_singleton. reflexivity.
    + intros Hin. unfold registry_ids in Hb. rewrite Forall_forall in Hb.
      specialize (Hb _ Hin). lia.
Qed.

Lemma getMediaId_known (el : elref) (id : nat) (w : World) :
  wf_registry w → (id, el) ∈ registry w → getMediaId el w = (id, w).
Proof.
  intros (_ & _ & Hnd) Hin. unfold getMediaId.
  by rewrite (find_id_registered el (registry w) id Hnd Hin).
Qed.

Lemma registered_below_nextId (id : nat) (el : elref) (w : World) :
  wf_registry w → (id, el) ∈ registry w → id < nextId (script w).
Proof.
  intros (_ & Hb & _) Hin. unfold registry_ids in Hb.
  rewrite Forall_forall in Hb. apply Hb.
  apply list_elem_of_fmap. by exists (id, el).
Qed.

(** Identity of ids in any well-formed registry. *)
Lemma ids_stable_of_wf (getTitle : Element -> string) (w : World) :
  wf_registry w →
  (∀ el id, (id, el) ∈ registry w → getMediaId el w = (id, w))
  ∧ (∀ el, getMediaId el (getMediaId el w).2
           = ((getMediaId el w).1, (getMediaId el w).2))
  ∧ (∀ el1 el2 evs,
       (getMediaId el2 (run getTitle evs (getMediaId el1 w).2)).1
       = (getMediaId el1 w).1 → el1 = el2)
  ∧ (∀ evs id, id < nextId (script w) → id ∉ registry_ids w →
               id ∉ registry_ids (run getTitle evs w))
  ∧ (∀ evs, wf_registry (run getTitle evs w)
            ∧ nextId (script w) ≤ nextId (script (run getTitle evs w))).
Proof.
  intros Hwf.
  split; [intros el id; by apply getMediaId_known|].
  split.
  { intros el. destruct (getMediaId_step el w Hwf) as [Hwf1 _].
    apply getMediaId_known; [done|]. by apply getMediaId_registered. }
  split.
  { intros el1 el2 evs Heq.
    destruct (getMediaId_step el1 w Hwf) as [Hwf1 _].
    pose proof (getMediaId_registered el1 w Hwf) as Hin1.
    set (w1 := (getMediaId el1 w).2) in *.
    set (id := (getMediaId el1 w).1) in *.
    destruct (run_registry_step getTitle evs w1 Hwf1) as [Hwf2 Hext2].
    set (w2 := run getTitle evs w1) in *.
    destruct (getMediaId_step el2 w2 Hwf2) as [Hwf3 Hext3].
    pose proof (getMediaId_registered el2 w2 Hwf2) as Hin3.
    rewrite Heq in Hin3.
    destruct (extends_trans _ _ _ Hext2 Hext3) as [_ Hback].
    apply (sorted_ids_functional (registry w1) id); [apply Hwf1|done|].
    apply Hback; [done|]. by eapply registered_below_nextId. }
  split.
  { intros evs id Hlt Hout Hin.
    destruct (run_registry_step getTitle evs w Hwf) as [_ [_ Hback]].
    apply list_elem_of_fmap in Hin as ([id' el] & -> & Hin). simpl in *.
    apply Hout. apply list_elem_of_fmap. exists (id', el). split; [done|].
    by apply Hback. }
  intros evs. destruct (run_registry_step getTitle evs w Hwf) as [Hwf' [Hn _]].
  done.
Qed.

(** Every world of a run of the script has a well-formed registry. *)
Lemma run_wf (getTitle : Element -> string) (h : Host)
    (els : gmap elref Element) (doc : list elref)
    (store : gmap string StoredValue) (evs : list event) :
  wf_registry (run getTitle evs (boot h els doc store)).
Proof.
  by destruct (run_registry_step getTitle evs (boot h els doc store)
                 (boot_wf h els doc store)).
Qed.

(** C4, as the code has it.  In every world [w] that a run of the script
    reaches from its start, an element that is registered gets its
    registered id from [getMediaId], and the call changes nothing, so
    repeated calls agree for as long as its entry stays, whichever
    channel made the first call; an element whose entry was pruned gets a
    new id when it is seen again.  Across the rest of the run an id never
    stands for two elements: if a later call for [el2] returns the id an
    earlier call gave [el1], the two are the same element; ids are given
    out upwards, and an id below the next one that is not in the registry
    (never entered, or pruned) stays out of it. *)
Theorem C4_ids_stable_while_registered (getTitle : Element -> string)
    (h : Host) (els : gmap elref Element) (doc : list elref)
    (store : gmap string StoredValue) (evs0 : list event) :
  let w := run getTitle evs0 (boot h els doc store) in
  (∀ el id, (id, el) ∈ registry w → getMediaId el w = (id, w))
  ∧ (∀ el, getMediaId el (getMediaId el w).2
           = ((getMediaId el w).1, (getMediaId el w).2))
  ∧ (∀ el1 el2 evs,
       (getMediaId el2 (run getTitle evs (getMediaId el1 w).2)).1
       = (getMediaId el1 w).1 → el1 = el2)
  ∧ (∀ evs id, id < nextId (script w) → id ∉ registry_ids w →
               id ∉ registry_ids (run getTitle evs w))
  ∧ (∀ evs, nextId (script w) ≤ nextId (script (run getTitle evs w))).
Proof.
  intros w.
  destruct (ids_stable_of_wf getTitle w (run_wf getTitle h els doc store evs0))
    as (H1 & H2 & H3 & H4 & H5).
  split; [exact H1|]. split; [exact H2|]. split; [exact H3|].
  split; [exact H4|]. intros evs. by destruct (H5 evs).
Qed.

Lemma constructed_registry :
  registry constructed = [(1, 7)] ∧ nextId (script constructed) = 2.
Proof. split; vm_compute; reflexivity. Qed.

Lemma C4_ids_stable_while_registered_witness :
  getMediaId 7 constructed = (1, constructed).
Proof.
  apply (proj1 (C4_ids_stable_while_registered plain_title example_host ∅ [] ∅
                  [EvCallback 0; EvConstruct 7])).
  fold constructed. destruct constructed_registry as [-> _]. left.
Defined.

(** C4, as the specification has it, fails: element 7 is made by the page
    and gets id 1; it has no source and is in no document when the panel
    polls, so it is pruned; the page then gives it a source and inserts
    it, and the mutation observer's call gets id 2 for it. *)
Lemma C4_pruned_element_new_id_counterexample :
  (getMediaId 7 constructed).1 = 1
  ∧ (getMediaId 7 reinserted).1 = 2
  ∧ ¬ (∀ (evs0 evs : list event) (el : elref),
         let w := run plain_title evs0 (boot example_host ∅ [] ∅) in
         (getMediaId el (run plain_title evs w)).1 = (getMediaId el w).1).
Proof.
  assert (H1 : (getMediaId 7 constructed).1 = 1) by (vm_compute; reflexivity).
  assert (H2 : (getMediaId 7 reinserted).1 = 2) by (vm_compute; reflexivity).
  split; [exact H1|]. split; [exact H2|].
  intros Hall.
  specialize (Hall [EvCallback 0; EvConstruct 7]
    [EvMessage no_jobs getMedia; EvPageEdit 7 song; EvPageAttach [7];
     EvMutation [7]] 7).
  cbv zeta in Hall. fold constructed in Hall. fold reinserted in Hall.
  rewrite H1, H2 in Hall. discriminate.
Qed.

(** ** The snapshot *)

Lemma ensure_loaded_settings (w : World) :
  settings (ensure_loaded w).2 =
  if settingsLoaded (script w) then settings w
  else if storage_readable (host w)
       then loaded_settings (storage (page w) !! storageKey w)
       else DEFAULT_SETTINGS.
Proof.
  unfold ensure_loaded. destruct (settingsLoaded (script w)); [done|].
  rewrite loadSettings_run. by destruct (storage_readable (host w)).
Qed.

Lemma ensure_loaded_document (w : World) :
  document (page (ensure_loaded w).2) = document (page w)
  ∧ registry_view (ensure_loaded w).2 = registry_view w.
Proof.
  unfold ensure_loaded. destruct (settingsLoaded (script w)); [done|].
  by rewrite loadSettings_run.
Qed.

Lemma page_edits_keep (edits : list (elref * Element)) (w : World) :
  settings (page_edits edits w) = settings w
  ∧ settingsLoaded (script (page_edits edits w)) = settingsLoaded (script w)
  ∧ host (page_edits edits w) = host w
  ∧ storage (page (page_edits edits w)) = storage (page w).
Proof.
  unfold page_edits. revert w.
  induction edits as [|[el e] edits IH]; intros w; simpl; [done|].
  destruct (IH (page_edit el e w)) as (-> & -> & -> & ->). done.
Qed.

Lemma handleAsync_getMedia (getTitle : Element -> string)
    (sched : nat -> list nat) (w : World) :
  handleAsync getTitle sched getMedia w
  = (Ok (RespMedia (getAllMedia getTitle sched (ensure_loaded w).2).1),
     (getAllMedia getTitle sched (ensure_loaded w).2).2).
Proof.
  unfold handleAsync, bind.
  destruct (ensure_loaded_run w) as (w0 & Hrun & _). rewrite Hrun. simpl.
  unfold lift, ret. by destruct (getAllMedia getTitle sched w0).
Qed.


Lemma sorted_lt_NoDup (l : list nat) : StronglySorted lt l → NoDup l.
Proof.
  induction 1 as [|x l Hs IH Hall]; constructor; [|done].
  intros Hin. rewrite Forall_forall in Hall. specialize (Hall _ Hin). lia.
Qed.

(** The ids of a getMedia response over any well-formed registry. *)
Lemma getMedia_ids_of_wf (getTitle : Element -> string)
    (sched : nat -> list nat) (w : World) :
  wf_registry w →
  ∃ media w',
    handleAsync getTitle sched getMedia w = (Ok (RespMedia media), w')
    ∧ mi_id <$> media = registry_ids w'
    ∧ StronglySorted lt (mi_id <$> media)
    ∧ NoDup (mi_id <$> media)
    ∧ registry_ids (pruneRegistry (ensure_loaded w).2) `prefix_of` mi_id <$> media
    ∧ (registry w = [] → document (page w) = [] → media = []).
Proof.
  intros Hwf. rewrite handleAsync_getMedia. eexists _, _. split; [reflexivity|].
  destruct (ensure_loaded_document w) as [Hdoc Hview].
  set (w0 := (ensure_loaded w).2) in *.
  assert (Hwf0 : wf_registry w0).
  { by destruct (registry_step_same_view w w0 Hview Hwf). }
  destruct (getAllMedia_spec getTitle sched w0) as (Hids & _ & Hv & _ & Hstep).
  cbv zeta in *.
  set (w2 := fold_left identify_and_apply
               (discoverMediaElements (pruneRegistry w0)) (pruneRegistry w0)) in *.
  destruct (Hstep Hwf0) as [(Hsorted & _) _].
  assert (Hreg : registry_ids (getAllMedia getTitle sched w0).2 = registry_ids w2).
  { unfold registry_ids. unfold registry_view in Hv. by injection Hv as -> _. }
  rewrite Hids, Hreg.
  split; [done|]. split; [done|]. split; [by apply sorted_lt_NoDup|].
  split.
  - unfold registry_ids.
    destruct (identify_all_prefix (discoverMediaElements (pruneRegistry w0))
                (pruneRegistry w0)) as [new Hnew].
    { by destruct (pruneRegistry_step w0 Hwf0). }
    fold w2 in Hnew. rewrite Hnew, fmap_app. by apply prefix_app_r.
  - intros Hempty Hnodoc.
    assert (Hr0 : registry w0 = []).
    { unfold registry_view in Hview. injection Hview as -> _. done. }
    apply fmap_nil_inv with (f := mi_id). rewrite Hids. unfold w2.
    unfold pruneRegistry. rewrite Hr0. simpl.
    unfold discoverMediaElements. rewrite Hdoc, Hnodoc. simpl.
    unfold registry_ids. by rewrite Hr0.
Qed.

(** C10.  In every world that a run of the script reaches from its
    start, a getMedia response is never an error; it has one entry for
    each id of the media registry as the command leaves it, in the order
    of the registry, which is strictly ascending in the id, so no id comes
    twice; the ids that pruning left come first, in their order, followed
    by those of the elements found in the document by this command; with
    an empty registry and no media element in the document the response
    is the empty list. *)
Theorem C10_one_entry_per_id_ascending (getTitle : Element -> string)
    (sched : nat -> list nat) (h : Host) (els : gmap elref Element)
    (doc : list elref) (store : gmap string StoredValue) (evs : list event) :
  let w := run getTitle evs (boot h els doc store) in
  ∃ media w',
    handleAsync getTitle sched getMedia w = (Ok (RespMedia media), w')
    ∧ mi_id <$> media = registry_ids w'
    ∧ StronglySorted lt (mi_id <$> media)
    ∧ NoDup (mi_id <$> media)
    ∧ registry_ids (pruneRegistry (ensure_loaded w).2) `prefix_of` mi_id <$> media
    ∧ (registry w = [] → document (page w) = [] → media = []).
Proof.
  intros w.
  exact (getMedia_ids_of_wf getTitle sched w (run_wf getTitle h els doc store evs)).
Qed.

Lemma C10_one_entry_per_id_ascending_witness :
  ∃ w', handleAsync plain_title no_jobs getMedia empty_world
        = (Ok (RespMedia []), w').
Proof.
  destruct (C10_one_entry_per_id_ascending plain_title no_jobs example_host
              ∅ [] ∅ [EvCallback 0])
    as (media & w' & Hrun & _ & _ & _ & _ & Hempty).
  fold empty_world in Hrun, Hempty.
  rewrite Hempty in Hrun; [by exists w'| |]; vm_compute; reflexivity.
Defined.

(** ** Reverb switched off and on again *)

Lemma setReverbEnabled_run (getTitle : Element -> string)
    (sched : nat -> list nat) (id : nat) (el : elref) (b : bool) (w : World) :
  settingsLoaded (script w) = true →
  map_get id (registry w) = Some el →
  audio_state (onMessage getTitle sched (setReverbEnabled id b) w)
  = audio_state (toggleReverb id b (modify_settings (set_reverbEnabled b) w)).2.
Proof.
  intros Hl Hel.
  unfold onMessage, handleAsync, ensure_loaded, bind. rewrite Hl.
  unfold applyChange. rewrite Hel. unfold bind. simpl change_body.
  unfold bind, update.
  change (reverbEnabled (settings (modify_settings (set_reverbEnabled b) w)))
    with b.
  destruct (never_throws_toggleReverb id b
              (modify_settings (set_reverbEnabled b) w)) as [[] Hok].
  destruct (toggleReverb id b (modify_settings (set_reverbEnabled b) w))
    as [r w1].
  simpl in Hok. subst r. rewrite saveSettings_run. unfold ret. simpl.
  destruct (storage_writable (host w1)); reflexivity.
Qed.

Lemma toggle_off_run (id : nat) (el : elref) (g : gref) (w : World) :
  map_get id (registry w) = Some el →
  graphOf w id = Some g →
  is_Some (audioContext (script w)) →
  toggleReverb id false w
  = (Ok tt, enqueue (CbTeardown g id) (write_graph g fade_out w)).
Proof.
  intros Hel Hg [ctx Hctx]. unfold toggleReverb. rewrite Hel, Hg, Hctx.
  reflexivity.
Qed.

Lemma toggle_on_again_run (id : nat) (el : elref) (g : gref) (w : World) :
  map_get id (registry w) = Some el →
  graphOf w id = Some g →
  reverbEnabled (settings w) = true →
  toggleReverb id true w
  = (Ok tt, updateReverbMix id (reverb (settings w)) w).
Proof.
  intros Hel Hg Hen. unfold toggleReverb. rewrite Hel.
  unfold bind, createAudioGraph. rewrite Hen, Hg. reflexivity.
Qed.

(** C1, what the code does.  Take a registered id for which the first
    setReverbEnabled(id, true) has left a connected graph.  After
    setReverbEnabled(id, false) and then setReverbEnabled(id, true), each
    answered before the timer of the disable has run, the id has the same
    graph as before (the second enable finds it in the registry and makes
    no new one), it is connected, and the timer is still waiting with that
    graph in hand.  When the timer runs it disconnects that graph and
    removes the entry of the id: reverbEnabled is on in the settings and
    the id has no graph. *)
Theorem C1_teardown_destroys_reenabled_graph (getTitle : Element -> string)
    (sched : nat -> list nat) (id : nat) (el : elref) (g : gref) (w : World) :
  settingsLoaded (script w) = true →
  map_get id (registry w) = Some el →
  let w1 := onMessage getTitle sched (setReverbEnabled id true) w in
  graphOf w1 id = Some g →
  g_connected <$> graphs (page w1) !! g = Some true →
  is_Some (audioContext (script w1)) →
  let w2 := onMessage getTitle sched (setReverbEnabled id false) w1 in
  let w3 := onMessage getTitle sched (setReverbEnabled id true) w2 in
  let w4 := run_pending (length (pending (page w1))) w3 in
  graphOf w3 id = Some g
  ∧ g_connected <$> graphs (page w3) !! g = Some true
  ∧ reverbEnabled (settings w3) = true
  ∧ pending (page w3) = pending (page w1) ++ [CbTeardown g id]
  ∧ graphOf w4 id = None
  ∧ g_connected <$> graphs (page w4) !! g = Some false
  ∧ reverbEnabled (settings w4) = true.
Proof.
  intros Hl Hel w1 Hg Hconn Hctx w2 w3 w4.
  (* the first enable keeps the registry and the loaded flag *)
  pose proof (setReverbEnabled_run getTitle sched id el true w Hl Hel) as H1.
  fold w1 in H1.
  pose proof (keeps_toggleReverb id true
                (modify_settings (set_reverbEnabled true) w)) as Hq1.
  apply quiet_view_inv in Hq1 as (_ & Hl1' & Hr1' & _).
  unfold audio_state in H1. injection H1 as _ _ _ _ _ Hr1 Hl1 _.
  rewrite Hr1' in Hr1. rewrite Hl1' in Hl1.
  change (registry (modify_settings (set_reverbEnabled true) w))
    with (registry w) in Hr1.
  change (settingsLoaded (script (modify_settings (set_reverbEnabled true) w)))
    with (settingsLoaded (script w)) in Hl1.
  rewrite Hl in Hl1. rewrite <- Hr1 in Hel.
  (* the disable *)
  pose proof (setReverbEnabled_run getTitle sched id el false w1 Hl1 Hel) as H2.
  fold w2 in H2.
  rewrite (toggle_off_run id el g) in H2 by done.
  unfold audio_state in H2. simpl in H2.
  injection H2 as Hagr2 Hctx2 Hgs2 Hpd2 _ Hr2 Hl2 _.
  rewrite Hl1 in Hl2.
  (* the second enable *)
  assert (Hel2 : map_get id (registry w2) = Some el) by (by rewrite Hr2).
  assert (Hg2 : graphOf w2 id = Some g) by (unfold graphOf; by rewrite Hagr2).
  pose proof (setReverbEnabled_run getTitle sched id el true w2 Hl2 Hel2) as H3.
  fold w3 in H3.
  rewrite (toggle_on_again_run id el g) in H3 by done.
  unfold updateReverbMix in H3.
  change (graphOf (modify_settings (set_reverbEnabled true) w2) id)
    with (graphOf w2 id) in H3.
  change (audioContext (script (modify_settings (set_reverbEnabled true) w2)))
    with (audioContext (script w2)) in H3.
  rewrite Hg2, Hctx2 in H3. destruct Hctx as [ctx Hctx]. rewrite Hctx in H3.
  unfold audio_state in H3. simpl in H3.
  injection H3 as Hagr3 _ Hgs3 Hpd3 _ _ _ Hset3.
  rewrite Hgs2 in Hgs3. rewrite Hpd2 in Hpd3. rewrite Hagr2 in Hagr3.
  assert (Hg3 : graphOf w3 id = Some g) by (unfold graphOf; by rewrite Hagr3).
  assert (Hc3 : g_connected <$> graphs (page w3) !! g = Some true).
  { rewrite Hgs3, !lookup_alter_eq.
    destruct (graphs (page w1) !! g) as [G|]; [|done]. exact Hconn. }
  assert (Hen3 : reverbEnabled (settings w3) = true) by (by rewrite Hset3).
  split; [done|]. split; [done|]. split; [done|]. split; [done|].
  (* the timer *)
  unfold w4, run_pending. rewrite Hpd3, list_lookup_middle by done. simpl.
  split; [|split].
  - unfold graphOf. simpl. apply lookup_delete_eq.
  - rewrite lookup_alter_eq.
    destruct (graphs (page w3) !! g) as [G|]; [done|discriminate].
  - exact Hen3.
Qed.

Lemma C1_teardown_destroys_reenabled_graph_witness :
  graphOf toggled_thrice 1 = Some 0
  ∧ graphOf (run_pending (length (pending (page reverb_on))) toggled_thrice) 1
    = None.
Proof.
  destruct (C1_teardown_destroys_reenabled_graph plain_title no_jobs 1 10 0
              tracked_world) as (H3 & _ & _ & _ & H4 & _).
  - vm_compute; reflexivity.
  - vm_compute; reflexivity.
  - vm_compute; reflexivity.
  - vm_compute; reflexivity.
  - vm_compute; eexists; reflexivity.
  - split; [exact H3|exact H4].
Defined.

(** The page with one element after the three commands and the timer:
    reverb is on in the settings, id 1 has no graph, the graph the last
    enable returned is disconnected, and since the element stays tapped no
    later call can build another. *)
Lemma after_teardown_no_graph :
  reverbEnabled (settings after_teardown) = true
  ∧ graphOf after_teardown 1 = None
  ∧ g_connected <$> graphs (page after_teardown) !! 0 = Some false
  ∧ e_tapped (elem after_teardown 10) = true
  ∧ (createAudioGraph 1 10 after_teardown).1 = Ok None.
Proof. repeat split; vm_compute; reflexivity. Qed.

(** ** Graphs in the registry are there *)

Lemma audio_le_refl (w : World) : audio_le w w.
Proof. repeat split; auto. Qed.

Lemma audio_le_trans (w1 w2 w3 : World) :
  audio_le w1 w2 → audio_le w2 w3 → audio_le w1 w3.
Proof.
  intros (Hr1 & Hg1 & Hc1) (Hr2 & Hg2 & Hc2). repeat split; auto.
  intros id g H3. destruct (Hr2 id g H3) as [H2|H2]; [|by right].
  destruct (Hr1 id g H2) as [H1|[Hh Hc]]; [by left|]. right. auto.
Qed.

Lemma audio_le_same_core (w w' : World) :
  audio_core w' = audio_core w → audio_le w w'.
Proof.
  unfold audio_core, audio_le, graphOf. intros [= -> -> ->]. repeat split; auto.
Qed.

Lemma audio_le_wf (w w' : World) : audio_le w w' → audio_wf w → audio_wf w'.
Proof.
  intros (Hr & Hg & Hc) Hwf id g H'. destruct (Hr id g H') as [H|H]; [|done].
  destruct (Hwf id g H). auto.
Qed.

Lemma fold_audio_le {A} (f : World → A → World) (l : list A) (w : World) :
  (∀ w a, audio_le w (f w a)) → audio_le w (fold_left f l w).
Proof.
  intros Hf. revert w.
  induction l as [|a l IH]; intros w; simpl; [apply audio_le_refl|].
  eapply audio_le_trans; [apply Hf|apply IH].
Qed.

Lemma prune_entry_audio_le (w : World) (entry : nat * elref) :
  audio_le w (prune_entry w entry).
Proof.
  destruct entry as [id el]. unfold prune_entry.
  destruct (prunable w el); [|apply audio_le_refl].
  repeat split; auto. intros id' g. unfold graphOf. simpl.
  intros H. left. by apply lookup_delete_Some in H as [_ H].
Qed.

Lemma pruneRegistry_audio_le (w : World) : audio_le w (pruneRegistry w).
Proof. apply fold_audio_le, prune_entry_audio_le. Qed.

Lemma createAudioGraph_try_audio_le (id : nat) (el : elref) (w : World) :
  audio_le w (createAudioGraph_try id el w).2.
Proof.
  pose proof (createAudioGraph_try_cases id el w) as Hc.
  destruct (createAudioGraph_try id el w) as [[[g|]|] w']; simpl in *; [|done|].
  - destruct Hc as (_ & _ & Hfresh & _ & Hreg & (G & HG & _) & Hctx).
    unfold audio_le, graphOf. rewrite Hreg, HG. split; [|split; [|done]].
    + intros id' g'. rewrite lookup_insert. case_decide as Hid.
      * intros [= <-]. right. by rewrite lookup_insert_eq.
      * by left.
    + intros g' Hg'. rewrite lookup_insert. by case_decide.
  - destruct Hc as (_ & Hreg & HG & Hctx).
    unfold audio_le, graphOf. rewrite Hreg, HG. repeat split; auto.
Qed.

Lemma createAudioGraph_audio_le (id : nat) (el : elref) (w : World) :
  audio_le w (createAudioGraph id el w).2.
Proof.
  unfold createAudioGraph.
  destruct (negb (reverbEnabled (settings w))); [apply audio_le_refl|].
  destruct (graphOf w id); [apply audio_le_refl|].
  pose proof (createAudioGraph_try_audio_le id el w) as H.
  unfold try_catch, ret.
  by destruct (createAudioGraph_try id el w) as [[r|] w'].
Qed.

Lemma write_graph_audio_le (g : gref) (f : MediaAudioGraph → MediaAudioGraph)
    (w : World) :
  audio_le w (write_graph g f w).
Proof.
  unfold audio_le, graphOf. simpl. repeat split; auto.
  intros g' Hg'. rewrite lookup_alter. case_decide; [subst|done].
  by apply fmap_is_Some.
Qed.

Lemma updateReverbMix_audio_le (id : nat) (m : Q) (w : World) :
  audio_le w (updateReverbMix id m w).
Proof.
  unfold updateReverbMix.
  destruct (graphOf w id); [|apply audio_le_refl].
  destruct (audioContext (script w)); [|apply audio_le_refl].
  apply write_graph_audio_le.
Qed.

Lemma toggleReverb_audio_le (id : nat) (b : bool) (w : World) :
  audio_le w (toggleReverb id b w).2.
Proof.
  unfold toggleReverb.
  destruct (map_get id (registry w)) as [el|]; [|apply audio_le_refl].
  destruct b.
  - unfold bind, update.
    pose proof (createAudioGraph_audio_le id el w) as H.
    destruct (createAudioGraph id el w) as [[r|] w']; simpl in *; [|done].
    eapply audio_le_trans; [exact H|apply updateReverbMix_audio_le].
  - destruct (graphOf w id) as [g|]; [|apply audio_le_refl].
    destruct (audioContext (script w)); [|apply audio_le_refl].
    simpl. eapply audio_le_trans; [apply (write_graph_audio_le g fade_out)|].
    by apply audio_le_same_core.
Qed.

Lemma run_callback_audio_le (t : callback) (w : World) :
  audio_le w (run_callback t w).
Proof.
  destruct t as [id el|id|g id|]; simpl.
  - eapply audio_le_trans; [|apply updateReverbMix_audio_le].
    pose proof (createAudioGraph_try_audio_le id el w) as H.
    unfold try_catch, ret.
    by destruct (createAudioGraph_try id el w) as [[r|] w'].
  - apply updateReverbMix_audio_le.
  - eapply audio_le_trans; [apply (write_graph_audio_le g disconnect)|].
    repeat split; auto. intros id' g'. unfold graphOf. simpl.
    intros H. left. by apply lookup_delete_Some in H as [_ H].
  - apply audio_le_same_core. by rewrite loadSettings_run.
Qed.

Lemma run_pending_audio_le (n : nat) (w : World) : audio_le w (run_pending n w).
Proof.
  unfold run_pending. destruct (pending (page w) !! n) as [t|];
    [|apply audio_le_refl].
  eapply audio_le_trans; [|apply run_callback_audio_le].
  by apply audio_le_same_core.
Qed.

Lemma run_jobs_audio_le (ns : list nat) (w : World) :
  audio_le w (run_jobs ns w).
Proof.
  apply fold_audio_le. intros w' n. unfold run_job.
  destruct (pending (page w') !! n) as [t|]; [|apply audio_le_refl].
  destruct (is_promise_job t); [apply run_pending_audio_le|apply audio_le_refl].
Qed.

Lemma applySettingsToElement_audio_le (el : elref) (id : nat) (w : World) :
  audio_le w (applySettingsToElement el id w).
Proof.
  apply audio_le_same_core. unfold applySettingsToElement.
  destruct (reverbEnabled (settings w)); [|reflexivity].
  match goal with |- context [graphOf ?x id] => destruct (graphOf x id) end;
    reflexivity.
Qed.

Lemma getMediaId_audio_le (el : elref) (w : World) :
  audio_le w (getMediaId el w).2.
Proof.
  apply audio_le_same_core. unfold getMediaId.
  by destruct (find_id el (registry w)).
Qed.

Lemma identify_and_apply_audio_le (w : World) (el : elref) :
  audio_le w (identify_and_apply w el).
Proof.
  unfold identify_and_apply. pose proof (getMediaId_audio_le el w) as H.
  destruct (getMediaId el w) as [id w1]. simpl in H.
  eapply audio_le_trans; [exact H|apply applySettingsToElement_audio_le].
Qed.

Lemma change_body_audio_le (id : nat) (el : elref) (change : SettingChange)
    (w : World) :
  audio_le w (change_body id el change w).2.
Proof.
  destruct change; simpl; unfold bind, update; simpl;
    try (by apply audio_le_same_core).
  - destruct (reverbEnabled _); [|by apply audio_le_same_core].
    eapply audio_le_trans; [|apply updateReverbMix_audio_le].
    by apply audio_le_same_core.
  - eapply audio_le_trans; [|apply toggleReverb_audio_le].
    by apply audio_le_same_core.
Qed.

Lemma applyChange_audio_le (id : nat) (change : SettingChange) (w : World) :
  audio_le w (applyChange id change w).2.
Proof.
  unfold applyChange.
  destruct (map_get id (registry w)) as [el|]; [|apply audio_le_refl].
  unfold bind. pose proof (change_body_audio_le id el change w) as H.
  destruct (change_body id el change w) as [[u|] w1]; simpl in *; [|done].
  rewrite saveSettings_run. unfold ret. simpl.
  eapply audio_le_trans; [exact H|]. apply audio_le_same_core.
  by destruct (storage_writable (host w1)).
Qed.

Section AudioFacts.
Variable getTitle : Element -> string.

Lemma snapshot_audio_le (sched : nat -> list nat) (k : nat)
    (entries : list (nat * elref)) (w : World) :
  audio_le w (snapshot getTitle sched k entries w).2.
Proof.
  revert k w. induction entries as [|[id el] entries IH]; intros k w; simpl;
    [apply audio_le_refl|].
  specialize (IH (S k) (run_jobs (sched k) w)).
  destruct (snapshot getTitle sched (S k) entries (run_jobs (sched k) w))
    as [infos w']. simpl in *.
  eapply audio_le_trans; [apply run_jobs_audio_le|exact IH].
Qed.

Lemma getAllMedia_audio_le (sched : nat -> list nat) (w : World) :
  audio_le w (getAllMedia getTitle sched w).2.
Proof.
  unfold getAllMedia.
  eapply audio_le_trans; [apply pruneRegistry_audio_le|].
  eapply audio_le_trans; [|apply snapshot_audio_le].
  apply fold_audio_le, identify_and_apply_audio_le.
Qed.

Lemma handleAsync_audio_le (sched : nat -> list nat) (request : MessageRequest)
    (w : World) :
  audio_le w (handleAsync getTitle sched request w).2.
Proof.
  unfold handleAsync, bind.
  assert (H0 : audio_le w (ensure_loaded w).2).
  { apply audio_le_same_core. unfold ensure_loaded.
    destruct (settingsLoaded (script w)); [done|]. by rewrite loadSettings_run. }
  destruct (ensure_loaded_run w) as (w0 & Hrun & _). rewrite Hrun in *.
  simpl in H0. eapply audio_le_trans; [exact H0|].
  assert (Hset : ∀ id change,
    audio_le w0 (bind (applyChange id change) (fun _ => ret RespOk) w0).2).
  { intros id change. unfold bind, ret.
    pose proof (applyChange_audio_le id change w0) as H.
    by destruct (applyChange id change w0) as [[b|] w1]. }
  destruct request; try apply Hset; try apply audio_le_refl.
  unfold lift, ret. pose proof (getAllMedia_audio_le sched w0) as H.
  by destruct (getAllMedia getTitle sched w0).
Qed.

Lemma step_audio_le (w : World) (ev : event) : audio_le w (step getTitle w ev).
Proof.
  destruct ev as [el|added|el|sched request|n|el e|doc]; simpl.
  - unfold onConstruct. pose proof (getMediaId_audio_le el w) as H.
    destruct (getMediaId el w) as [id w1]. simpl in H.
    eapply audio_le_trans; [exact H|]. by apply audio_le_same_core.
  - apply fold_audio_le. intros w' el. unfold processMedia.
    pose proof (getMediaId_audio_le el w') as H.
    destruct (getMediaId el w') as [id w1]. simpl in H.
    eapply audio_le_trans; [exact H|].
    eapply audio_le_trans; [apply applySettingsToElement_audio_le|].
    by apply audio_le_same_core.
  - unfold onPlay. cbv zeta.
    set (w1 := if document_contains w el then identify_and_apply w el else w).
    assert (H1 : audio_le w w1).
    { unfold w1. destruct (document_contains w el);
        [apply identify_and_apply_audio_le|apply audio_le_refl]. }
    eapply audio_le_trans; [exact H1|].
    eapply audio_le_trans;
      [|apply fold_audio_le; intros w' l; apply applySettingsToElement_audio_le].
    by apply audio_le_same_core.
  - unfold onMessage. pose proof (handleAsync_audio_le sched request w) as H.
    destruct (handleAsync getTitle sched request w) as [[r|] w']; simpl in *;
      [|exact H].
    eapply audio_le_trans; [exact H|]. by apply audio_le_same_core.
  - apply run_pending_audio_le.
  - by apply audio_le_same_core.
  - by apply audio_le_same_core.
Qed.

Lemma run_audio_wf (h : Host) (els : gmap elref Element) (doc : list elref)
    (store : gmap string StoredValue) (evs : list event) :
  audio_wf (run getTitle evs (boot h els doc store)).
Proof.
  eapply audio_le_wf;
    [exact (fold_audio_le (step getTitle) evs _ step_audio_le)|].
  unfold boot, initialScan.
  match goal with |- audio_wf (enqueue _ (fold_left _ ?l ?w0)) =>
    apply (audio_le_wf w0);
      [eapply audio_le_trans;
         [exact (fold_audio_le identify_and_apply l w0
                   identify_and_apply_audio_le)
         |by apply audio_le_same_core]|]
  end.
  intros id g. unfold graphOf. simpl. by rewrite lookup_empty.
Qed.

End AudioFacts.

(** C5.  In every world that a run of the script reaches from its start,
    for a wet mix m in [0,1] given to [updateReverbMix] for an id that has
    a graph, the dry gain is sent towards cos(m*pi/2) and the wet gain
    towards sin(m*pi/2), both with time constant 0.02 s, and the graph
    records m; the two targets are not negative and their squares add up
    to 1; for 0 < m < 1 they are not the linear pair (1 - m, m).  Numbers
    are real numbers here, so the equalities are exact. *)
Theorem C5_equal_power_crossfade (getTitle : Element -> string) (h : Host)
    (els : gmap elref Element) (doc : list elref)
    (store : gmap string StoredValue) (evs : list event) (id : nat) (m : Q) :
  let w := run getTitle evs (boot h els doc store) in
  is_Some (graphOf w id) →
  (0 <= m)%Q → (m <= 1)%Q →
  let dry := cos (Q2R m * PI / 2) in
  let wet := sin (Q2R m * PI / 2) in
  ∃ G', graph_object (updateReverbMix id m w) id = Some G'
    ∧ gain_target (dryGain G') = Some (dry, (2 / 100)%R)
    ∧ gain_target (wetGain G') = Some (wet, (2 / 100)%R)
    ∧ reverbMix G' = m
    ∧ (0 <= dry)%R ∧ (0 <= wet)%R
    ∧ (dry * dry + wet * wet = 1)%R
    ∧ ((0 < m)%Q → (m < 1)%Q → ¬ (dry = 1 - Q2R m ∧ wet = Q2R m)%R).
Proof.
  intros w [g Hg] H0 H1.
  destruct (run_audio_wf getTitle h els doc store evs id g Hg) as [HG Hctx].
  apply equal_power_of_graph; try done.
  unfold graph_object. fold w. rewrite Hg. exact HG.
Qed.

Lemma C5_equal_power_crossfade_witness :
  ∃ G', graph_object (updateReverbMix 1 (1 # 2)%Q reverb_on) 1 = Some G'
    ∧ gain_target (dryGain G') = Some (cos (Q2R (1 # 2)%Q * PI / 2), (2 / 100)%R)
    ∧ gain_target (wetGain G') = Some (sin (Q2R (1 # 2)%Q * PI / 2), (2 / 100)%R)
    ∧ reverbMix G' = (1 # 2)%Q.
Proof.
  destruct (C5_equal_power_crossfade plain_title example_host {[ 10 := song ]}
              [10] ∅ [EvCallback 0; EvMessage no_jobs (setReverbEnabled 1 true)]
              1 (1 # 2)%Q)
    as (G' & H1 & H2 & H3 & H4 & _).
  - vm_compute; eexists; reflexivity.
  - unfold Qle; simpl; lia.
  - unfold Qle; simpl; lia.
  - exists G'. repeat split; assumption.
Defined.

(** * Further properties *)

(** ** Commands *)

Lemma ensure_loaded_keeps : keeps load_view ensure_loaded.
Proof.
  intros w. unfold ensure_loaded.
  destruct (settingsLoaded (script w)); [reflexivity|].
  rewrite loadSettings_run. reflexivity.
Qed.

Lemma saveSettings_keeps : keeps save_view saveSettings.
Proof.
  intros w. rewrite saveSettings_run. simpl.
  destruct (storage_writable (host w)); reflexivity.
Qed.

Lemma handleAsync_command (getTitle : Element → string) (sched : nat → list nat)
    (id : nat) (change : SettingChange) (w : World) :
  handleAsync getTitle sched (request_of id change) w
  = (Ok RespOk, (applyChange id change (ensure_loaded w).2).2).
Proof.
  unfold handleAsync. unfold bind at 1.
  destruct (ensure_loaded_run w) as (w0 & -> & _). simpl.
  destruct (never_throws_applyChange id change w0) as [b Hb].
  destruct change; simpl; unfold bind;
    destruct (applyChange id _ w0) as [r w1]; simpl in Hb; subst r; reflexivity.
Qed.

Lemma applyChange_run (id : nat) (el : elref) (change : SettingChange) (w : World) :
  map_get id (registry w) = Some el →
  applyChange id change w
  = (Ok true, (saveSettings (change_body id el change w).2).2).
Proof.
  intros Hel. unfold applyChange. rewrite Hel. unfold bind at 1.
  destruct (never_throws_change_body id el change w) as [[] Hok].
  destruct (change_body id el change w) as [r w1]. simpl in *. subst r.
  unfold bind. rewrite saveSettings_run. reflexivity.
Qed.

(** The world a command on a tracked id ends in. *)
Lemma command_run (getTitle : Element → string) (sched : nat → list nat)
    (id : nat) (el : elref) (change : SettingChange) (w : World) :
  map_get id (registry w) = Some el →
  (handleAsync getTitle sched (request_of id change) w).2
  = (saveSettings (change_body id el change (ensure_loaded w).2).2).2.
Proof.
  intros Hel. rewrite handleAsync_command. simpl.
  pose proof (ensure_loaded_keeps w) as Hk. unfold load_view in Hk.
  assert (map_get id (registry (ensure_loaded w).2) = Some el) as Hel'.
  { replace (registry (ensure_loaded w).2) with (registry w); [done|].
    by injection Hk. }
  by rewrite (applyChange_run id el change _ Hel').
Qed.

Lemma save_view_inv (w w' : World) :
  save_view w' = save_view w →
  settings w' = settings w
  ∧ (∀ x, elem w' x = elem w x)
  ∧ graphs (page w') = graphs (page w)
  ∧ audioGraphRegistry (script w') = audioGraphRegistry (script w)
  ∧ audioContext (script w') = audioContext (script w)
  ∧ host w' = host w.
Proof.
  unfold save_view. intros H. injection H as Hs He Hd Hg Hl Hp Hh.
  unfold settings, elem. rewrite Hs, He. done.
Qed.

Lemma clamp_range (value : Q) :
  let c := math_max 0 (math_min 1 value) in
  (0 <= c)%Q ∧ (c <= 1)%Q
  ∧ ((0 <= value)%Q → (value <= 1)%Q → (c == value)%Q)
  ∧ ((value < 0)%Q → c = 0%Q)
  ∧ ((1 < value)%Q → c = 1%Q).
Proof.
  unfold math_max, math_min.
  destruct (Qle_bool 1 value) eqn:H1.
  - apply Qle_bool_iff in H1. simpl.
    repeat split; try done.
    + intros _ Hle. apply Qle_antisym; done.
    + intros Hlt. exfalso. apply (Qlt_not_le _ _ Hlt). 
      apply Qle_trans with 1%Q; done.
  - assert (value < 1)%Q as Hlt.
    { apply Qnot_le_lt. intros Hle. apply Qle_bool_iff in Hle. congruence. }
    destruct (Qle_bool 0 value) eqn:H0.
    + apply Qle_bool_iff in H0. repeat split; try done.
      * by apply Qlt_le_weak.
      * intros Hneg. exfalso. by apply (Qlt_not_le _ _ Hneg).
      * intros Hgt. exfalso. apply (Qlt_irrefl 1). by apply Qlt_trans with value.
    + repeat split; try done.
      * intros H0' _. apply Qle_bool_iff in H0'. congruence.
      * intros Hgt. exfalso. apply (Qlt_irrefl 1). by apply Qlt_trans with value.
Qed.

Lemma elem_modify_settings (f : SiteSettings → SiteSettings) (w : World) (x : elref) :
  elem (modify_settings f w) x = elem w x.
Proof. reflexivity. Qed.

Lemma elem_write_same (el : elref) (f : Element → Element) (w : World) :
  elem (write_el el f w) el = f (elem w el).
Proof. rewrite elem_write_el. by rewrite decide_True. Qed.

(** X1.  setVolume on a tracked id stores Math.max(0, Math.min(1, value))
    on the element and in the settings, and changes no other setting.  What
    is stored lies in [0,1]: it is the value itself when that lies in [0,1],
    0 for a value below and 1 for a value above. *)
Theorem X1_setVolume_clamps (getTitle : Element → string) (sched : nat → list nat)
    (id : nat) (el : elref) (value : Q) (w : World) :
  map_get id (registry w) = Some el →
  let w' := (handleAsync getTitle sched (setVolume id value) w).2 in
  let c := math_max 0 (math_min 1 value) in
  e_volume (elem w' el) = c
  ∧ settings w' = set_volume c (settings (ensure_loaded w).2)
  ∧ (0 <= c)%Q ∧ (c <= 1)%Q
  ∧ ((0 <= value)%Q → (value <= 1)%Q → (c == value)%Q)
  ∧ ((value < 0)%Q → c = 0%Q)
  ∧ ((1 < value)%Q → c = 1%Q).
Proof.
  intros Hel w' c.
  pose proof (command_run getTitle sched id el (change_volume value) w Hel) as Hrun.
  simpl request_of in Hrun. subst w'. rewrite Hrun.
  destruct (save_view_inv _ _ (saveSettings_keeps
              (change_body id el (change_volume value) (ensure_loaded w).2).2))
    as (Hs & He & _).
  rewrite Hs, He. simpl change_body. unfold bind, update. simpl.
  split; [|split; [|apply clamp_range]].
  - by rewrite elem_modify_settings, elem_write_same.
  - by rewrite elem_write_same.
Qed.

Lemma X1_setVolume_clamps_witness :
  e_volume (elem (handleAsync plain_title no_jobs (setVolume 1 (3 # 2)%Q)
                    tracked_world).2 10) = 1%Q.
Proof.
  assert (Hel : map_get 1 (registry tracked_world) = Some 10)
    by (vm_compute; reflexivity).
  destruct (X1_setVolume_clamps plain_title no_jobs 1 10 (3 # 2)%Q tracked_world Hel)
    as (Hv & _ & _ & _ & _ & _ & Hhigh).
  rewrite Hv. apply Hhigh. reflexivity.
Defined.

Lemma updateReverbMix_elem (id : nat) (m : Q) (w : World) (x : elref) :
  elem (updateReverbMix id m w) x = elem w x.
Proof.
  unfold updateReverbMix.
  destruct (graphOf w id); [|done]. by destruct (audioContext (script w)).
Qed.

Lemma updateReverbMix_script (id : nat) (m : Q) (w : World) :
  script (updateReverbMix id m w) = script w.
Proof.
  unfold updateReverbMix.
  destruct (graphOf w id); [|done]. by destruct (audioContext (script w)).
Qed.

Lemma load_view_inv (w w' : World) :
  load_view w' = load_view w →
  (∀ x, elem w' x = elem w x)
  ∧ graphs (page w') = graphs (page w)
  ∧ audioGraphRegistry (script w') = audioGraphRegistry (script w)
  ∧ audioContext (script w') = audioContext (script w)
  ∧ registry w' = registry w
  ∧ storage (page w') = storage (page w)
  ∧ host w' = host w.
Proof.
  unfold load_view. intros H.
  injection H as Hc Hb Hg Hr Hn He Hd Hgs Hst Hl Hp Hh.
  unfold elem. rewrite He. done.
Qed.

(** X2.  setReverb on a tracked id stores the value clamped to [0,1] in
    the settings and touches no element and no registry entry.  The graph
    of the id is given the new mix only when reverbEnabled is on in the
    settings: with it off no graph object changes, even when the id has a
    graph; with it on, the graph of the id gets the clamped mix and its
    equal-power targets. *)
Theorem X2_setReverb_clamps_and_is_gated (getTitle : Element → string)
    (sched : nat → list nat) (id : nat) (el : elref) (value : Q) (w : World) :
  map_get id (registry w) = Some el →
  let w0 := (ensure_loaded w).2 in
  let w' := (handleAsync getTitle sched (setReverb id value) w).2 in
  let c := math_max 0 (math_min 1 value) in
  settings w' = set_reverb c (settings w0)
  ∧ (0 <= c)%Q ∧ (c <= 1)%Q
  ∧ (∀ x, elem w' x = elem w x)
  ∧ audioGraphRegistry (script w') = audioGraphRegistry (script w)
  ∧ (reverbEnabled (settings w0) = false → graphs (page w') = graphs (page w))
  ∧ (reverbEnabled (settings w0) = true →
     ∀ g G, graphOf w id = Some g → graphs (page w) !! g = Some G →
            is_Some (audioContext (script w)) →
       ∃ G', graphs (page w') !! g = Some G'
         ∧ reverbMix G' = c
         ∧ gain_target (dryGain G') = Some (cos (Q2R c * PI / 2), 2 / 100)%R
         ∧ gain_target (wetGain G') = Some (sin (Q2R c * PI / 2), 2 / 100)%R).
Proof.
  intros Hel w0 w' c.
  pose proof (command_run getTitle sched id el (change_reverb value) w Hel) as Hrun.
  simpl request_of in Hrun. subst w'. rewrite Hrun. clear Hrun.
  destruct (load_view_inv _ _ (ensure_loaded_keeps w))
    as (He0 & Hg0 & Hr0 & Hc0 & _).
  fold w0 in He0, Hg0, Hr0, Hc0 |- *.
  destruct (save_view_inv _ _ (saveSettings_keeps
              (change_body id el (change_reverb value) w0).2))
    as (Hs & He & Hg & Hr & _).
  rewrite Hs, Hg, Hr. setoid_rewrite He. clear Hs He Hg Hr.
  assert ((change_body id el (change_reverb value) w0).2
          = if reverbEnabled (settings w0)
            then updateReverbMix id c (modify_settings (set_reverb c) w0)
            else modify_settings (set_reverb c) w0) as -> by reflexivity.
  destruct (clamp_range value) as (Hc1 & Hc2 & _).
  destruct (reverbEnabled (settings w0)) eqn:Hen.
  - split; [unfold settings; by rewrite updateReverbMix_script|].
    split; [done|]. split; [done|].
    split; [intros x; rewrite updateReverbMix_elem; apply He0|].
    split; [by rewrite updateReverbMix_script|].
    split; [done|].
    intros _ g G Hg1 HG [ctx Hctx].
    unfold updateReverbMix.
    change (graphOf (modify_settings (set_reverb c) w0) id) with (graphOf w0 id).
    change (audioContext (script (modify_settings (set_reverb c) w0)))
      with (audioContext (script w0)).
    unfold graphOf in *. rewrite Hr0, Hc0, Hg1, Hctx. simpl.
    rewrite Hg0, lookup_alter_eq, HG. simpl.
    eexists. split; [reflexivity|]. done.
  - split; [done|]. split; [done|]. split; [done|].
    split; [exact He0|].
    split; [done|]. split; [done|]. done.
Qed.

Lemma reverb_on_facts :
  map_get 1 (registry reverb_on) = Some 10
  ∧ settingsLoaded (script reverb_on) = true
  ∧ reverbEnabled (settings reverb_on) = true
  ∧ graphOf reverb_on 1 = Some 0
  ∧ is_Some (graphs (page reverb_on) !! 0)
  ∧ is_Some (audioContext (script reverb_on)).
Proof.
  assert (is_Some (graphs (page reverb_on) !! 0)) as H1.
  { destruct (graphs (page reverb_on) !! 0) eqn:H; [by eexists|].
    exfalso. revert H. vm_compute. discriminate. }
  repeat split; try (vm_compute; reflexivity); [done|].
  by exists running.
Qed.

Lemma X2_setReverb_clamps_and_is_gated_witness :
  reverb (settings (handleAsync plain_title no_jobs (setReverb 1 (1 # 2)%Q)
                      reverb_on).2) = (1 # 2)%Q.
Proof.
  destruct reverb_on_facts as (Hel & _).
  destruct (X2_setReverb_clamps_and_is_gated plain_title no_jobs 1 10 (1 # 2)%Q
              reverb_on Hel) as (Hs & _).
  rewrite Hs. reflexivity.
Defined.



Lemma reload_of_saved (c : SiteSettings) :
  loaded_settings (Some (SvObject (stored_of (settingsToSave c))))
  = set_reverbEnabled false c.
Proof. destruct c. reflexivity. Qed.



Section Steps.
Context {one : World → World → Prop}.

Lemma steps_once (w w' : World) : one w w' → steps_of one w w'.
Proof. intros H. eapply steps_cons; [exact H|apply steps_refl]. Qed.

Lemma steps_trans (w1 w2 w3 : World) :
  steps_of one w1 w2 → steps_of one w2 w3 → steps_of one w1 w3.
Proof.
  induction 1 as [|w1 w2 w2' H1 H2 IH]; [done|].
  intros H3. eapply steps_cons; [exact H1|by apply IH].
Qed.

Lemma steps_snoc (w1 w2 w3 : World) :
  steps_of one w1 w2 → one w2 w3 → steps_of one w1 w3.
Proof.
  intros H1 H2. eapply steps_trans; [exact H1|by apply steps_once].
Qed.

Lemma steps_fold {A} (f : World → A → World) (l : list A) (w : World) :
  (∀ w a, steps_of one w (f w a)) → steps_of one w (fold_left f l w).
Proof.
  intros Hf. revert w. induction l as [|a l IH]; intros w; simpl;
    [apply steps_refl|].
  eapply steps_trans; [apply Hf|apply IH].
Qed.

(** An invariant of the steps is an invariant of what they make up. *)
Lemma steps_invariant (I : World → Prop) (w w' : World) :
  (∀ w1 w2, one w1 w2 → I w1 → I w2) →
  steps_of one w w' → I w → I w'.
Proof. intros HI. induction 1; eauto. Qed.

Lemma steps_relation (R : World → World → Prop) (w w' : World) :
  (∀ w1, R w1 w1) →
  (∀ w1 w2 w3, R w1 w2 → R w2 w3 → R w1 w3) →
  (∀ w1 w2, one w1 w2 → R w1 w2) →
  steps_of one w w' → R w w'.
Proof. intros Hr Ht Hs. induction 1; eauto. Qed.

End Steps.

Lemma small_steps_world (w w' : World) : small_steps w w' → world_steps w w'.
Proof.
  induction 1 as [|w1 w2 w3 H1 H2 IH]; [apply steps_refl|].
  eapply steps_cons; [by left|exact IH].
Qed.

Lemma applySettingsToElement_small (el : elref) (id : nat) (w : World) :
  small_steps w (applySettingsToElement el id w).
Proof.
  unfold applySettingsToElement. cbv zeta.
  set (c := settings w).
  set (w1 := write_el el (set_e_muted (muted c)) _).
  assert (small_steps w w1) as H1.
  { unfold w1.
    eapply steps_snoc; [|by apply small_write_el].
    eapply steps_snoc; [|by apply small_write_el].
    eapply steps_snoc; [|by apply small_write_el].
    eapply steps_snoc; [|by apply small_write_el].
    apply steps_once. by apply small_write_el. }
  destruct (reverbEnabled c); [|done].
  eapply steps_trans; [exact H1|].
  destruct (graphOf w1 id); apply steps_once; by apply small_enqueue.
Qed.

Lemma getMediaId_small (el : elref) (w : World) :
  small_steps w (getMediaId el w).2.
Proof. apply steps_once, small_identify. Qed.

Lemma identify_and_apply_small (w : World) (el : elref) :
  small_steps w (identify_and_apply w el).
Proof.
  unfold identify_and_apply.
  pose proof (getMediaId_small el w) as H.
  destruct (getMediaId el w) as [id w1]. simpl in H.
  eapply steps_trans; [exact H|apply applySettingsToElement_small].
Qed.

Lemma pruneRegistry_small (w : World) : small_steps w (pruneRegistry w).
Proof.
  apply steps_fold. intros w' entry. apply steps_once, small_prune.
Qed.

Lemma createAudioGraph_try_eq (id : nat) (el : elref) :
  createAudioGraph_try id el
  = (ctx <- initAudioContext ;;
     (if decide (ctx = suspended) then resume else ret tt) ;;;
     build_graph id el).
Proof. reflexivity. Qed.

Lemma initAudioContext_ok (w : World) (ctx : ContextState) :
  (initAudioContext w).1 = Ok ctx →
  audioContext (script (initAudioContext w).2) = Some ctx.
Proof.
  unfold initAudioContext.
  destruct (audioContext (script w)) as [c|] eqn:Hc; [by intros [= <-]|].
  destruct (audio_available (host w)); [|done].
  unfold bind, update, createImpulseResponse. simpl.
  destruct (render_ok (host w)); [|done]. simpl. by intros [= <-].
Qed.

Lemma createAudioGraph_try_small (id : nat) (el : elref) (w : World) :
  small_steps w (createAudioGraph_try id el w).2.
Proof.
  rewrite createAudioGraph_try_eq. unfold bind at 1.
  pose proof (small_init w) as H1.
  pose proof (initAudioContext_ok w) as Hok.
  destruct (initAudioContext w) as [[ctx|] w1]; simpl in H1, Hok;
    [|by apply steps_once].
  specialize (Hok ctx eq_refl).
  eapply steps_cons; [exact H1|].
  unfold bind.
  destruct (decide (ctx = suspended)).
  - pose proof (small_resume w1) as H2.
    assert ((resume w1).1 = Ok tt →
            is_Some (audioContext (script (resume w1).2))) as Hres.
    { unfold resume. destruct (resume_ok (host w1)); [|done]. by eexists. }
    destruct (resume w1) as [[[]|] w2]; simpl in H2, Hres;
      [|by apply steps_once].
    eapply steps_cons; [exact H2|].
    apply steps_once, small_build. by apply Hres.
  - apply steps_once. simpl. apply small_build. by eexists.
Qed.

Lemma try_build_small (id : nat) (el : elref) (w : World) :
  small_steps w (try_catch (createAudioGraph_try id el) (ret None) w).2.
Proof.
  unfold try_catch. pose proof (createAudioGraph_try_small id el w) as H.
  by destruct (createAudioGraph_try id el w) as [[r|] w1].
Qed.

Lemma createAudioGraph_small (id : nat) (el : elref) (w : World) :
  small_steps w (createAudioGraph id el w).2.
Proof.
  unfold createAudioGraph.
  destruct (negb (reverbEnabled (settings w))); [apply steps_refl|].
  destruct (graphOf w id); [apply steps_refl|apply try_build_small].
Qed.

Lemma updateReverbMix_small (id : nat) (m : Q) (w : World) :
  small_steps w (updateReverbMix id m w).
Proof.
  unfold updateReverbMix.
  destruct (graphOf w id); [|apply steps_refl].
  destruct (audioContext (script w)); [|apply steps_refl].
  apply steps_once, small_write_graph. by intros G.
Qed.

Lemma toggleReverb_small (id : nat) (b : bool) (w : World) :
  small_steps w (toggleReverb id b w).2.
Proof.
  unfold toggleReverb.
  destruct (map_get id (registry w)) as [el|]; [|apply steps_refl].
  destruct b.
  - unfold bind, update.
    pose proof (createAudioGraph_small id el w) as H.
    destruct (createAudioGraph id el w) as [[r|] w1]; simpl in *; [|done].
    eapply steps_trans; [exact H|apply updateReverbMix_small].
  - destruct (graphOf w id) as [g|] eqn:Hg; [|apply steps_refl].
    destruct (audioContext (script w)); [|apply steps_refl].
    simpl.
    eapply steps_snoc; [|apply small_enqueue; exact Hg].
    apply steps_once, small_write_graph. by intros G.
Qed.

Lemma run_pending_small (n : nat) (w : World) : small_steps w (run_pending n w).
Proof.
  destruct (pending (page w) !! n) as [cb|] eqn:Hn;
    [|unfold run_pending; rewrite Hn; apply steps_refl].
  destruct cb as [id el|id|g id|].
  - unfold run_pending. rewrite Hn.
    eapply steps_cons; [by eapply small_take_job|].
    unfold run_callback.
    eapply steps_trans; [apply try_build_small|apply updateReverbMix_small].
  - unfold run_pending. rewrite Hn.
    eapply steps_cons; [by eapply small_take_job|].
    apply updateReverbMix_small.
  - apply steps_once. by eapply small_teardown.
  - apply steps_once. by eapply small_first_load.
Qed.

Lemma run_jobs_small (ns : list nat) (w : World) : small_steps w (run_jobs ns w).
Proof.
  apply steps_fold. intros w' n. unfold run_job.
  destruct (pending (page w') !! n) as [cb|]; [|apply steps_refl].
  destruct (is_promise_job cb); [apply run_pending_small|apply steps_refl].
Qed.

Lemma change_body_small (id : nat) (el : elref) (change : SettingChange)
    (w : World) :
  small_steps w (change_body id el change w).2.
Proof.
  destruct change; simpl; unfold bind, update; simpl.
  - eapply steps_snoc; [|apply small_settings].
    apply steps_once. by apply small_write_el.
  - eapply steps_snoc; [|apply small_settings].
    apply steps_once. by apply small_write_el.
  - eapply steps_snoc; [|apply small_settings].
    eapply steps_snoc; [|by apply small_write_el].
    apply steps_once. by apply small_write_el.
  - eapply steps_snoc; [|apply small_settings].
    apply steps_once. by apply small_write_el.
  - match goal with |- context [if ?b then _ else _] => destruct b end.
    + eapply steps_trans; [|apply updateReverbMix_small].
      apply steps_once, small_settings.
    + apply steps_once, small_settings.
  - eapply steps_trans; [|apply toggleReverb_small].
    apply steps_once, small_settings.
Qed.

Lemma applyChange_small (id : nat) (change : SettingChange) (w : World) :
  small_steps w (applyChange id change w).2.
Proof.
  unfold applyChange.
  destruct (map_get id (registry w)) as [el|] eqn:Hel; [|apply steps_refl].
  pose proof (applyChange_run id el change w Hel) as Hrun.
  unfold applyChange in Hrun. rewrite Hel in Hrun. rewrite Hrun. simpl.
  eapply steps_trans; [apply change_body_small|].
  apply steps_once, small_save.
Qed.

Section SmallSteps.
Variable getTitle : Element → string.

Lemma snapshot_small (sched : nat → list nat) (k : nat)
    (entries : list (nat * elref)) (w : World) :
  small_steps w (snapshot getTitle sched k entries w).2.
Proof.
  revert k w. induction entries as [|[id el] entries IH]; intros k w; simpl;
    [apply steps_refl|].
  specialize (IH (S k) (run_jobs (sched k) w)).
  destruct (snapshot getTitle sched (S k) entries (run_jobs (sched k) w))
    as [infos w']. simpl in *.
  eapply steps_trans; [apply run_jobs_small|exact IH].
Qed.

Lemma getAllMedia_small (sched : nat → list nat) (w : World) :
  small_steps w (getAllMedia getTitle sched w).2.
Proof.
  unfold getAllMedia.
  eapply steps_trans; [apply pruneRegistry_small|].
  eapply steps_trans; [|apply snapshot_small].
  apply steps_fold, identify_and_apply_small.
Qed.

Lemma handleAsync_small (sched : nat → list nat) (request : MessageRequest)
    (w : World) :
  small_steps w (handleAsync getTitle sched request w).2.
Proof.
  unfold handleAsync, bind.
  pose proof (small_ensure_loaded w) as H0.
  destruct (ensure_loaded_run w) as (w0 & Hrun & _). rewrite Hrun in *.
  simpl in H0. eapply steps_cons; [exact H0|].
  assert (Hset : ∀ id change,
    small_steps w0 (bind (applyChange id change) (fun _ => ret RespOk) w0).2).
  { intros id change. unfold bind, ret.
    pose proof (applyChange_small id change w0) as H.
    by destruct (applyChange id change w0) as [[b|] w1]. }
  destruct request; try apply Hset; try apply steps_refl.
  unfold lift, ret. pose proof (getAllMedia_small sched w0) as H.
  by destruct (getAllMedia getTitle sched w0).
Qed.

Lemma onMessage_small (sched : nat → list nat) (request : MessageRequest)
    (w : World) :
  small_steps w (onMessage getTitle sched request w).
Proof.
  unfold onMessage. pose proof (handleAsync_small sched request w) as H.
  destruct (handleAsync getTitle sched request w) as [[r|] w']; simpl in *;
    [|exact H].
  eapply steps_trans; [exact H|]. apply steps_once, small_respond.
Qed.

Lemma add_play_listener_small (el : elref) (id : nat) (w : World) :
  small_steps w (add_play_listener el id w).
Proof. apply steps_once, small_listeners. Qed.

Lemma onPlay_small (el : elref) (w : World) : small_steps w (onPlay el w).
Proof.
  unfold onPlay. cbv zeta.
  set (w1 := if document_contains w el then identify_and_apply w el else w).
  assert (H1 : small_steps w w1).
  { unfold w1. destruct (document_contains w el);
      [apply identify_and_apply_small|apply steps_refl]. }
  eapply steps_trans; [exact H1|].
  eapply steps_cons; [apply small_listeners|].
  apply steps_fold. intros w' l. apply applySettingsToElement_small.
Qed.

(** Every transition of the script is made of small steps. *)
Lemma step_script (w : World) (ev : event) :
  by_script ev = true → small_steps w (step getTitle w ev).
Proof.
  destruct ev as [el|added|el|sched request|n|el e|doc]; simpl; try done;
    intros _.
  - unfold onConstruct. pose proof (getMediaId_small el w) as H.
    destruct (getMediaId el w) as [id w1]. simpl in H.
    eapply steps_trans; [exact H|apply add_play_listener_small].
  - apply steps_fold. intros w' el. unfold processMedia.
    pose proof (getMediaId_small el w') as H.
    destruct (getMediaId el w') as [id w1]. simpl in H.
    eapply steps_trans; [exact H|].
    eapply steps_trans; [apply applySettingsToElement_small|].
    apply add_play_listener_small.
  - apply onPlay_small.
  - apply onMessage_small.
  - apply run_pending_small.
Qed.

Lemma step_world (w : World) (ev : event) : world_steps w (step getTitle w ev).
Proof.
  destruct (by_script ev) eqn:Hev; [by apply small_steps_world, step_script|].
  destruct ev as [el|added|el|sched request|n|el e|doc]; try done; simpl.
  - apply steps_once. right. constructor.
  - apply steps_once. right. constructor.
Qed.

Lemma run_world (evs : list event) (w : World) :
  world_steps w (run getTitle evs w).
Proof. apply steps_fold, step_world. Qed.

Lemma run_script (evs : list event) (w : World) :
  Forall (fun ev => by_script ev = true) evs →
  small_steps w (run getTitle evs w).
Proof.
  intros Hall. revert w. induction Hall as [|ev evs Hev _ IH]; intros w;
    [apply steps_refl|].
  simpl. eapply steps_trans; [by apply step_script|apply IH].
Qed.

End SmallSteps.

Lemma boot_eq (h : Host) (els : gmap elref Element) (doc : list elref)
    (store : gmap string StoredValue) :
  boot h els doc store = enqueue CbLoad (initialScan (start_world h els doc store)).
Proof. reflexivity. Qed.

Lemma initialScan_small (w : World) : small_steps w (initialScan w).
Proof. apply steps_fold, identify_and_apply_small. Qed.

(** An invariant of the steps that holds when the script starts holds in
    every world a run reaches. *)
Lemma reachable_invariant (I : World → Prop) :
  (∀ w1 w2, world_step w1 w2 → I w1 → I w2) →
  (∀ w, I w → I (enqueue CbLoad w)) →
  (∀ h els doc store, I (start_world h els doc store)) →
  ∀ getTitle h els doc store evs, I (run getTitle evs (boot h els doc store)).
Proof.
  intros Hstep Hload Hstart getTitle h els doc store evs.
  eapply steps_invariant; [exact Hstep|apply run_world|].
  rewrite boot_eq. apply Hload.
  eapply steps_invariant; [exact Hstep| |apply Hstart].
  apply small_steps_world, initialScan_small.
Qed.

Lemma keeps_build_graph id el : keeps quiet_view (build_graph id el).
Proof.
  unfold build_graph.
  apply keeps_bind; [apply keeps_createMediaElementSource|]. intros _.
  apply keeps_bind; [apply keeps_read|]. intros buffer.
  apply keeps_bind; [by intros w|]. intros g.
  apply keeps_bind; [by apply keeps_update|]. intros _.
  apply keeps_ret.
Qed.

(** A small step other than the save leaves the store and the host as
    they are. *)
Lemma small_step_store (w w' : World) :
  small_step w w' →
  (host w' = host w ∧ storage (page w') = storage (page w))
  ∨ w' = (saveSettings w).2.
Proof.
  intros H. destruct H as [w el|w el f Hf|w l|w cb Hcb|w n cb Hn Hjob
    |w n Hn|w n g id Hn|w|w|w f|w r|w entry|w|w|w id el Hctx|w g f Hf];
    try (left; split; reflexivity); try (by right).
  - left. destruct (getMediaId_settings el w) as (_ & -> & ->). done.
  - left. unfold run_pending. rewrite Hn. simpl. by rewrite loadSettings_run.
  - left. unfold run_pending. by rewrite Hn.
  - left. destruct (load_view_inv _ _ (ensure_loaded_keeps w))
      as (_ & _ & _ & _ & _ & -> & ->). done.
  - left. destruct (prune_entry_keeps w entry) as [Hk _].
    unfold prune_view in Hk. injection Hk as _ _ _ -> ->. done.
  - left. destruct (quiet_view_inv _ _ (keeps_initAudioContext w))
      as (_ & _ & _ & _ & Hh & _ & Hs & _). done.
  - left. destruct (quiet_view_inv _ _ (keeps_resume w))
      as (_ & _ & _ & _ & Hh & _ & Hs & _). done.
  - left. destruct (quiet_view_inv _ _ (keeps_build_graph id el w))
      as (_ & _ & _ & _ & Hh & _ & Hs & _). done.
Qed.

Lemma store_le_refl (w : World) : store_le w w.
Proof. done. Qed.

Lemma store_le_trans (w1 w2 w3 : World) :
  store_le w1 w2 → store_le w2 w3 → store_le w1 w3.
Proof.
  intros (Hh1 & Hk1 & Hw1) (Hh2 & Hk2 & Hw2).
  split; [congruence|]. split.
  - intros key Hkey. rewrite Hk2, Hk1; [done|done|].
    by rewrite (storageKey_host _ _ Hh1).
  - intros Hw. rewrite Hw2, Hw1; [done|done|]. by rewrite Hh1.
Qed.

Lemma small_step_store_le (w w' : World) : small_step w w' → store_le w w'.
Proof.
  intros H. destruct (small_step_store w w' H) as [[Hh Hs]| ->].
  - split; [done|]. by rewrite Hs.
  - destruct (save_view_inv _ _ (saveSettings_keeps w))
      as (_ & _ & _ & _ & _ & Hh).
    split; [done|]. rewrite saveSettings_storage. split.
    + intros key Hkey. destruct (storage_writable (host w)); [|done].
      by rewrite lookup_insert_ne.
    + by intros ->.
Qed.

Lemma world_step_store_le (w w' : World) : world_step w w' → store_le w w'.
Proof.
  intros [H|H]; [by apply small_step_store_le|].
  destruct H as [w el e|w doc]; done.
Qed.

Lemma run_store_le (getTitle : Element → string) (evs : list event) (w : World) :
  store_le w (run getTitle evs w).
Proof.
  eapply steps_relation;
    [apply store_le_refl|apply store_le_trans|apply world_step_store_le
    |apply run_world].
Qed.

Lemma site_key_inj (a b : string) :
  "tuneShifter_" +:+ a = "tuneShifter_" +:+ b → a = b.
Proof. simpl. intros [= H]. exact H. Qed.

(** X5.  Whatever happens on a page (messages, timers, play events,
    insertions, edits by the page), the script writes no key of the store
    but the one of its site: every other key, the records of the other
    sites among them, keeps its value.  The host is never changed, and
    when the browser refuses writes the store stays as it is. *)
Theorem X5_store_of_other_sites_untouched (getTitle : Element → string)
    (evs : list event) (w : World) :
  let w' := run getTitle evs w in
  host w' = host w
  ∧ (∀ key, key ≠ storageKey w →
       storage (page w') !! key = storage (page w) !! key)
  ∧ (∀ site, site ≠ getCurrentDomain w →
       storage (page w') !! ("tuneShifter_" +:+ site)
       = storage (page w) !! ("tuneShifter_" +:+ site))
  ∧ (storage_writable (host w) = false → storage (page w') = storage (page w)).
Proof.
  intros w'. destruct (run_store_le getTitle evs w) as (Hh & Hk & Hw).
  repeat split; try done.
  intros site Hsite. apply Hk. unfold storageKey.
  intros Heq. by apply site_key_inj in Heq.
Qed.

Lemma X5_store_of_other_sites_untouched_witness :
  storage (page (run plain_title [EvMessage no_jobs (setVolume 1 (1 # 4)%Q)]
                   tracked_world)) !! "tuneShifter_example.com"
  = None.
Proof.
  destruct (X5_store_of_other_sites_untouched plain_title
              [EvMessage no_jobs (setVolume 1 (1 # 4)%Q)] tracked_world)
    as (_ & _ & Hsite & _).
  change "tuneShifter_example.com" with ("tuneShifter_" +:+ "example.com").
  rewrite (Hsite "example.com"); [vm_compute; reflexivity|].
  vm_compute. discriminate.
Defined.

(** *** Reads of the store *)

Lemma count_snoc {A} (P : A → Prop) `{∀ x, Decision (P x)} (l : list A) (x : A) :
  length (filter P (l ++ [x]))
  = length (filter P l) + (if decide (P x) then 1 else 0).
Proof.
  rewrite filter_app, length_app. f_equal.
  rewrite filter_cons, filter_nil. by destruct (decide (P x)).
Qed.

Lemma count_delete {A} (P : A → Prop) `{∀ x, Decision (P x)} (l : list A)
    (n : nat) (x : A) :
  l !! n = Some x →
  length (filter P l)
  = length (filter P (delete n l)) + (if decide (P x) then 1 else 0).
Proof.
  intros Hn. rewrite delete_take_drop.
  rewrite <- (take_drop_middle l n x Hn) at 1.
  rewrite !filter_app, !length_app, filter_cons.
  destruct (decide (P x)); simpl; lia.
Qed.

Lemma reads_le_same (w w' : World) : reads_view w' = reads_view w → reads_le w w'.
Proof.
  unfold reads_view, reads_le, read_budget, reads. intros [= -> -> ->]. done.
Qed.

Lemma reads_le_refl (w : World) : reads_le w w.
Proof. by apply reads_le_same. Qed.

Lemma reads_le_trans (w1 w2 w3 : World) :
  reads_le w1 w2 → reads_le w2 w3 → reads_le w1 w3.
Proof.
  intros (H1 & H2 & H3) (H4 & H5 & H6). repeat split; [lia|lia|auto].
Qed.

Lemma keeps_reads_init : keeps reads_view initAudioContext.
Proof.
  intros w. unfold initAudioContext.
  destruct (audioContext (script w)); [done|].
  destruct (audio_available (host w)); [|done].
  unfold bind, update, createImpulseResponse. simpl.
  by destruct (render_ok (host w)).
Qed.

Lemma keeps_reads_resume : keeps reads_view resume.
Proof. intros w. unfold resume. by destruct (resume_ok (host w)). Qed.

Lemma keeps_reads_build id el : keeps reads_view (build_graph id el).
Proof.
  intros w. unfold build_graph, bind, createMediaElementSource.
  by destruct (e_tapped (elem w el) || negb (e_tappable (elem w el))).
Qed.

Lemma small_step_reads (w w' : World) : small_step w w' → reads_le w w'.
Proof.
  intros H. destruct H as [w el|w el f Hf|w l|w cb Hcb|w n cb Hn Hjob
    |w n Hn|w n g id Hn|w|w|w f|w r|w entry|w|w|w id el Hctx|w g f Hf];
    try (apply reads_le_same; reflexivity).
  - apply reads_le_same. unfold getMediaId.
    by destruct (find_id el (registry w)).
  - unfold reads_le, read_budget, reads. simpl.
    rewrite count_snoc.
    destruct cb; simpl in *; try done; try (rewrite decide_False by done);
      repeat split; try lia; done.
  - unfold reads_le, read_budget, reads. simpl.
    rewrite (count_delete (fun cb => is_first_load cb = true) _ _ _ Hn).
    destruct cb; simpl in *; try done; try (rewrite decide_False by done);
      repeat split; try lia; done.
  - unfold run_pending. rewrite Hn. simpl run_callback. rewrite loadSettings_run.
    unfold reads_le, read_budget, reads. simpl.
    rewrite (count_delete (fun cb => is_first_load cb = true) _ _ _ Hn).
    rewrite count_snoc. simpl. try (rewrite !decide_True by done).
    destruct (settingsLoaded (script w)); repeat split; try lia; done.
  - unfold run_pending. rewrite Hn. simpl run_callback.
    unfold reads_le, read_budget, reads. simpl.
    rewrite (count_delete (fun cb => is_first_load cb = true) _ _ _ Hn).
    simpl. try (rewrite decide_False by done). repeat split; try lia; done.
  - unfold ensure_loaded.
    destruct (settingsLoaded (script w)) eqn:Hl; [apply reads_le_refl|].
    rewrite loadSettings_run.
    unfold reads_le, read_budget, reads. simpl. rewrite Hl.
    rewrite count_snoc. simpl. try (rewrite decide_True by done).
    repeat split; try lia; done.
  - rewrite saveSettings_run.
    unfold reads_le, read_budget, reads. simpl.
    assert (log (page (if storage_writable (host w)
                       then with_page (fun p =>
                              set_storage
                                (<[storageKey w :=
                                    SvObject (stored_of (settingsToSave (settings w)))]>
                                   (storage p)) p) w
                       else w)) = log (page w)) as ->
      by by destruct (storage_writable (host w)).
    rewrite count_snoc. simpl. try (rewrite decide_False by done).
    destruct (storage_writable (host w)); repeat split; simpl; try lia; done.
  - unfold reads_le, read_budget, reads. simpl.
    rewrite count_snoc. simpl. try (rewrite decide_False by done).
    repeat split; try lia; done.
  - apply reads_le_same. unfold prune_entry. destruct entry as [id el].
    by destruct (prunable w el).
  - apply reads_le_same, keeps_reads_init.
  - apply reads_le_same, keeps_reads_resume.
  - apply reads_le_same, keeps_reads_build.
Qed.

Lemma world_step_reads (w w' : World) : world_step w w' → reads_le w w'.
Proof.
  intros [H|H]; [by apply small_step_reads|].
  destruct H as [w el e|w doc]; apply reads_le_same; reflexivity.
Qed.

Lemma run_reads_le (getTitle : Element → string) (evs : list event) (w : World) :
  reads_le w (run getTitle evs w).
Proof.
  eapply steps_relation;
    [apply reads_le_refl|apply reads_le_trans|apply world_step_reads
    |apply run_world].
Qed.

Lemma boot_read_budget (h : Host) (els : gmap elref Element) (doc : list elref)
    (store : gmap string StoredValue) :
  read_budget (boot h els doc store) ≤ 2.
Proof.
  rewrite boot_eq.
  assert (reads_le (start_world h els doc store)
            (initialScan (start_world h els doc store))) as (H1 & _ & _).
  { eapply steps_relation;
      [apply reads_le_refl|apply reads_le_trans|apply small_step_reads
      |apply initialScan_small]. }
  revert H1. unfold read_budget, reads. simpl. rewrite count_snoc. simpl.
  try (rewrite decide_True by done).
  destruct (settingsLoaded (script (initialScan (start_world h els doc store))));
    lia.
Qed.

Lemma fold_log {A} (f : World → A → World) (l : list A) (w : World) :
  (∀ w a, log (page (f w a)) = log (page w)) →
  log (page (fold_left f l w)) = log (page w).
Proof.
  intros Hf. revert w. induction l as [|a l IH]; intros w; [done|].
  simpl. by rewrite IH, Hf.
Qed.

Lemma getAllMedia_log (getTitle : Element → string) (sched : nat → list nat)
    (w : World) :
  log (page (getAllMedia getTitle sched w).2) = log (page w).
Proof.
  unfold getAllMedia.
  match goal with |- context [snapshot _ _ _ ?r ?w2] =>
    destruct (snapshot_spec getTitle sched 0 r w2) as (_ & _ & Hq) end.
  apply quiet_view_inv in Hq as (_ & _ & _ & _ & _ & _ & _ & _ & ->).
  rewrite fold_log.
  - destruct (pruneRegistry_keeps w) as [Hv _]. unfold prune_view in Hv.
    by injection Hv as _ _ _ -> _.
  - intros w' el. unfold identify_and_apply.
    destruct (getMediaId_settings el w') as (_ & Hp & _).
    destruct (getMediaId el w') as [id w1]. simpl in Hp. rewrite <- Hp.
    by destruct (quiet_view_inv _ _ (keeps_applySettingsToElement el id w1))
      as (_ & _ & _ & _ & _ & _ & _ & _ & ->).
Qed.

(** A message handled when the settings are loaded reads nothing. *)
Lemma onMessage_reads (getTitle : Element → string) (sched : nat → list nat)
    (request : MessageRequest) (w : World) :
  settingsLoaded (script w) = true →
  reads (onMessage getTitle sched request w) = reads w.
Proof.
  intros Hl. unfold onMessage.
  destruct (never_throws_handleAsync getTitle sched request w) as [r Hr].
  destruct (handleAsync getTitle sched request w) as [o w'] eqn:Hrun.
  simpl in Hr. subst o.
  assert (reads w' = reads w) as <-.
  { destruct (ensure_loaded_run w) as (w0 & Hw0 & _ & _ & _ & _ & _ & Hsame & _).
    specialize (Hsame Hl). subst w0.
    assert (∀ id change,
      reads (handleAsync getTitle sched (request_of id change) w).2 = reads w)
      as Hcmd.
    { intros id change. rewrite handleAsync_command, Hw0. simpl.
      destruct (map_get id (registry w)) as [el|] eqn:Hel.
      - destruct (applyChange_tracked id el change w Hel) as (w1 & -> & _ & Hlog).
        unfold reads. simpl. rewrite Hlog, count_snoc. simpl.
        try (rewrite decide_False by done). lia.
      - unfold applyChange. by rewrite Hel. }
    destruct request.
    - unfold handleAsync, bind in Hrun. rewrite Hw0 in Hrun. by injection Hrun as _ <-.
    - rewrite handleAsync_getMedia, Hw0 in Hrun. injection Hrun as _ <-.
      unfold reads. by rewrite getAllMedia_log.
    - specialize (Hcmd id (change_volume value)). simpl in Hcmd.
      by rewrite Hrun in Hcmd.
    - specialize (Hcmd id (change_playbackRate value)). simpl in Hcmd.
      by rewrite Hrun in Hcmd.
    - specialize (Hcmd id (change_preservesPitch value)). simpl in Hcmd.
      by rewrite Hrun in Hcmd.
    - specialize (Hcmd id (change_muted value)). simpl in Hcmd.
      by rewrite Hrun in Hcmd.
    - specialize (Hcmd id (change_reverb value)). simpl in Hcmd.
      by rewrite Hrun in Hcmd.
    - specialize (Hcmd id (change_reverbEnabled value)). simpl in Hcmd.
      by rewrite Hrun in Hcmd.
    - unfold handleAsync, bind in Hrun. rewrite Hw0 in Hrun. by injection Hrun as _ <-. }
  unfold reads. simpl. rewrite count_snoc. simpl.
  try (rewrite decide_False by done). lia.
Qed.

Lemma no_first_load (l : list callback) :
  CbLoad ∉ l → filter (fun cb => is_first_load cb = true) l = [].
Proof.
  induction l as [|cb l IH]; [done|].
  intros Hn. apply not_elem_of_cons in Hn as [Hcb Hl].
  rewrite filter_cons. destruct cb; simpl; try done; by apply IH.
Qed.

(** A message leaves the settings loaded. *)
Lemma onMessage_loaded (getTitle : Element → string) (sched : nat → list nat)
    (request : MessageRequest) (w : World) :
  settingsLoaded (script (onMessage getTitle sched request w)) = true.
Proof.
  unfold onMessage.
  assert (settingsLoaded (script (handleAsync getTitle sched request w).2) = true)
    as Hl.
  { unfold handleAsync, bind.
    destruct (ensure_loaded_run w) as (w0 & -> & _ & _ & _ & _ & Hl0 & _).
    match goal with |- context [?k w0] =>
      assert (small_steps w0 (k w0).2) as Hs end.
    { pose proof (handleAsync_small getTitle sched request w0) as Hs.
      unfold handleAsync, bind in Hs.
      assert (ensure_loaded w0 = (Ok tt, w0)) as Hw0.
      { unfold ensure_loaded. by rewrite Hl0. }
      by rewrite Hw0 in Hs. }
    eapply (steps_relation reads_le) in Hs;
      [|apply reads_le_refl|apply reads_le_trans|apply small_step_reads].
    destruct Hs as (_ & _ & Hs). by apply Hs. }
  by destruct (handleAsync getTitle sched request w) as [[r|] w'].
Qed.



Lemma graphs_wf_frame (w w' : World) :
  graphs (page w') = graphs (page w) →
  audioGraphRegistry (script w') = audioGraphRegistry (script w) →
  (∀ x, e_tapped (elem w' x) = e_tapped (elem w x)) →
  (∀ g id, CbTeardown g id ∈ pending (page w') →
           CbTeardown g id ∈ pending (page w)) →
  graphs_wf w → graphs_wf w'.
Proof.
  intros Hg Hr He Hp (H1 & H2 & H3 & H4 & H5).
  unfold graphs_wf, graphOf. rewrite Hg, Hr.
  repeat split.
  - rewrite He. by eapply H1.
  - by eapply H1.
  - exact H2.
  - exact H3.
  - exact H4.
  - by eapply H5, Hp.
  - by eapply H5, Hp.
Qed.

Lemma graphs_wf_same (w w' : World) :
  graph_view w' = graph_view w → graphs_wf w → graphs_wf w'.
Proof.
  unfold graph_view. intros [= Hg Hr He Hp].
  apply graphs_wf_frame; try done.
  - intros x. unfold elem. by rewrite He.
  - intros g id. by rewrite Hp.
Qed.

Lemma keeps_graph_view_init : keeps graph_view initAudioContext.
Proof.
  intros w. unfold initAudioContext.
  destruct (audioContext (script w)); [done|].
  destruct (audio_available (host w)); [|done].
  unfold bind, update, createImpulseResponse. simpl.
  by destruct (render_ok (host w)).
Qed.

Lemma keeps_graph_view_resume : keeps graph_view resume.
Proof. intros w. unfold resume. by destruct (resume_ok (host w)). Qed.

Lemma elem_of_delete_index {A} (l : list A) (n : nat) (x : A) :
  x ∈ delete n l → x ∈ l.
Proof. apply list_elem_of_delete_inv. Qed.

(** The two ways out of [build_graph]. *)
Lemma build_graph_cases (id : nat) (el : elref) (w : World) :
  (build_graph id el w).2 = w
  ∨ e_tapped (elem w el) = false
    ∧ ∃ g G, graphs (page w) !! g = None
      ∧ sourceNode G = el ∧ g_connected G = true ∧ g_reverbEnabled G = true
      ∧ convolver G = impulseResponseBuffer (script w)
      ∧ elements (page (build_graph id el w).2)
          = <[el := set_e_tapped true (elem w el)]> (elements (page w))
      ∧ graphs (page (build_graph id el w).2) = <[g := G]> (graphs (page w))
      ∧ audioGraphRegistry (script (build_graph id el w).2)
          = <[id := g]> (audioGraphRegistry (script w))
      ∧ pending (page (build_graph id el w).2) = pending (page w).
Proof.
  unfold build_graph, bind, createMediaElementSource.
  destruct (e_tapped (elem w el)) eqn:Ht; simpl; [by left|].
  destruct (e_tappable (elem w el)) eqn:Hp; simpl; [|by left].
  right. split; [done|].
  eexists _, _. split; [apply not_elem_of_dom, is_fresh|].
  repeat split; reflexivity.
Qed.

Ltac wf_parts := refine (conj _ (conj _ (conj _ (conj _ _)))).

Lemma small_step_graphs_wf (w w' : World) :
  small_step w w' → graphs_wf w → graphs_wf w'.
Proof.
  intros H. destruct H as [w el|w el f Hf|w l|w cb Hcb|w n cb Hn Hjob
    |w n Hn|w n g id Hn|w|w|w f|w r|w entry|w|w|w id el Hctx|w g f Hf].
  - apply graphs_wf_same. unfold getMediaId.
    by destruct (find_id el (registry w)).
  - apply graphs_wf_frame; try done. intros x. apply e_tapped_write_el.
    intros e. apply Hf.
  - by apply graphs_wf_same.
  - (* a callback is queued *)
    intros (H1 & H2 & H3 & H4 & H5). wf_parts; try done.
    intros g id Hin. simpl in Hin.
    apply elem_of_app in Hin as [Hin|Hin]; [by apply H5|].
    apply list_elem_of_singleton in Hin. subst cb. simpl in Hcb.
    split.
    + destruct (H3 _ _ Hcb) as (G & HG & _). by eexists.
    + intros id' Hid'. by eapply H4.
  - apply graphs_wf_frame; try done. intros g id. simpl.
    apply elem_of_delete_index.
  - unfold run_pending. rewrite Hn. simpl run_callback. rewrite loadSettings_run.
    apply graphs_wf_frame; try done. intros g id. simpl.
    apply elem_of_delete_index.
  - (* the teardown of a disable *)
    unfold run_pending. rewrite Hn. simpl run_callback.
    intros (H1 & H2 & H3 & H4 & H5).
    assert (CbTeardown g id ∈ pending (page w)) as Hin
      by by eapply list_elem_of_lookup_2.
    destruct (H5 _ _ Hin) as [_ Honly].
    assert (∀ g' G', alter disconnect g (graphs (page w)) !! g' = Some G' →
              ∃ G0, graphs (page w) !! g' = Some G0
                ∧ sourceNode G0 = sourceNode G'
                ∧ g_reverbEnabled G0 = g_reverbEnabled G') as Hold.
    { intros g' G'. rewrite lookup_alter. case_decide.
      - subst g'. destruct (graphs (page w) !! g) as [G0|]; [|done].
        intros [= <-]. by exists G0.
      - intros HG'. by exists G'. }
    unfold graphs_wf, graphOf. simpl. wf_parts.
    + intros g' G' HG'. destruct (Hold _ _ HG') as (G0 & HG0 & <- & <-).
      by eapply H1.
    + intros g1 g2 G1 G2 HG1 HG2.
      destruct (Hold _ _ HG1) as (G1' & HG1' & <- & _).
      destruct (Hold _ _ HG2) as (G2' & HG2' & <- & _). by eapply H2.
    + intros id' g'. rewrite lookup_delete. case_decide as Hid; [done|].
      intros Hg'. destruct (H3 _ _ Hg') as (G & HG & Hc).
      assert (g' ≠ g) as Hne.
      { intros ->. apply Hid. symmetry. by apply Honly. }
      exists G. by rewrite lookup_alter_ne.
    + intros id1 id2 g'. rewrite !lookup_delete.
      repeat case_decide; try done. apply H4.
    + intros g' id' Hin'. apply elem_of_delete_index in Hin'.
      destruct (H5 _ _ Hin') as [[G HG] Honly']. split.
      * rewrite lookup_alter. case_decide; [subst; rewrite HG|rewrite HG];
          by eexists.
      * intros id2. rewrite lookup_delete. case_decide; [done|]. apply Honly'.
  - eapply graphs_wf_same.
    pose proof (ensure_loaded_keeps w) as Hk. unfold load_view in Hk.
    unfold graph_view. by injection Hk as _ _ -> _ _ -> _ -> _ _ -> _.
  - eapply graphs_wf_same.
    pose proof (saveSettings_keeps w) as Hk. unfold save_view in Hk.
    unfold graph_view. by injection Hk as -> -> _ -> _ -> _.
  - by apply graphs_wf_same.
  - by apply graphs_wf_same.
  - (* an entry is pruned *)
    unfold prune_entry. destruct entry as [id el].
    destruct (prunable w el); [|done].
    intros (H1 & H2 & H3 & H4 & H5).
    unfold graphs_wf, graphOf. simpl. wf_parts.
    + exact H1.
    + exact H2.
    + intros id' g'. rewrite lookup_delete. case_decide; [done|]. apply H3.
    + intros id1 id2 g'. rewrite !lookup_delete.
      repeat case_decide; try done. apply H4.
    + intros g' id' Hin'. destruct (H5 _ _ Hin') as [HG Honly']. split; [done|].
      intros id2. rewrite lookup_delete. case_decide; [done|]. apply Honly'.
  - apply graphs_wf_same, keeps_graph_view_init.
  - apply graphs_wf_same, keeps_graph_view_resume.
  - (* a graph is built *)
    destruct (build_graph_cases id el w) as [->|(Ht & g & G & Hfresh & Hsrc & Hc
      & Hen & _ & Hels & Hgs & Hreg & Hpd)]; [done|].
    intros (H1 & H2 & H3 & H4 & H5).
    assert (∀ x, e_tapped (elem w x) = true →
                 e_tapped (elem (build_graph id el w).2 x) = true) as Htap.
    { intros x Hx. unfold elem at 1. rewrite Hels, lookup_insert.
      case_decide; [done|exact Hx]. }
    unfold graphs_wf, graphOf. rewrite Hgs, Hreg, Hpd. wf_parts.
    + intros g' G'. rewrite lookup_insert. case_decide.
      * intros [= <-]. rewrite Hsrc. split; [|done].
        unfold elem. by rewrite Hels, lookup_insert_eq.
      * intros HG. destruct (H1 _ _ HG). split; [by apply Htap|done].
    + intros g1 g2 G1 G2. rewrite !lookup_insert.
      case_decide as Hg1; case_decide as Hg2; try congruence.
      * intros [= <-] HG2 Heq. exfalso.
        destruct (H1 _ _ HG2) as [Ht2 _]. congruence.
      * intros HG1 [= <-] Heq. exfalso.
        destruct (H1 _ _ HG1) as [Ht1 _]. congruence.
      * apply H2.
    + intros id' g'. rewrite lookup_insert. case_decide.
      * intros [= <-]. exists G. by rewrite lookup_insert_eq.
      * intros Hg'. destruct (H3 _ _ Hg') as (G' & HG' & Hc').
        exists G'. rewrite lookup_insert_ne; [done|]. congruence.
    + intros id1 id2 g'. rewrite !lookup_insert.
      case_decide as Hi1; case_decide as Hi2; try congruence.
      * intros [= <-] Hg'. destruct (H3 _ _ Hg') as (G' & HG' & _). congruence.
      * intros Hg' [= <-]. destruct (H3 _ _ Hg') as (G' & HG' & _). congruence.
      * apply H4.
    + intros g' id' Hin'. destruct (H5 _ _ Hin') as [[G' HG'] Honly']. split.
      * rewrite lookup_insert. case_decide; by eexists.
      * intros id2. rewrite lookup_insert. case_decide.
        -- intros [= <-]. congruence.
        -- apply Honly'.
  - (* gains and mix *)
    intros (H1 & H2 & H3 & H4 & H5).
    assert (∀ g' G', graphs (page (write_graph g f w)) !! g' = Some G' →
              ∃ G0, graphs (page w) !! g' = Some G0
                ∧ sourceNode G0 = sourceNode G'
                ∧ g_reverbEnabled G0 = g_reverbEnabled G'
                ∧ g_connected G0 = g_connected G') as Hold.
    { intros g' G'. simpl. rewrite lookup_alter. case_decide.
      - subst g'. destruct (graphs (page w) !! g) as [G0|]; [|done].
        intros [= <-]. exists G0. destruct (Hf G0) as (-> & _ & -> & ->). done.
      - intros HG'. by exists G'. }
    unfold graphs_wf, graphOf. wf_parts.
    + intros g' G' HG'. destruct (Hold _ _ HG') as (G0 & HG0 & <- & <- & _).
      by eapply H1.
    + intros g1 g2 G1 G2 HG1 HG2.
      destruct (Hold _ _ HG1) as (G1' & HG1' & <- & _).
      destruct (Hold _ _ HG2) as (G2' & HG2' & <- & _). by eapply H2.
    + intros id' g' Hg'. destruct (H3 _ _ Hg') as (G0 & HG0 & Hc0).
      simpl. rewrite lookup_alter. case_decide.
      * subst g'. rewrite HG0. simpl. eexists. split; [done|].
        destruct (Hf G0) as (_ & _ & _ & ->). done.
      * by exists G0.
    + apply H4.
    + intros g' id' Hin'. destruct (H5 _ _ Hin') as [[G0 HG0] Honly']. split.
      * simpl. rewrite lookup_alter.
        case_decide; [subst; rewrite HG0|rewrite HG0]; by eexists.
      * apply Honly'.
Qed.

Lemma world_step_graphs_wf (w w' : World) :
  world_step w w' → graphs_wf w → graphs_wf w'.
Proof.
  intros [H|H]; [by apply small_step_graphs_wf|].
  destruct H as [w el e|w doc]; [|by apply graphs_wf_same].
  apply graphs_wf_frame; try done. intros x. by apply e_tapped_write_el.
Qed.

Lemma graphs_wf_reachable (getTitle : Element → string) (h : Host)
    (els : gmap elref Element) (doc : list elref)
    (store : gmap string StoredValue) (evs : list event) :
  graphs_wf (run getTitle evs (boot h els doc store)).
Proof.
  apply reachable_invariant.
  - apply world_step_graphs_wf.
  - intros w. apply graphs_wf_frame; try done.
    intros g id Hin. simpl in Hin.
    apply elem_of_app in Hin as [Hin|Hin]; [done|].
    by apply list_elem_of_singleton in Hin.
  - intros h' els' doc' store'. unfold graphs_wf, graphOf. simpl. wf_parts.
    + intros g G. by rewrite lookup_empty.
    + intros g1 g2 G1 G2. by rewrite lookup_empty.
    + intros id g. by rewrite lookup_empty.
    + intros id id' g. by rewrite lookup_empty.
    + intros g id Hin. by apply elem_of_nil in Hin.
Qed.

Lemma graphs_le_refl (w : World) : graphs_le w w.
Proof. split; [done|]. intros g G HG. by exists G. Qed.

Lemma graphs_le_trans (w1 w2 w3 : World) :
  graphs_le w1 w2 → graphs_le w2 w3 → graphs_le w1 w3.
Proof.
  intros [Ht1 Hg1] [Ht2 Hg2]. split; [auto|].
  intros g G HG. destruct (Hg1 _ _ HG) as (G' & HG' & Hs' & Hc').
  destruct (Hg2 _ _ HG') as (G'' & HG'' & Hs'' & Hc'').
  exists G''. split; [done|]. split; [congruence|auto].
Qed.

Lemma graphs_le_frame (w w' : World) :
  elements (page w') = elements (page w) →
  graphs (page w') = graphs (page w) → graphs_le w w'.
Proof.
  intros He Hg. unfold graphs_le, elem.
  rewrite Hg, He. split; [done|]. intros g G HG. by exists G.
Qed.

Lemma graphs_le_same (w w' : World) :
  graph_view w' = graph_view w → graphs_le w w'.
Proof.
  unfold graph_view. intros [= Hg Hr He Hp]. by apply graphs_le_frame.
Qed.

Lemma graphs_le_alter (g : gref) (f : MediaAudioGraph → MediaAudioGraph)
    (w w' : World) :
  (∀ G, sourceNode (f G) = sourceNode G
        ∧ (g_connected G = false → g_connected (f G) = false)) →
  elements (page w') = elements (page w) →
  graphs (page w') = alter f g (graphs (page w)) →
  graphs_le w w'.
Proof.
  intros Hf He Hg. unfold graphs_le, elem. rewrite He, Hg.
  split; [done|]. intros g' G HG. rewrite lookup_alter. case_decide.
  - subst g'. rewrite HG. simpl. eexists. split; [done|]. apply Hf.
  - by exists G.
Qed.

Lemma small_step_graphs_le (w w' : World) : small_step w w' → graphs_le w w'.
Proof.
  intros H. destruct H as [w el|w el f Hf|w l|w cb Hcb|w n cb Hn Hjob
    |w n Hn|w n g id Hn|w|w|w f|w r|w entry|w|w|w id el Hctx|w g f Hf].
  - apply graphs_le_same. unfold getMediaId.
    by destruct (find_id el (registry w)).
  - split.
    + intros x. rewrite e_tapped_write_el; [done|]. intros e. apply Hf.
    + intros g G HG. by exists G.
  - by apply graphs_le_frame.
  - by apply graphs_le_frame.
  - by apply graphs_le_frame.
  - apply graphs_le_frame; unfold run_pending; rewrite Hn; simpl run_callback;
      by rewrite loadSettings_run.
  - unfold run_pending. rewrite Hn. simpl run_callback.
    by apply (graphs_le_alter g disconnect).
  - apply graphs_le_same.
    pose proof (ensure_loaded_keeps w) as Hk. unfold load_view in Hk.
    unfold graph_view. by injection Hk as _ _ -> _ _ -> _ -> _ _ -> _.
  - apply graphs_le_same.
    pose proof (saveSettings_keeps w) as Hk. unfold save_view in Hk.
    unfold graph_view. by injection Hk as -> -> _ -> _ -> _.
  - by apply graphs_le_frame.
  - by apply graphs_le_frame.
  - unfold prune_entry. destruct entry as [id el].
    destruct (prunable w el); by apply graphs_le_frame.
  - apply graphs_le_same, keeps_graph_view_init.
  - apply graphs_le_same, keeps_graph_view_resume.
  - destruct (build_graph_cases id el w) as [->|(Ht & g & G & Hfresh & Hsrc & Hc
      & Hen & _ & Hels & Hgs & Hreg & Hpd)]; [apply graphs_le_refl|].
    split.
    + intros x Hx. unfold elem at 1. rewrite Hels, lookup_insert.
      case_decide; [done|exact Hx].
    + intros g' G' HG'. exists G'. rewrite Hgs, lookup_insert_ne; [done|].
      congruence.
  - apply (graphs_le_alter g f); try done.
    intros G. destruct (Hf G) as (-> & _ & _ & ->). done.
Qed.

Lemma world_step_graphs_le (w w' : World) : world_step w w' → graphs_le w w'.
Proof.
  intros [H|H]; [by apply small_step_graphs_le|].
  destruct H as [w el e|w doc]; [|by apply graphs_le_frame].
  split.
  - intros x. unfold page_edit. by rewrite e_tapped_write_el.
  - intros g G HG. by exists G.
Qed.

Lemma run_graphs_le (getTitle : Element → string) (evs : list event) (w : World) :
  graphs_le w (run getTitle evs w).
Proof.
  eapply steps_relation;
    [apply graphs_le_refl|apply graphs_le_trans|apply world_step_graphs_le
    |apply run_world].
Qed.

(** X7.  In every world a run reaches from the start of the script: no
    element is under two graph objects (an element is tapped at most once
    over the life of the page); a graph of the registry exists, is
    connected, and its element is tapped; no graph stands under two ids;
    and buildMediaInfo reports reverbEnabled exactly for the ids that have
    a graph in the registry. *)
Theorem X7_graphs_of_every_run (getTitle : Element → string) (h : Host)
    (els : gmap elref Element) (doc : list elref)
    (store : gmap string StoredValue) (evs : list event) :
  let w := run getTitle evs (boot h els doc store) in
  (∀ g1 g2 G1 G2,
     graphs (page w) !! g1 = Some G1 → graphs (page w) !! g2 = Some G2 →
     sourceNode G1 = sourceNode G2 → g1 = g2)
  ∧ (∀ id g, graphOf w id = Some g →
       ∃ G, graphs (page w) !! g = Some G
         ∧ g_connected G = true
         ∧ e_tapped (elem w (sourceNode G)) = true)
  ∧ (∀ id id' g, graphOf w id = Some g → graphOf w id' = Some g → id = id')
  ∧ (∀ el id,
       mi_reverbEnabled (buildMediaInfo getTitle el id w) = true
       ↔ is_Some (graphOf w id)).
Proof.
  intros w.
  destruct (graphs_wf_reachable getTitle h els doc store evs)
    as (H1 & H2 & H3 & H4 & _).
  fold w in H1, H2, H3, H4.
  split; [exact H2|]. split; [|split; [exact H4|]].
  - intros id g Hg. destruct (H3 _ _ Hg) as (G & HG & Hc).
    exists G. split; [done|]. split; [done|]. by eapply H1.
  - intros el id. unfold buildMediaInfo, graph_object. simpl.
    destruct (graphOf w id) as [g|] eqn:Hg; simpl.
    + destruct (H3 _ _ Hg) as (G & HG & _). rewrite HG.
      destruct (H1 _ _ HG) as [_ ->]. split; [by eexists|done].
    + split; [done|]. by intros [? ?].
Qed.

Lemma X7_graphs_of_every_run_witness :
  mi_reverbEnabled (buildMediaInfo plain_title 10 1 reverb_on) = true.
Proof.
  destruct (X7_graphs_of_every_run plain_title example_host {[ 10 := song ]} [10] ∅
              [EvCallback 0; EvMessage no_jobs (setReverbEnabled 1 true)])
    as (_ & _ & _ & Hrep).
  apply Hrep. exists 0. vm_compute. reflexivity.
Defined.

(** X8.  Once the nodes of a graph are disconnected (the timer of a
    disable has run), the element of that graph stays tapped, no graph of
    the registry is over that element at any later time, and building a
    graph for it fails and changes nothing: reverb cannot be switched on
    again for that element while the page lives. *)
Theorem X8_disconnected_element_gets_no_graph_again (getTitle : Element → string)
    (h : Host) (els : gmap elref Element) (doc : list elref)
    (store : gmap string StoredValue) (evs more : list event)
    (g : gref) (G : MediaAudioGraph) :
  let w := run getTitle evs (boot h els doc store) in
  let w' := run getTitle more w in
  graphs (page w) !! g = Some G →
  g_connected G = false →
  e_tapped (elem w' (sourceNode G)) = true
  ∧ (∀ id g' G', graphOf w' id = Some g' → graphs (page w') !! g' = Some G' →
       sourceNode G' ≠ sourceNode G)
  ∧ (∀ id, (build_graph id (sourceNode G) w').2 = w').
Proof.
  intros w w' HG Hoff.
  assert (graphs_wf w') as (H1 & H2 & H3 & H4 & _).
  { unfold w', w, run. rewrite <- fold_left_app.
    apply graphs_wf_reachable. }
  destruct (run_graphs_le getTitle more w) as [_ Hkeep]. fold w' in Hkeep.
  destruct (Hkeep _ _ HG) as (G1 & HG1 & Hsrc & Hoff1).
  assert (e_tapped (elem w' (sourceNode G)) = true) as Htap.
  { rewrite <- Hsrc. by eapply H1. }
  split; [exact Htap|]. split.
  - intros id g' G' Hg' HG' Heq.
    destruct (H3 _ _ Hg') as (G2 & HG2 & Hon).
    assert (G2 = G') as -> by congruence.
    assert (g' = g) as -> by (eapply H2; [exact HG'|exact HG1|congruence]).
    assert (G' = G1) as -> by congruence.
    rewrite (Hoff1 Hoff) in Hon. done.
  - intros id. unfold build_graph, bind, createMediaElementSource.
    by rewrite Htap.
Qed.

Lemma switched_off_graph :
  (fun G => (g_connected G, sourceNode G)) <$> graphs (page switched_off) !! 0
  = Some (false, 10).
Proof. vm_compute. reflexivity. Qed.

Lemma X8_disconnected_element_gets_no_graph_again_witness :
  let w' := run plain_title [EvMessage no_jobs (setReverbEnabled 1 true)]
              switched_off in
  (build_graph 1 10 w').2 = w'.
Proof.
  pose proof switched_off_graph as Hg.
  destruct (graphs (page switched_off) !! 0) as [G|] eqn:HG;
    [|discriminate Hg].
  injection Hg as Hoff Hsrc.
  unfold switched_off in *.
  destruct (X8_disconnected_element_gets_no_graph_again plain_title example_host
              {[ 10 := song ]} [10] ∅ switched_off_events
              [EvMessage no_jobs (setReverbEnabled 1 true)] 0 G HG Hoff)
    as (_ & _ & Hb).
  rewrite Hsrc in Hb. exact (Hb 1).
Defined.

Lemma createAudioGraph_try_outcome (id : nat) (el : elref) (w : World) :
  let r := createAudioGraph_try id el w in
  if buildable w el
  then ∃ g G, r.1 = Ok (Some g)
         ∧ graphs (page w) !! g = None
         ∧ elements (page r.2)
             = <[el := set_e_tapped true (elem w el)]> (elements (page w))
         ∧ audioGraphRegistry (script r.2) = <[id := g]> (audioGraphRegistry (script w))
         ∧ graphs (page r.2) = <[g := G]> (graphs (page w))
         ∧ audioContext (script r.2) = Some running
         ∧ pending (page r.2) = pending (page w)
         ∧ G = {| sourceNode := el; dryGain := gain_at 1%R; wetGain := gain_at 0%R;
                  convolver := impulseResponseBuffer (script r.2); reverbMix := 0;
                  g_reverbEnabled := true; g_connected := true |}
  else r.1 = Throw
       ∧ elements (page r.2) = elements (page w)
       ∧ audioGraphRegistry (script r.2) = audioGraphRegistry (script w)
       ∧ graphs (page r.2) = graphs (page w)
       ∧ pending (page r.2) = pending (page w).
Proof.
  unfold buildable, context_obtainable, createAudioGraph_try, initAudioContext,
    createImpulseResponse, resume, createMediaElementSource, new_graph.
  unfold bind, ret, update, read.
  destruct w as [[cs ld ctx irb agr mr nid] [els doc gs st ls pd lg]
                 [hn sr sw aa ro cst rok]].
  unfold elem. simpl.
  destruct ctx as [[]|]; simpl.
  - destruct (e_tapped (default blank_element (els !! el))); simpl; [done|].
    destruct (e_tappable (default blank_element (els !! el))); simpl; [|done].
    eexists _, _. split; [reflexivity|].
    split; [apply not_elem_of_dom, is_fresh|]. done.
  - destruct rok; simpl; [|done].
    destruct (e_tapped (default blank_element (els !! el))); simpl; [done|].
    destruct (e_tappable (default blank_element (els !! el))); simpl; [|done].
    eexists _, _. split; [reflexivity|].
    split; [apply not_elem_of_dom, is_fresh|]. done.
  - destruct aa; simpl; [|done].
    destruct ro; simpl; [|done].
    destruct cst; simpl.
    + destruct (e_tapped (default blank_element (els !! el))); simpl; [done|].
      destruct (e_tappable (default blank_element (els !! el))); simpl; [|done].
      eexists _, _. split; [reflexivity|].
      split; [apply not_elem_of_dom, is_fresh|]. done.
    + destruct rok; simpl; [|done].
      destruct (e_tapped (default blank_element (els !! el))); simpl; [done|].
      destruct (e_tappable (default blank_element (els !! el))); simpl; [|done].
      eexists _, _. split; [reflexivity|].
      split; [apply not_elem_of_dom, is_fresh|]. done.
Qed.

Lemma audio_state_inv (w w' : World) :
  audio_state w' = audio_state w →
  audioGraphRegistry (script w') = audioGraphRegistry (script w)
  ∧ audioContext (script w') = audioContext (script w)
  ∧ graphs (page w') = graphs (page w)
  ∧ pending (page w') = pending (page w)
  ∧ elements (page w') = elements (page w)
  ∧ settings w' = settings w.
Proof. unfold audio_state. intros [= -> -> -> -> -> _ _ ->]. done. Qed.

Lemma reported_reverbEnabled (getTitle : Element → string) (el : elref) (id : nat)
    (w : World) :
  mi_reverbEnabled (buildMediaInfo getTitle el id w)
  = match graphOf w id with
    | Some g => match graphs (page w) !! g with
                | Some G => g_reverbEnabled G
                | None => false
                end
    | None => false
    end.
Proof.
  unfold buildMediaInfo, graph_object. simpl. by destruct (graphOf w id).
Qed.

(** X9.  setReverbEnabled(id, true) for a tracked id without a graph,
    the settings being loaded: reverbEnabled is on in the settings
    afterwards in any case.  When the browser gives a running context and
    the element is untapped and tappable, the id gets a new connected
    graph over the element, on a reference not used before, with the mix
    and the equal-power targets of settings.reverb; the element is tapped
    and buildMediaInfo reports reverbEnabled.  Otherwise the id has no
    graph, no element and no graph object changes, and buildMediaInfo
    reports reverbEnabled false. *)
Theorem X9_enabling_reverb_builds_a_graph_when_it_can (getTitle : Element → string)
    (sched : nat → list nat) (id : nat) (el : elref) (w : World) :
  settingsLoaded (script w) = true →
  map_get id (registry w) = Some el →
  graphOf w id = None →
  let w' := onMessage getTitle sched (setReverbEnabled id true) w in
  reverbEnabled (settings w') = true
  ∧ (buildable w el = true →
     ∃ g G, graphOf w' id = Some g
       ∧ graphs (page w) !! g = None
       ∧ graphs (page w') !! g = Some G
       ∧ sourceNode G = el ∧ g_connected G = true
       ∧ reverbMix G = reverb (settings w)
       ∧ gain_target (dryGain G)
           = Some (cos (Q2R (reverb (settings w)) * PI / 2), 2 / 100)%R
       ∧ gain_target (wetGain G)
           = Some (sin (Q2R (reverb (settings w)) * PI / 2), 2 / 100)%R
       ∧ e_tapped (elem w' el) = true
       ∧ mi_reverbEnabled (buildMediaInfo getTitle el id w') = true)
  ∧ (buildable w el = false →
     graphOf w' id = None
     ∧ elements (page w') = elements (page w)
     ∧ graphs (page w') = graphs (page w)
     ∧ mi_reverbEnabled (buildMediaInfo getTitle el id w') = false).
Proof.
  intros Hl Hel Hnone w'.
  pose proof (setReverbEnabled_run getTitle sched id el true w Hl Hel) as Hrun.
  fold w' in Hrun.
  set (w1 := modify_settings (set_reverbEnabled true) w) in Hrun.
  assert (settings (createAudioGraph_try id el w1).2 = settings w1) as Hs.
  { by destruct (quiet_view_inv _ _ (keeps_createAudioGraph_try id el w1))
      as (-> & _). }
  set (r := createAudioGraph_try id el w1) in *.
  assert ((toggleReverb id true w1).2
          = updateReverbMix id (reverb (settings w)) r.2) as Htog.
  { unfold toggleReverb.
    change (map_get id (registry w1)) with (map_get id (registry w)).
    rewrite Hel. unfold bind, update, createAudioGraph, try_catch.
    change (reverbEnabled (settings w1)) with true.
    change (graphOf w1 id) with (graphOf w id). rewrite Hnone. simpl.
    fold r. clearbody r.
    destruct r as [[o|] w2]; simpl in *; by rewrite Hs. }
  rewrite Htog in Hrun. clear Htog.
  apply audio_state_inv in Hrun as (Hreg & Hctx & Hgs & Hpd & Hels & Hset).
  pose proof (createAudioGraph_try_outcome id el w1) as Hout.
  change (buildable w1 el) with (buildable w el) in Hout.
  change (elem w1 el) with (elem w el) in Hout.
  change (graphs (page w1)) with (graphs (page w)) in Hout.
  change (elements (page w1)) with (elements (page w)) in Hout.
  change (audioGraphRegistry (script w1)) with (audioGraphRegistry (script w))
    in Hout.
  fold r in Hout. cbv zeta in Hout. clearbody r.
  split.
  { rewrite Hset. unfold settings. rewrite updateReverbMix_script.
    fold (settings r.2). by rewrite Hs. }
  split.
  - intros Hb. rewrite Hb in Hout.
    destruct Hout as (g & G & _ & Hfresh & He2 & Hr2 & Hg2 & Hc2 & _ & HG).
    assert (updateReverbMix id (reverb (settings w)) r.2
            = write_graph g (fun G0 =>
                set_reverbMix (reverb (settings w))
                  (set_gains
                     (setTargetAtTime (cos (Q2R (reverb (settings w)) * PI / 2))
                        (2 / 100) (dryGain G0))
                     (setTargetAtTime (sin (Q2R (reverb (settings w)) * PI / 2))
                        (2 / 100) (wetGain G0)) G0)) r.2) as Hmix.
    { unfold updateReverbMix, graphOf. by rewrite Hr2, lookup_insert_eq, Hc2. }
    rewrite Hmix in *. clear Hmix.
    simpl in Hreg, Hgs, Hels. subst G.
    assert (mi_reverbEnabled (buildMediaInfo getTitle el id w') = true) as Hrep.
    { rewrite reported_reverbEnabled. unfold graphOf.
      by rewrite Hreg, Hr2, lookup_insert_eq, Hgs, Hg2, lookup_alter_eq,
        lookup_insert_eq. }
    eexists g, _. unfold graphOf.
    rewrite Hreg, Hr2, lookup_insert_eq. split; [done|]. split; [done|].
    rewrite Hgs, Hg2, lookup_alter_eq, lookup_insert_eq. simpl.
    split; [reflexivity|].
    do 5 (split; [reflexivity|]). split; [|exact Hrep].
    unfold elem. by rewrite Hels, He2, lookup_insert_eq.
  - intros Hb. rewrite Hb in Hout. destruct Hout as (_ & He2 & Hr2 & Hg2 & _).
    assert (updateReverbMix id (reverb (settings w)) r.2 = r.2) as Hmix.
    { unfold updateReverbMix, graphOf. rewrite Hr2.
      unfold graphOf in Hnone. by rewrite Hnone. }
    rewrite Hmix in *.
    assert (graphOf w' id = None) as Hno.
    { unfold graphOf in *. by rewrite Hreg, Hr2. }
    split; [exact Hno|]. split; [congruence|]. split; [congruence|].
    by rewrite reported_reverbEnabled, Hno.
Qed.

Lemma X9_enabling_reverb_builds_a_graph_when_it_can_witness :
  graphOf (onMessage plain_title no_jobs (setReverbEnabled 1 true) tracked_world) 1
  = Some 0.
Proof.
  assert (Hl : settingsLoaded (script tracked_world) = true)
    by (vm_compute; reflexivity).
  assert (Hel : map_get 1 (registry tracked_world) = Some 10)
    by (vm_compute; reflexivity).
  assert (Hno : graphOf tracked_world 1 = None) by (vm_compute; reflexivity).
  assert (Hb : buildable tracked_world 10 = true) by (vm_compute; reflexivity).
  destruct (X9_enabling_reverb_builds_a_graph_when_it_can plain_title no_jobs 1 10
              tracked_world Hl Hel Hno) as (_ & Hyes & _).
  destruct (Hyes Hb) as (g & G & Hg & _).
  rewrite Hg. f_equal.
  assert (graphOf reverb_on 1 = Some 0) as H0 by (vm_compute; reflexivity).
  unfold reverb_on in H0. congruence.
Defined.

(** X10.  setReverbEnabled(id, false) for a tracked id, the settings
    being loaded: reverbEnabled is off in the settings and no element
    changes.  If the id has a graph and there is a context, the graph
    stays in the registry with its gains fading (dry to 1, wet to 0, time
    constant 0.1), buildMediaInfo goes on reporting the flag of the graph,
    and a teardown waits at the end of the queue; when it runs, the entry
    is removed, the nodes are disconnected, and queue and elements are as
    before (the element stays tapped).  With no graph, or no context,
    registry, graph objects and queue are unchanged. *)
Theorem X10_disabling_reverb_fades_then_tears_down (getTitle : Element → string)
    (sched : nat → list nat) (id : nat) (el : elref) (w : World) :
  settingsLoaded (script w) = true →
  map_get id (registry w) = Some el →
  let w1 := onMessage getTitle sched (setReverbEnabled id false) w in
  let w2 := run_pending (length (pending (page w))) w1 in
  reverbEnabled (settings w1) = false
  ∧ elements (page w1) = elements (page w)
  ∧ (∀ g G, graphOf w id = Some g → graphs (page w) !! g = Some G →
       is_Some (audioContext (script w)) →
       graphOf w1 id = Some g
       ∧ graphs (page w1) = <[g := fade_out G]> (graphs (page w))
       ∧ pending (page w1) = pending (page w) ++ [CbTeardown g id]
       ∧ mi_reverbEnabled (buildMediaInfo getTitle el id w1) = g_reverbEnabled G
       ∧ graphOf w2 id = None
       ∧ graphs (page w2) = <[g := disconnect (fade_out G)]> (graphs (page w))
       ∧ pending (page w2) = pending (page w)
       ∧ elements (page w2) = elements (page w))
  ∧ (graphOf w id = None ∨ audioContext (script w) = None →
       audioGraphRegistry (script w1) = audioGraphRegistry (script w)
       ∧ graphs (page w1) = graphs (page w)
       ∧ pending (page w1) = pending (page w)).
Proof.
  intros Hl Hel w1 w2.
  pose proof (setReverbEnabled_run getTitle sched id el false w Hl Hel) as Hrun.
  fold w1 in Hrun.
  set (w0 := modify_settings (set_reverbEnabled false) w) in Hrun.
  apply audio_state_inv in Hrun as (Hreg & Hctx & Hgs & Hpd & Hels & Hset).
  assert (settings (toggleReverb id false w0).2 = settings w0) as Hs.
  { by destruct (quiet_view_inv _ _ (keeps_toggleReverb id false w0))
      as (-> & _). }
  split; [by rewrite Hset, Hs|].
  assert (toggleReverb id false w0
          = match graphOf w id, audioContext (script w) with
            | Some graph, Some _ =>
                (Ok tt, enqueue (CbTeardown graph id) (write_graph graph fade_out w0))
            | _, _ => (Ok tt, w0)
            end) as Htog.
  { unfold toggleReverb.
    change (map_get id (registry w0)) with (map_get id (registry w)).
    by rewrite Hel. }
  rewrite Htog in Hreg, Hctx, Hgs, Hpd, Hels. clear Htog Hs.
  split.
  { rewrite Hels. destruct (graphOf w id); [|done].
    by destruct (audioContext (script w)). }
  split.
  - intros g G Hg HG [ctx Hc]. rewrite Hg, Hc in Hreg, Hctx, Hgs, Hpd, Hels.
    simpl in Hreg, Hctx, Hgs, Hpd, Hels.
    assert (alter fade_out g (graphs (page w)) = <[g := fade_out G]> (graphs (page w)))
      as Halt.
    { apply map_eq. intros g'. rewrite lookup_alter, lookup_insert.
      case_decide; [subst; by rewrite HG|done]. }
    rewrite Halt in Hgs.
    assert (graphOf w1 id = Some g) as Hg1 by (unfold graphOf in *; congruence).
    split; [exact Hg1|]. split; [exact Hgs|]. split; [exact Hpd|].
    split.
    { rewrite reported_reverbEnabled, Hg1, Hgs, lookup_insert_eq. done. }
    assert (pending (page w1) !! length (pending (page w))
            = Some (CbTeardown g id)) as Hn.
    { rewrite Hpd. by rewrite lookup_app_r, Nat.sub_diag. }
    unfold w2, run_pending. rewrite Hn. simpl. unfold graphOf. simpl.
    rewrite Hreg, Hgs, Hpd, Hels, lookup_delete_eq.
    split; [done|]. split.
    + apply map_eq. intros g'. destruct (decide (g = g')) as [<-|Hne].
      * by rewrite lookup_alter_eq, !lookup_insert_eq.
      * by rewrite lookup_alter_ne, !lookup_insert_ne.
    + split; [|done].
      rewrite delete_take_drop, take_app_length.
      rewrite drop_ge by (rewrite length_app; simpl; lia).
      by rewrite app_nil_r.
  - intros Hcase. destruct Hcase as [Hno|Hno].
    + unfold graphOf in Hno. unfold graphOf in Hreg, Hgs, Hpd.
      rewrite Hno in Hreg, Hgs, Hpd. done.
    + rewrite Hno in Hreg, Hgs, Hpd.
      by destruct (graphOf w id).
Qed.

Lemma X10_disabling_reverb_fades_then_tears_down_witness :
  graphOf (run_pending 0
             (onMessage plain_title no_jobs (setReverbEnabled 1 false) reverb_on)) 1
  = None.
Proof.
  destruct reverb_on_facts as (Hel & Hl & _ & Hg & HG & Hctx).
  destruct HG as [G HG].
  destruct (X10_disabling_reverb_fades_then_tears_down plain_title no_jobs 1 10
              reverb_on Hl Hel) as (_ & _ & Hfade & _).
  destruct (Hfade 0 G Hg HG Hctx) as (_ & _ & _ & _ & Hoff & _).
  assert (length (pending (page reverb_on)) = 0) as Hlen
    by (vm_compute; reflexivity).
  rewrite Hlen in Hoff. exact Hoff.
Defined.

Lemma filter_ext_in {A} (P Q : A → Prop) `{∀ x, Decision (P x)}
    `{∀ x, Decision (Q x)} (l : list A) :
  (∀ x, x ∈ l → (P x ↔ Q x)) → filter P l = filter Q l.
Proof.
  induction l as [|a l IH]; [done|]. intros Hpq.
  rewrite !filter_cons.
  rewrite IH by (intros x Hx; apply Hpq; by right).
  destruct (decide (P a)) as [Hp|Hp], (decide (Q a)) as [Hq|Hq]; try done.
  - exfalso. apply Hq, (Hpq a); [left|done].
  - exfalso. apply Hp, (Hpq a); [left|done].
Qed.

Lemma filter_all {A} (P : A → Prop) `{∀ x, Decision (P x)} (l : list A) :
  (∀ x, x ∈ l → P x) → filter P l = l.
Proof.
  induction l as [|a l IH]; [done|]. intros Hp.
  rewrite filter_cons, decide_True by (apply Hp; left).
  f_equal. apply IH. intros x Hx. apply Hp. by right.
Qed.

Lemma filter_none {A} (P : A → Prop) `{∀ x, Decision (P x)} (l : list A) :
  (∀ x, x ∈ l → ¬ P x) → filter P l = [].
Proof.
  induction l as [|a l IH]; [done|]. intros Hp.
  rewrite filter_cons, decide_False by (apply Hp; left).
  apply IH. intros x Hx. apply Hp. by right.
Qed.

Lemma map_delete_filter {V} (k : nat) (m : list (nat * V)) :
  NoDup m.*1 → map_delete k m = filter (fun p => p.1 ≠ k) m.
Proof.
  induction m as [|[k' v] m IH]; [done|].
  rewrite fmap_cons. intros Hnd. apply NoDup_cons in Hnd as [Hk' Hnd].
  simpl. rewrite filter_cons. simpl. case_decide as Hk.
  - subst k'. rewrite decide_False by (intros Hne; by apply Hne).
    symmetry. apply filter_all. intros [k2 v2] Hin Heq. simpl in Heq. subst k2.
    apply Hk'. apply list_elem_of_fmap. by exists (k, v2).
  - rewrite decide_True by done. f_equal. by apply IH.
Qed.

Lemma map_get_elem_of {V} (k : nat) (v : V) (m : list (nat * V)) :
  NoDup m.*1 → (k, v) ∈ m ↔ map_get k m = Some v.
Proof.
  induction m as [|[k' v'] m IH]; [by split; [intros ?%elem_of_nil|]|].
  rewrite fmap_cons. intros Hnd. apply NoDup_cons in Hnd as [Hk' Hnd].
  simpl. rewrite elem_of_cons. case_decide as Hk.
  - subst k'. split.
    + intros [[= ->]|Hin]; [done|]. exfalso. apply Hk'.
      apply list_elem_of_fmap. by exists (k, v).
    + intros [= ->]. by left.
  - rewrite <- (IH Hnd). split; [|by right].
    intros [[= -> ->]|Hin]; [done|exact Hin].
Qed.

Lemma prunable_page (w w' : World) :
  page w' = page w → ∀ el, prunable w' el = prunable w el.
Proof.
  intros Hp el. unfold prunable, document_contains, elem. by rewrite Hp.
Qed.

Lemma prune_entry_page (w : World) (entry : nat * elref) :
  page (prune_entry w entry) = page w.
Proof.
  destruct (prune_entry_keeps w entry) as [Hk _]. unfold prune_view in Hk.
  by injection Hk.
Qed.

Lemma NoDup_filter_fst {V} (P : nat * V → Prop) `{∀ x, Decision (P x)}
    (m : list (nat * V)) :
  NoDup m.*1 → NoDup (filter P m).*1.
Proof.
  intros Hnd. eapply sublist_NoDup; [exact Hnd|].
  apply fmap_sublist, sublist_filter.
Qed.

(** What a pruning loop over [entries] leaves of the two registries. *)
Lemma prune_fold (entries : list (nat * elref)) (w : World) :
  NoDup (registry_ids w) →
  registry (fold_left prune_entry entries w)
    = filter (fun p => p.1 ∉ pruned_ids w entries) (registry w)
  ∧ ∀ id, graphOf (fold_left prune_entry entries w) id
          = if decide (id ∈ pruned_ids w entries) then None else graphOf w id.
Proof.
  revert w. induction entries as [|[id el] entries IH]; intros w Hnd.
  - simpl. split.
    + symmetry. apply filter_all. intros p _. apply not_elem_of_nil.
    + intros id. by destruct (decide (id ∈ pruned_ids w [])) as [?%elem_of_nil|].
  - change (fold_left prune_entry ((id, el) :: entries) w)
      with (fold_left prune_entry entries (prune_entry w (id, el))).
    assert (pruned_ids (prune_entry w (id, el)) entries = pruned_ids w entries)
      as Hids.
    { unfold pruned_ids. f_equal. apply filter_ext_in. intros x _.
      by rewrite (prunable_page _ _ (prune_entry_page w (id, el))). }
    assert (pruned_ids w ((id, el) :: entries)
            = if prunable w el then id :: pruned_ids w entries
              else pruned_ids w entries) as Hcons.
    { unfold pruned_ids. rewrite filter_cons. simpl.
      destruct (prunable w el); [by rewrite decide_True|by rewrite decide_False]. }
    rewrite Hcons.
    destruct (prunable w el) eqn:Hp.
    + assert (registry (prune_entry w (id, el))
              = filter (fun p => p.1 ≠ id) (registry w)) as Hreg.
      { simpl. rewrite Hp. simpl. by apply map_delete_filter. }
      destruct (IH (prune_entry w (id, el))) as [IH1 IH2].
      { unfold registry_ids. rewrite Hreg. by apply NoDup_filter_fst. }
      rewrite Hids in IH1, IH2. split.
      * rewrite IH1, Hreg, list_filter_filter. apply filter_ext_in.
        intros p _. rewrite not_elem_of_cons. tauto.
      * intros id'. rewrite IH2.
        assert (graphOf (prune_entry w (id, el)) id'
                = if decide (id' = id) then None else graphOf w id') as ->.
        { simpl. rewrite Hp. unfold graphOf. simpl. rewrite lookup_delete.
          by destruct (decide (id = id')), (decide (id' = id)). }
        destruct (decide (id' ∈ pruned_ids w entries)) as [Hin|Hin].
        -- rewrite decide_True; [done|by right].
        -- destruct (decide (id' = id)) as [->|Hne].
           ++ rewrite decide_True; [done|by left].
           ++ rewrite decide_False; [done|].
              intros [?|?]%elem_of_cons; done.
    + assert (prune_entry w (id, el) = w) as Hsame by (simpl; by rewrite Hp).
      rewrite Hsame in *. by apply IH.
Qed.

Lemma pruned_ids_registry (w : World) (id : nat) :
  NoDup (registry_ids w) →
  id ∈ pruned_ids w (registry w)
  ↔ ∃ el, map_get id (registry w) = Some el ∧ prunable w el = true.
Proof.
  intros Hnd. unfold pruned_ids. rewrite list_elem_of_fmap. split.
  - intros ([id' el] & -> & Hin). apply list_elem_of_filter in Hin as [Hp Hin].
    exists el. split; [by apply map_get_elem_of|done].
  - intros (el & Hget & Hp). exists (id, el). split; [done|].
    apply list_elem_of_filter. split; [done|]. by apply map_get_elem_of.
Qed.

Lemma prune_nothing (entries : list (nat * elref)) (w : World) :
  (∀ entry, entry ∈ entries → prunable w entry.2 = false) →
  fold_left prune_entry entries w = w.
Proof.
  induction entries as [|[id el] entries IH]; [done|]. intros Hno.
  change (fold_left prune_entry ((id, el) :: entries) w)
    with (fold_left prune_entry entries (prune_entry w (id, el))).
  assert (prune_entry w (id, el) = w) as ->.
  { pose proof (Hno (id, el) ltac:(left)) as Hp. simpl in Hp.
    simpl. by rewrite Hp. }
  apply IH. intros entry Hin. apply Hno. by right.
Qed.

Lemma pruneRegistry_of_wf (w : World) :
  NoDup (registry_ids w) →
  registry (pruneRegistry w)
    = filter (fun entry => prunable w entry.2 = false) (registry w)
  ∧ (∀ id, graphOf (pruneRegistry w) id
           = match map_get id (registry w) with
             | Some el => if prunable w el then None else graphOf w id
             | None => graphOf w id
             end)
  ∧ pruneRegistry (pruneRegistry w) = pruneRegistry w.
Proof.
  intros Hnd. destruct (prune_fold (registry w) w Hnd) as [Hreg Hgr].
  assert (registry (pruneRegistry w)
          = filter (fun entry => prunable w entry.2 = false) (registry w)) as Hr.
  { unfold pruneRegistry. rewrite Hreg. apply filter_ext_in.
    intros [id el] Hin. simpl. rewrite (pruned_ids_registry w id Hnd). split.
    - intros Hno. destruct (prunable w el) eqn:Hp; [|done].
      exfalso. apply Hno. exists el. split; [by apply map_get_elem_of|done].
    - intros Hp (el' & Hget & Hp').
      apply (map_get_elem_of id el) in Hin; [|done]. congruence. }
  split; [exact Hr|]. split.
  - intros id. unfold pruneRegistry. rewrite Hgr.
    destruct (map_get id (registry w)) as [el|] eqn:Hget.
    + destruct (prunable w el) eqn:Hp.
      * rewrite decide_True; [done|]. apply pruned_ids_registry; [done|].
        by exists el.
      * rewrite decide_False; [done|].
        intros (el' & Hget' & Hp')%pruned_ids_registry; [|done]. congruence.
    + rewrite decide_False; [done|].
      intros (el' & Hget' & Hp')%pruned_ids_registry; [|done]. congruence.
  - unfold pruneRegistry at 1. apply prune_nothing.
    intros entry Hin. rewrite Hr in Hin.
    apply list_elem_of_filter in Hin as [Hp _].
    destruct (pruneRegistry_keeps w) as [Hk _]. unfold prune_view in Hk.
    rewrite (prunable_page w (pruneRegistry w)); [done|]. by injection Hk.
Qed.

Lemma wf_NoDup_ids (w : World) : wf_registry w → NoDup (registry_ids w).
Proof. intros (Hs & _). by apply sorted_lt_NoDup. Qed.

(** X11.  In every world a run reaches, pruneRegistry leaves exactly the
    entries whose element is in the document or has a src or a currentSrc,
    in their order; it removes the graph entry of each id it removes and
    of no other id; pruning twice is pruning once; page, settings and next
    id are unchanged. *)
Theorem X11_pruning_removes_the_gone_entries (getTitle : Element → string) (h : Host)
    (els : gmap elref Element) (doc : list elref)
    (store : gmap string StoredValue) (evs : list event) :
  let w := run getTitle evs (boot h els doc store) in
  registry (pruneRegistry w)
    = filter (fun entry => prunable w entry.2 = false) (registry w)
  ∧ (∀ id, graphOf (pruneRegistry w) id
           = match map_get id (registry w) with
             | Some el => if prunable w el then None else graphOf w id
             | None => graphOf w id
             end)
  ∧ pruneRegistry (pruneRegistry w) = pruneRegistry w
  ∧ page (pruneRegistry w) = page w
  ∧ settings (pruneRegistry w) = settings w
  ∧ nextId (script (pruneRegistry w)) = nextId (script w).
Proof.
  intros w.
  destruct (pruneRegistry_of_wf w) as (H1 & H2 & H3).
  { apply wf_NoDup_ids, run_wf. }
  destruct (pruneRegistry_keeps w) as [Hk _]. unfold prune_view in Hk.
  injection Hk as Hs _ Hn Hp _. done.
Qed.

(** *** What a poll does to the elements of the document *)

Lemma discover_all (w : World) (el : elref) :
  el ∈ document (page w) → el ∈ discoverMediaElements w.
Proof.
  intros Hin. unfold discoverMediaElements. apply elem_of_app.
  destruct (e_tagName (elem w el)) eqn:Htag.
  - left. by apply list_elem_of_filter.
  - right. by apply list_elem_of_filter.
Qed.

Lemma elem_enqueue (t : callback) (w : World) (x : elref) :
  elem (enqueue t w) x = elem w x.
Proof. reflexivity. Qed.

Lemma applySettingsToElement_elem (el x : elref) (id : nat) (w : World) :
  elem (applySettingsToElement el id w) x
  = if decide (x = el)
    then set_e_muted (muted (settings w))
           (set_e_mozPreservesPitch (preservesPitch (settings w))
              (set_e_preservesPitch (preservesPitch (settings w))
                 (set_e_playbackRate (playbackRate (settings w))
                    (set_e_volume (volume (settings w)) (elem w el)))))
    else elem w x.
Proof.
  unfold applySettingsToElement. cbv zeta.
  match goal with |- elem (if ?b then _ else ?w1) _ = _ =>
    assert (elem w1 x
            = if decide (x = el)
              then set_e_muted (muted (settings w))
                     (set_e_mozPreservesPitch (preservesPitch (settings w))
                        (set_e_preservesPitch (preservesPitch (settings w))
                           (set_e_playbackRate (playbackRate (settings w))
                              (set_e_volume (volume (settings w)) (elem w el)))))
              else elem w x) as Hw1;
    [|destruct b; [|exact Hw1]]
  end.
  - destruct (decide (x = el)) as [->|Hne].
    + by rewrite !elem_write_same.
    + rewrite !elem_write_el. by rewrite !decide_False by done.
  - match goal with |- context [match ?g with Some _ => _ | None => _ end] =>
      destruct g end; by rewrite elem_enqueue.
Qed.

Lemma applySettingsToElement_synced (el x : elref) (id : nat) (w : World) :
  (x = el ∨ synced w x) → synced (applySettingsToElement el id w) x.
Proof.
  intros Hx. unfold synced.
  destruct (quiet_view_inv _ _ (keeps_applySettingsToElement el id w)) as (-> & _).
  rewrite applySettingsToElement_elem. case_decide as Heq; [done|].
  by destruct Hx.
Qed.

Lemma identify_and_apply_synced (w : World) (el x : elref) :
  (x = el ∨ synced w x) → synced (identify_and_apply w el) x.
Proof.
  intros Hx. unfold identify_and_apply.
  destruct (getMediaId_settings el w) as (Hs & Hp & _).
  destruct (getMediaId el w) as [id w1]. simpl in *.
  apply applySettingsToElement_synced.
  destruct Hx as [->|Hx]; [by left|right].
  unfold synced, elem in *. by rewrite Hs, Hp.
Qed.

Lemma identify_all_synced (l : list elref) (w : World) (x : elref) :
  (x ∈ l ∨ synced w x) → synced (fold_left identify_and_apply l w) x.
Proof.
  revert w. induction l as [|el l IH]; intros w Hx.
  - destruct Hx as [Hx|Hx]; [by apply elem_of_nil in Hx|done].
  - simpl. apply IH.
    destruct Hx as [[->|Hx]%elem_of_cons|Hx].
    + right. apply identify_and_apply_synced. by left.
    + by left.
    + right. apply identify_and_apply_synced. by right.
Qed.

Lemma try_build_playback (id : nat) (el x : elref) (w : World) :
  playback_of (try_catch (createAudioGraph_try id el) (ret None) w).2 x
  = playback_of w x.
Proof.
  unfold try_catch. pose proof (createAudioGraph_try_cases id el w) as Hc.
  destruct (createAudioGraph_try id el w) as [[[g|]|] w']; simpl in *; [|done|].
  - destruct Hc as (_ & _ & _ & Hels & _).
    unfold playback_of, elem. rewrite Hels, lookup_insert.
    case_decide; [subst x|]; done.
  - destruct Hc as (Hels & _). unfold playback_of, elem. by rewrite Hels.
Qed.

Lemma updateReverbMix_playback (id : nat) (m : Q) (w : World) (x : elref) :
  playback_of (updateReverbMix id m w) x = playback_of w x.
Proof. unfold playback_of. by rewrite updateReverbMix_elem. Qed.

Lemma run_job_playback (n : nat) (w : World) (x : elref) :
  playback_of (run_job n w) x = playback_of w x.
Proof.
  unfold run_job, run_pending.
  destruct (pending (page w) !! n) as [[id el|id|g id|]|]; simpl; try done.
  - by rewrite updateReverbMix_playback, try_build_playback.
  - by rewrite updateReverbMix_playback.
Qed.

Lemma run_jobs_playback (ns : list nat) (w : World) (x : elref) :
  playback_of (run_jobs ns w) x = playback_of w x.
Proof.
  unfold run_jobs. revert w. induction ns as [|n ns IH]; intros w; [done|].
  simpl. by rewrite IH, run_job_playback.
Qed.

Lemma snapshot_playback (getTitle : Element → string) (sched : nat → list nat)
    (k : nat) (entries : list (nat * elref)) (w : World) (x : elref) :
  playback_of (snapshot getTitle sched k entries w).2 x = playback_of w x.
Proof.
  revert k w. induction entries as [|[id el] entries IH]; intros k w; [done|].
  simpl. specialize (IH (S k) (run_jobs (sched k) w)).
  destruct (snapshot getTitle sched (S k) entries (run_jobs (sched k) w))
    as [infos w']. simpl in *. by rewrite IH, run_jobs_playback.
Qed.

Lemma synced_of_playback (w w' : World) (x : elref) :
  playback_of w' x = playback_of w x → settings w' = settings w →
  synced w x → synced w' x.
Proof.
  unfold playback_of, synced. intros [= -> -> -> -> ->] ->. done.
Qed.

(** After the scan and the snapshot of [getAllMedia], every element of the
    document plays with the settings. *)
Lemma getAllMedia_synced (getTitle : Element → string) (sched : nat → list nat)
    (w : World) (el : elref) :
  el ∈ document (page w) → synced (getAllMedia getTitle sched w).2 el.
Proof.
  intros Hin. unfold getAllMedia.
  set (w1 := pruneRegistry w).
  set (w2 := fold_left identify_and_apply (discoverMediaElements w1) w1).
  assert (synced w2 el) as Hs2.
  { apply identify_all_synced. left. apply discover_all.
    destruct (pruneRegistry_keeps w) as [Hk _]. unfold prune_view in Hk.
    fold w1 in Hk. injection Hk as _ _ _ Hp _. by rewrite Hp. }
  eapply synced_of_playback; [apply snapshot_playback| |exact Hs2].
  destruct (snapshot_spec getTitle sched 0 (registry w2) w2) as (_ & _ & Hq).
  by apply quiet_view_inv in Hq as (-> & _).
Qed.

Lemma identify_all_registered (l : list elref) (w : World) (el : elref) :
  wf_registry w → el ∈ l →
  ∃ id, (id, el) ∈ registry (fold_left identify_and_apply l w).
Proof.
  revert w. induction l as [|x l IH]; intros w Hwf Hin;
    [by apply elem_of_nil in Hin|].
  simpl. apply elem_of_cons in Hin as [->|Hin].
  - assert (∃ id, (id, x) ∈ registry (identify_and_apply w x)) as [id Hid].
    { unfold identify_and_apply.
      pose proof (getMediaId_registered x w Hwf) as Hreg.
      destruct (getMediaId x w) as [id w1]. simpl in Hreg. exists id.
      destruct (quiet_view_inv _ _ (keeps_applySettingsToElement x id w1))
        as (_ & _ & -> & _). exact Hreg. }
    exists id.
    assert (wf_registry (identify_and_apply w x)) as Hwf'
      by by apply (identify_and_apply_step w x).
    destruct (identify_all_prefix l _ Hwf') as [rest ->].
    apply elem_of_app. by left.
  - apply IH; [|done]. by apply (identify_and_apply_step w x).
Qed.



(** *** Play events and the once-only listeners *)

Lemma fold_apply_listeners (mine : list (elref * nat)) (w : World) :
  listeners (page (fold_left (fun w' l => applySettingsToElement l.1 l.2 w') mine w))
    = listeners (page w)
  ∧ document (page (fold_left (fun w' l => applySettingsToElement l.1 l.2 w') mine w))
    = document (page w).
Proof.
  revert w. induction mine as [|l mine IH]; intros w; [done|].
  simpl. destruct (IH (applySettingsToElement l.1 l.2 w)) as [-> ->].
  by destruct (quiet_view_inv _ _ (keeps_applySettingsToElement l.1 l.2 w))
    as (_ & _ & _ & _ & _ & -> & _ & -> & _).
Qed.

Lemma fold_apply_synced (mine : list (elref * nat)) (w : World) (el : elref) :
  (∀ l, l ∈ mine → l.1 = el) →
  (mine ≠ [] ∨ synced w el) →
  synced (fold_left (fun w' l => applySettingsToElement l.1 l.2 w') mine w) el.
Proof.
  revert w. induction mine as [|l mine IH]; intros w Hall Hs.
  - by destruct Hs.
  - simpl. apply IH.
    + intros l' Hin. apply Hall. by right.
    + right. apply applySettingsToElement_synced. left.
      symmetry. apply Hall. by left.
Qed.

Lemma identify_and_apply_page (w : World) (el : elref) :
  listeners (page (identify_and_apply w el)) = listeners (page w)
  ∧ document (page (identify_and_apply w el)) = document (page w).
Proof.
  unfold identify_and_apply.
  destruct (getMediaId_settings el w) as (_ & Hp & _).
  destruct (getMediaId el w) as [id w1]. simpl in Hp. rewrite <- Hp.
  by destruct (quiet_view_inv _ _ (keeps_applySettingsToElement el id w1))
    as (_ & _ & _ & _ & _ & -> & _ & -> & _).
Qed.

Lemma onPlay_listeners (el : elref) (w : World) :
  listeners (page (onPlay el w))
    = filter (fun l => l.1 ≠ el) (listeners (page w))
  ∧ document (page (onPlay el w)) = document (page w).
Proof.
  unfold onPlay. cbv zeta.
  set (w1 := if document_contains w el then identify_and_apply w el else w).
  assert (listeners (page w1) = listeners (page w)
          ∧ document (page w1) = document (page w)) as [Hl Hd].
  { unfold w1. destruct (document_contains w el);
      [apply identify_and_apply_page|done]. }
  match goal with |- context [fold_left ?f ?mine ?w2] =>
    destruct (fold_apply_listeners mine w2) as [-> ->] end.
  simpl. by rewrite Hl, Hd.
Qed.

Lemma onPlay_idle (el : elref) (w : World) :
  el ∉ document (page w) →
  (∀ id, (el, id) ∉ listeners (page w)) →
  onPlay el w = w.
Proof.
  intros Hdoc Hnone. unfold onPlay. cbv zeta.
  unfold document_contains. rewrite bool_decide_eq_false_2 by done.
  assert (filter (fun l : elref * nat => l.1 = el) (listeners (page w)) = [])
    as ->.
  { apply filter_none. intros [x id] Hin Heq. simpl in Heq. subst x.
    by apply (Hnone id). }
  assert (filter (fun l : elref * nat => l.1 ≠ el) (listeners (page w))
          = listeners (page w)) as ->.
  { apply filter_all. intros [x id] Hin Heq. simpl in Heq. subst x.
    by apply (Hnone id). }
  simpl. by destruct w as [s [] hst].
Qed.



(** *** The scan of the script start and the elements added later *)

Lemma applySettingsToElement_pending (el : elref) (id : nat) (w : World) :
  reverbEnabled (settings w) = false →
  pending (page (applySettingsToElement el id w)) = pending (page w).
Proof. intros Hoff. unfold applySettingsToElement. by rewrite Hoff. Qed.

Lemma identify_all_pending (l : list elref) (w : World) :
  reverbEnabled (settings w) = false →
  pending (page (fold_left identify_and_apply l w)) = pending (page w).
Proof.
  revert w. induction l as [|el l IH]; intros w Hoff; [done|].
  simpl. rewrite IH by by rewrite identify_and_apply_settings.
  unfold identify_and_apply.
  destruct (getMediaId_settings el w) as (Hs & Hp & _).
  destruct (getMediaId el w) as [id w1]. simpl in *.
  rewrite applySettingsToElement_pending by by rewrite Hs.
  by rewrite Hp.
Qed.

Lemma identify_all_store (l : list elref) (w : World) :
  storage (page (fold_left identify_and_apply l w)) = storage (page w)
  ∧ host (fold_left identify_and_apply l w) = host w.
Proof.
  revert w. induction l as [|x l IH]; intros w; [done|].
  simpl. destruct (IH (identify_and_apply w x)) as [-> ->].
  unfold identify_and_apply.
  destruct (getMediaId_settings x w) as (_ & Hp & Hh).
  destruct (getMediaId x w) as [id w2]. simpl in Hp, Hh. rewrite <- Hp, <- Hh.
  by destruct (quiet_view_inv _ _ (keeps_applySettingsToElement x id w2))
    as (_ & _ & _ & _ & -> & _ & -> & _).
Qed.

(** X14.  When the script starts, every media element of the document
    is registered and is given the default settings (volume 1, rate 1,
    preservesPitch on, unmuted), whatever the element had and whatever the
    store holds: the scan runs before the settings are loaded.  The only
    callback waiting is the first load; when it runs, the settings become
    the stored ones and no element changes. *)
Theorem X14_initial_scan_applies_the_defaults (h : Host) (els : gmap elref Element)
    (doc : list elref) (store : gmap string StoredValue) (el : elref) :
  el ∈ doc →
  let w := boot h els doc store in
  let loaded := run_pending 0 w in
  settings w = DEFAULT_SETTINGS
  ∧ pending (page w) = [CbLoad]
  ∧ (∃ id, (id, el) ∈ registry w)
  ∧ e_volume (elem w el) = 1%Q
  ∧ e_playbackRate (elem w el) = 1%Q
  ∧ e_preservesPitch (elem w el) = true
  ∧ e_muted (elem w el) = false
  ∧ elements (page loaded) = elements (page w)
  ∧ settings loaded
    = (if storage_readable h
       then loaded_settings (store !! storageKey w)
       else DEFAULT_SETTINGS).
Proof.
  intros Hin w loaded.
  set (w0 := start_world h els doc store).
  assert (settings (initialScan w0) = DEFAULT_SETTINGS) as Hset.
  { unfold initialScan.
    by rewrite fold_settings by apply identify_and_apply_settings. }
  assert (pending (page (initialScan w0)) = []) as Hpd.
  { unfold initialScan. by rewrite identify_all_pending. }
  assert (synced (initialScan w0) el) as Hs.
  { unfold initialScan. apply identify_all_synced. left. by apply discover_all. }
  assert (∃ id, (id, el) ∈ registry (initialScan w0)) as Hreg.
  { unfold initialScan. apply identify_all_registered; [|by apply discover_all].
    unfold wf_registry, registry_ids. simpl.
    repeat split; constructor. }
  assert (storage (page (initialScan w0)) = store ∧ host (initialScan w0) = h)
    as [Hst Hh].
  { apply identify_all_store. }
  unfold w. rewrite boot_eq. fold w0.
  change (settings (enqueue CbLoad (initialScan w0)))
    with (settings (initialScan w0)).
  change (registry (enqueue CbLoad (initialScan w0)))
    with (registry (initialScan w0)).
  change (elem (enqueue CbLoad (initialScan w0)) el)
    with (elem (initialScan w0) el).
  destruct Hs as (Hv & Hr & Hp & _ & Hm). rewrite Hset in Hv, Hr, Hp, Hm.
  split; [exact Hset|]. split; [simpl; by rewrite Hpd|].
  split; [exact Hreg|].
  split; [exact Hv|]. split; [exact Hr|]. split; [exact Hp|].
  split; [exact Hm|].
  assert (loaded = (loadSettings
            (with_page (fun p => set_pending (delete 0 (pending p)) p)
               (enqueue CbLoad (initialScan w0)))).2) as ->.
  { unfold loaded, w. rewrite boot_eq. fold w0. unfold run_pending.
    simpl pending. rewrite Hpd. reflexivity. }
  rewrite loadSettings_settings, loadSettings_run. simpl.
  split; [done|].
  change (host (initialScan w0)) with (host (initialScan w0)).
  unfold storageKey, getCurrentDomain. simpl. by rewrite Hh, Hst.
Qed.

Lemma X14_initial_scan_applies_the_defaults_witness :
  e_volume (elem (boot example_host {[ 10 := set_e_volume (1 # 5)%Q song ]} [10]
                    {[ "tuneShifter_example.org" := SvObject stale_record ]}) 10)
  = 1%Q.
Proof.
  assert (Hin : 10 ∈ [10]) by left.
  destruct (X14_initial_scan_applies_the_defaults example_host
              {[ 10 := set_e_volume (1 # 5)%Q song ]} [10]
              {[ "tuneShifter_example.org" := SvObject stale_record ]} 10 Hin)
    as (_ & _ & _ & Hv & _).
  exact Hv.
Defined.

Lemma processMedia_tracks (w : World) (el : elref) :
  wf_registry w →
  wf_registry (processMedia w el)
  ∧ registry w `prefix_of` registry (processMedia w el)
  ∧ listeners (page w) `prefix_of` listeners (page (processMedia w el))
  ∧ (∀ x, x = el ∨ synced w x → synced (processMedia w el) x)
  ∧ ∃ id, (id, el) ∈ registry (processMedia w el)
          ∧ (el, id) ∈ listeners (page (processMedia w el)).
Proof.
  intros Hwf.
  split; [by apply (processMedia_step w el)|].
  unfold processMedia.
  pose proof (getMediaId_prefix el w Hwf) as Hpre.
  pose proof (getMediaId_registered el w Hwf) as Hreg.
  destruct (getMediaId_settings el w) as (Hs & Hp & _).
  destruct (getMediaId el w) as [id w1]. simpl in *.
  destruct (quiet_view_inv _ _ (keeps_applySettingsToElement el id w1))
    as (Hs2 & _ & Hr2 & _ & _ & _ & _ & Hl2 & _).
  assert (registry (add_play_listener el id (applySettingsToElement el id w1))
          = registry w1) as Hra by (by rewrite <- Hr2).
  split; [by rewrite Hra|]. split.
  { simpl. rewrite Hl2, Hp. by apply prefix_app_r. }
  split.
  { intros x Hx.
    assert (synced (applySettingsToElement el id w1) x) as Hsy.
    { apply applySettingsToElement_synced.
      destruct Hx as [->|Hx]; [by left|right].
      unfold synced, elem in *. by rewrite Hs, Hp. }
    exact Hsy. }
  exists id. split; [by rewrite Hra|].
  simpl. apply elem_of_app. right. by left.
Qed.

Lemma onMutation_tracks (added : list elref) (w : World) (el : elref) :
  wf_registry w → el ∈ added →
  synced (onMutation added w) el
  ∧ ∃ id, (id, el) ∈ registry (onMutation added w)
          ∧ (el, id) ∈ listeners (page (onMutation added w)).
Proof.
  unfold onMutation.
  assert (∀ l w0, wf_registry w0 →
            registry w0 `prefix_of` registry (fold_left processMedia l w0)
            ∧ listeners (page w0)
                `prefix_of` listeners (page (fold_left processMedia l w0))
            ∧ ∀ x, synced w0 x → synced (fold_left processMedia l w0) x) as Hkeep.
  { induction l as [|x l IH]; intros w0 Hwf0; [done|]. simpl.
    destruct (processMedia_tracks w0 x Hwf0) as (Hwf1 & Hr1 & Hl1 & Hs1 & _).
    destruct (IH _ Hwf1) as (Hr2 & Hl2 & Hs2).
    split; [by etrans|]. split; [by etrans|].
    intros y Hy. apply Hs2, Hs1. by right. }
  revert w. induction added as [|x added IH]; intros w Hwf Hin;
    [by apply elem_of_nil in Hin|].
  simpl. destruct (processMedia_tracks w x Hwf) as (Hwf1 & _ & _ & Hs1 & Htr).
  apply elem_of_cons in Hin as [->|Hin]; [|by apply IH].
  destruct (Hkeep added _ Hwf1) as (Hr2 & Hl2 & Hs2).
  split; [apply Hs2, Hs1; by left|].
  destruct Htr as (id & Hid & Hlis). exists id.
  destruct Hr2 as [r ->]. destruct Hl2 as [l ->].
  split; apply elem_of_app; by left.
Qed.



Lemma toggleReverb_settings (id : nat) (b : bool) (w : World) :
  settings (toggleReverb id b w).2 = settings w.
Proof.
  by destruct (quiet_view_inv _ _ (keeps_toggleReverb id b w)) as (-> & _).
Qed.

Lemma updateReverbMix_settings (id : nat) (m : Q) (w : World) :
  settings (updateReverbMix id m w) = settings w.
Proof. unfold settings. by rewrite updateReverbMix_script. Qed.

Lemma change_body_settings (id : nat) (el : elref) (change : SettingChange)
    (w : World) :
  settings (change_body id el change w).2 = settings_after change (settings w).
Proof.
  destruct change; simpl; unfold bind, update; simpl.
  - unfold modify_settings. by rewrite elem_write_same.
  - unfold modify_settings. by rewrite elem_write_same.
  - done.
  - unfold modify_settings. by rewrite elem_write_same.
  - match goal with |- context [if ?b then _ else _] => destruct b end;
      [by rewrite updateReverbMix_settings|done].
  - by rewrite toggleReverb_settings.
Qed.

(** The settings a command on a tracked id leaves. *)
Lemma command_settings (getTitle : Element → string) (sched : nat → list nat)
    (id : nat) (el : elref) (change : SettingChange) (w : World) :
  map_get id (registry w) = Some el →
  settings (handleAsync getTitle sched (request_of id change) w).2
  = settings_after change (settings (ensure_loaded w).2).
Proof.
  intros Hel. rewrite (command_run getTitle sched id el change w Hel).
  destruct (save_view_inv _ _ (saveSettings_keeps
              (change_body id el change (ensure_loaded w).2).2)) as (-> & _).
  apply change_body_settings.
Qed.

(** X16.  The optimistic update of the panel keeps the entries, their
    ids and their order; an entry of another id is unchanged; the entry of
    the id keeps id, type, src, title, paused, currentTime and duration and
    shows the value sent; for an action outside its switch the list is
    unchanged. *)
Theorem X16_optimistic_update_changes_one_field (request : MessageRequest)
    (prev : list MediaInfo) :
  let next := Popup.optimistic_update request prev in
  mi_id <$> next = mi_id <$> prev
  ∧ (∀ i m, prev !! i = Some m → command_id request ≠ Some (mi_id m) →
       next !! i = Some m)
  ∧ (∀ i m, prev !! i = Some m →
       ∃ m', next !! i = Some m'
         ∧ mi_id m' = mi_id m ∧ mi_type m' = mi_type m ∧ mi_src m' = mi_src m
         ∧ mi_title m' = mi_title m ∧ mi_paused m' = mi_paused m
         ∧ mi_currentTime m' = mi_currentTime m
         ∧ mi_duration m' = mi_duration m)
  ∧ (∀ id change m, request = request_of id change → m ∈ next →
       mi_id m = id → shows change m)
  ∧ (command_id request = None → next = prev).
Proof.
  intros next. unfold next, Popup.optimistic_update.
  split; [|split; [|split; [|split]]].
  - rewrite <- list_fmap_compose. apply list_fmap_ext. intros i m _. simpl.
    destruct request; simpl; try done; by case_decide.
  - intros i m Hi Hid. rewrite list_lookup_fmap, Hi. simpl. f_equal.
    destruct request; simpl in *; try done;
      (rewrite decide_True; [done|congruence]).
  - intros i m Hi. rewrite list_lookup_fmap, Hi. simpl.
    eexists. split; [reflexivity|].
    destruct request; simpl; try done; by case_decide.
  - intros id change m -> Hin Hid.
    apply list_elem_of_fmap in Hin as (m0 & -> & _).
    destruct change; simpl in *;
      (case_decide as Hne; [by destruct Hne|done]).
  - intros Hnone. rewrite <- (list_fmap_id prev) at 2.
    apply list_fmap_ext. intros i m _.
    by destruct request.
Qed.

Lemma X16_optimistic_update_changes_one_field_witness :
  Popup.optimistic_update ping
    [buildMediaInfo plain_title 10 1 tracked_world]
  = [buildMediaInfo plain_title 10 1 tracked_world].
Proof.
  destruct (X16_optimistic_update_changes_one_field ping
              [buildMediaInfo plain_title 10 1 tracked_world])
    as (_ & _ & _ & _ & Hsame).
  by apply Hsame.
Defined.



(** *** The time shown on a card *)

Lemma Qfloor_unique (x : Q) (z : Z) :
  (inject_Z z <= x)%Q → (x < inject_Z (z + 1))%Q → Qfloor x = z.
Proof.
  intros Hle Hlt.
  pose proof (Qfloor_le x) as H1. pose proof (Qlt_floor x) as H2.
  assert (Qfloor x < z + 1)%Z as H3.
  { rewrite Zlt_Qlt. by apply Qle_lt_trans with x. }
  assert (z < Qfloor x + 1)%Z as H4.
  { rewrite Zlt_Qlt. by apply Qle_lt_trans with x. }
  lia.
Qed.

Lemma minutes_and_seconds (q : Q) :
  (0 <= q)%Q →
  let m := Qfloor (q / 60) in
  let s := Qfloor (Popup.remainder q 60) in
  (0 ≤ m)%Z ∧ (0 ≤ s < 60)%Z ∧ (60 * m + s = Qfloor q)%Z.
Proof.
  intros Hq m s. unfold Popup.remainder in s.
  assert (q == 60 * (q / 60))%Q as Hd by field.
  set (d := (q / 60)%Q) in *.
  assert (0 <= d)%Q as Hdiv by Lqa.lra.
  assert (Popup.trunc d = m) as Htr.
  { unfold Popup.trunc. apply Qle_bool_iff in Hdiv. by rewrite Hdiv. }
  assert (0 ≤ m)%Z as Hm.
  { unfold m. change 0%Z with (Qfloor 0). by apply Qfloor_resp_le. }
  pose proof (Qfloor_le d) as H1. pose proof (Qlt_floor d) as H2.
  fold m in H1, H2. rewrite inject_Z_plus in H2.
  pose proof (Qfloor_le q) as H3. pose proof (Qlt_floor q) as H4.
  rewrite inject_Z_plus in H4.
  change (inject_Z 1) with 1%Q in H2, H4.
  assert (s = Qfloor q - 60 * m)%Z as Hs.
  { unfold s. rewrite Htr.
    apply Qfloor_unique.
    - unfold Z.sub. rewrite inject_Z_plus, inject_Z_opp, inject_Z_mult.
      change (inject_Z 60) with 60%Q. Lqa.lra.
    - unfold Z.sub. rewrite !inject_Z_plus, inject_Z_opp, inject_Z_mult.
      change (inject_Z 60) with 60%Q. change (inject_Z 1) with 1%Q. Lqa.lra. }
  assert (60 * m ≤ Qfloor q)%Z as H5.
  { rewrite <- (Qfloor_Z (60 * m)). apply Qfloor_resp_le.
    rewrite inject_Z_mult. change (inject_Z 60) with 60%Q. Lqa.lra. }
  assert (Qfloor q < 60 * m + 60)%Z as H6.
  { rewrite Zlt_Qlt. rewrite inject_Z_plus, inject_Z_mult.
    change (inject_Z 60) with 60%Q. Lqa.lra. }
  lia.
Qed.

Lemma two_digits (n : nat) :
  n < 60 → String.length (Popup.padStart 2 "0" (pretty (Z.of_nat n))) = 2.
Proof.
  intros Hn. do 60 (destruct n as [|n]; [vm_compute; reflexivity|]). lia.
Qed.



(** *** The slider *)

Lemma preset_active_iff (value : Q) (preset : string * Q) :
  Popup.preset_active value preset = true
  ↔ (- (1 # 100) < value - preset.2)%Q ∧ (value - preset.2 < 1 # 100)%Q.
Proof.
  unfold Popup.preset_active. rewrite negb_true_iff.
  rewrite <- Qabs_Qlt_condition. split.
  - intros Hb. apply Qnot_le_lt. intros Hle.
    apply Qle_bool_iff in Hle. congruence.
  - intros Hlt. destruct (Qle_bool (1 # 100) (Qabs (value - preset.2))) eqn:Hb;
      [|done].
    apply Qle_bool_iff in Hb. exfalso. by apply (Qlt_not_le _ _ Hlt).
Qed.

(** X19.  For a slider with min below max, the fill of the track is
    between 0 and 100 per cent when the value is within the range, 0 at
    min and 100 at max.  Of the rate presets at most one is active for any
    value, and a preset is active when the value is its own. *)
Theorem X19_slider_fill_and_presets :
  (∀ value min max : Q,
     (min < max)%Q → (min <= value)%Q → (value <= max)%Q →
     (0 <= Popup.fill_pct value min max)%Q
     ∧ (Popup.fill_pct value min max <= 100)%Q)
  ∧ (∀ min max : Q, (min < max)%Q →
       (Popup.fill_pct min min max == 0)%Q
       ∧ (Popup.fill_pct max min max == 100)%Q)
  ∧ (∀ value p1 p2,
       p1 ∈ Popup.RATE_PRESETS → p2 ∈ Popup.RATE_PRESETS →
       Popup.preset_active value p1 = true →
       Popup.preset_active value p2 = true → p1 = p2)
  ∧ (∀ p, p ∈ Popup.RATE_PRESETS → Popup.preset_active p.2 p = true).
Proof.
  split; [|split; [|split]].
  - intros value min max Hlt Hlo Hhi. unfold Popup.fill_pct.
    assert (0 < max - min)%Q as Hpos by Lqa.lra.
    assert (value - min == (max - min) * ((value - min) / (max - min)))%Q as Hd.
    { field. intros H0. rewrite H0 in Hpos. by apply Qlt_irrefl in Hpos. }
    set (d := ((value - min) / (max - min))%Q) in *.
    assert (0 <= d)%Q as Hd0.
    { unfold d. apply Qle_shift_div_l; [exact Hpos|]. Lqa.lra. }
    assert (d <= 1)%Q as Hd1.
    { unfold d. apply Qle_shift_div_r; [exact Hpos|]. Lqa.lra. }
    split; Lqa.lra.
  - intros min max Hlt. unfold Popup.fill_pct. split; field;
      intros H0; assert (0 < max - min)%Q as Hpos by Lqa.lra;
      rewrite H0 in Hpos; by apply Qlt_irrefl in Hpos.
  - intros value p1 p2 H1 H2 Ha1 Ha2.
    apply preset_active_iff in Ha1, Ha2.
    unfold Popup.RATE_PRESETS in H1, H2.
    repeat (apply elem_of_cons in H1 as [->|H1]);
      try (by apply elem_of_nil in H1);
      repeat (apply elem_of_cons in H2 as [->|H2]);
      try (by apply elem_of_nil in H2);
      try reflexivity; simpl in Ha1, Ha2; exfalso; Lqa.lra.
  - intros p Hp. apply preset_active_iff.
    setoid_replace (p.2 - p.2)%Q with 0%Q using relation Qeq by ring. done.
Qed.

Lemma X19_slider_fill_and_presets_witness :
  (0 <= Popup.fill_pct (3 # 4) (1 # 2) 2)%Q
  ∧ (Popup.fill_pct (3 # 4) (1 # 2) 2 <= 100)%Q.
Proof.
  destruct X19_slider_fill_and_presets as (Hfill & _).
  apply (Hfill (3 # 4) (1 # 2) 2)%Q; done.
Defined.

Lemma slice_to_length (n : nat) (s : string) :
  String.length (slice_to n s) ≤ n ∧ ∃ rest, s = slice_to n s +:+ rest.
Proof.
  revert s. induction n as [|n IH]; intros s.
  - split; [done|]. by exists s.
  - destruct s as [|c s]; simpl.
    + split; [lia|]. by exists "".
    + destruct (IH s) as [Hlen [rest Hrest]]. split; [lia|].
      exists rest.
      change (String c (slice_to n s) +:+ rest)
        with (String c (slice_to n s +:+ rest)).
      by f_equal.
Qed.

Lemma split_slash_segments (s : string) :
  Title.split_slash s ≠ []
  ∧ Forall (fun segment => Title.has_slash segment = false) (Title.split_slash s).
Proof.
  induction s as [|c s [Hne Hall]]; [by repeat constructor|].
  simpl. case_decide as Hc.
  - split; [done|]. by constructor.
  - destruct (Title.split_slash s) as [|first others]; [done|].
    split; [done|]. apply Forall_cons in Hall as [Hfirst Hothers].
    constructor; [|done]. simpl. rewrite Hfirst.
    by rewrite bool_decide_eq_false_2.
Qed.

Lemma last_segment_no_slash (s : string) :
  Title.has_slash (Title.last_segment s) = false.
Proof.
  unfold Title.last_segment.
  destruct (split_slash_segments s) as [Hne Hall].
  destruct (last (Title.split_slash s)) as [segment|] eqn:Hlast; [|done].
  simpl. rewrite Forall_forall in Hall. apply Hall.
  apply last_Some in Hlast as [l ->]. apply elem_of_app. right. by left.
Qed.



Lemma buffer_wf_same (w w' : World) :
  buffer_view w' = buffer_view w → buffer_wf w → buffer_wf w'.
Proof. unfold buffer_view, buffer_wf. intros [= -> -> ->]. done. Qed.

Lemma buffer_le_same (w w' : World) :
  buffer_view w' = buffer_view w → buffer_le w w'.
Proof. unfold buffer_view, buffer_le. intros [= -> -> _]. done. Qed.

Lemma buffer_le_refl (w : World) : buffer_le w w.
Proof. by intros H. Qed.

Lemma buffer_le_trans (w1 w2 w3 : World) :
  buffer_le w1 w2 → buffer_le w2 w3 → buffer_le w1 w3.
Proof.
  intros H1 H2 Hc. destruct (H1 Hc) as [Hc2 Hb2].
  destruct (H2 Hc2) as [Hc3 Hb3]. split; [done|congruence].
Qed.

Lemma alter_no_graphs (f : MediaAudioGraph → MediaAudioGraph) (g : gref) :
  alter f g (∅ : gmap gref MediaAudioGraph) = ∅.
Proof.
  apply map_eq. intros i. destruct (decide (g = i)) as [->|Hne].
  - by rewrite lookup_alter_eq, lookup_empty.
  - by rewrite lookup_alter_ne.
Qed.

Lemma alter_convolver (f : MediaAudioGraph → MediaAudioGraph) (g g' : gref)
    (gs : gmap gref MediaAudioGraph) (G : MediaAudioGraph) :
  (∀ G0, convolver (f G0) = convolver G0) →
  alter f g gs !! g' = Some G →
  ∃ G0, gs !! g' = Some G0 ∧ convolver G0 = convolver G.
Proof.
  intros Hf. rewrite lookup_alter. case_decide.
  - subst g'. destruct (gs !! g) as [G0|]; [|done].
    intros [= <-]. by exists G0.
  - intros HG. by exists G.
Qed.

Lemma initAudioContext_buffer (w : World) :
  graphs (page (initAudioContext w).2) = graphs (page w)
  ∧ match audioContext (script w) with
    | Some _ => (initAudioContext w).2 = w
    | None =>
        audioContext (script (initAudioContext w).2) = None
        ∧ impulseResponseBuffer (script (initAudioContext w).2)
          = impulseResponseBuffer (script w)
        ∨ is_Some (audioContext (script (initAudioContext w).2))
    end.
Proof.
  unfold initAudioContext.
  destruct (audioContext (script w)) eqn:Hc; [done|].
  destruct (audio_available (host w)); [|by split; [|left]].
  unfold bind, update, createImpulseResponse. simpl.
  destruct (render_ok (host w)); simpl; (split; [done|right; by eexists]).
Qed.

Lemma small_step_buffer_wf (w w' : World) :
  small_step w w' → buffer_wf w → buffer_wf w'.
Proof.
  intros H. destruct H as [w el|w el f Hf|w l|w cb Hcb|w n cb Hn Hjob
    |w n Hn|w n g id Hn|w|w|w f|w r|w entry|w|w|w id el Hctx|w g f Hf].
  - apply buffer_wf_same. unfold getMediaId.
    by destruct (find_id el (registry w)).
  - by apply buffer_wf_same.
  - by apply buffer_wf_same.
  - by apply buffer_wf_same.
  - by apply buffer_wf_same.
  - apply buffer_wf_same. unfold run_pending. rewrite Hn. simpl run_callback.
    by rewrite loadSettings_run.
  - unfold run_pending. rewrite Hn. simpl run_callback.
    intros [H1 H2]. split.
    + simpl. intros Hc. destruct (H1 Hc) as [Hb Hg]. split; [done|].
      rewrite Hg. apply alter_no_graphs.
    + intros g' G HG. simpl in *.
      apply alter_convolver in HG as (G0 & HG0 & <-); [|done]. by eapply H2.
  - apply buffer_wf_same.
    pose proof (ensure_loaded_keeps w) as Hk. unfold load_view in Hk.
    unfold buffer_view. by injection Hk as -> -> _ _ _ _ _ -> _ _ _ _.
  - apply buffer_wf_same.
    pose proof (saveSettings_keeps w) as Hk. unfold save_view in Hk.
    unfold buffer_view. by injection Hk as -> _ _ -> _ _ _.
  - by apply buffer_wf_same.
  - by apply buffer_wf_same.
  - apply buffer_wf_same. unfold prune_entry. destruct entry as [id el].
    by destruct (prunable w el).
  - intros Hwf. destruct (initAudioContext_buffer w) as [Hg Hcase].
    destruct (audioContext (script w)) eqn:Hc; [by rewrite Hcase|].
    destruct Hwf as [H1 H2]. destruct (H1 Hc) as [Hb Hgs]. split.
    + intros Hc'. rewrite Hg. split; [|done].
      destruct Hcase as [[_ ->]|[c Hsome]]; [done|congruence].
    + intros g G. rewrite Hg, Hgs. by rewrite lookup_empty.
  - unfold resume. destruct (resume_ok (host w)); [|done].
    intros [H1 H2]. split; [done|]. exact H2.
  - destruct Hctx as [c Hc].
    assert (audioContext (script (build_graph id el w).2) = Some c
            ∧ impulseResponseBuffer (script (build_graph id el w).2)
              = impulseResponseBuffer (script w)) as [Hc' Hb'].
    { unfold build_graph, bind, createMediaElementSource.
      by destruct (e_tapped (elem w el) || negb (e_tappable (elem w el))). }
    destruct (build_graph_cases id el w) as [->|(Ht & g & G & Hfresh & Hsrc & Hcn
      & Hen & Hconv & Hels & Hgs & Hreg & Hpd)]; [done|].
    intros [H1 H2]. split; [by rewrite Hc'|].
    intros g' G'. rewrite Hgs, Hb', lookup_insert. case_decide.
    + by intros [= <-].
    + apply H2.
  - intros [H1 H2]. split.
    + simpl. intros Hc. destruct (H1 Hc) as [Hb Hg]. split; [done|].
      rewrite Hg. apply alter_no_graphs.
    + intros g' G HG. simpl in *.
      apply alter_convolver in HG as (G0 & HG0 & <-);
        [by eapply H2|intros G0; by destruct (Hf G0) as (_ & -> & _)].
Qed.

Lemma world_step_buffer_wf (w w' : World) :
  world_step w w' → buffer_wf w → buffer_wf w'.
Proof.
  intros [H|H]; [by apply small_step_buffer_wf|].
  destruct H as [w el e|w doc]; by apply buffer_wf_same.
Qed.

Lemma small_step_buffer_le (w w' : World) : small_step w w' → buffer_le w w'.
Proof.
  intros H. destruct H as [w el|w el f Hf|w l|w cb Hcb|w n cb Hn Hjob
    |w n Hn|w n g id Hn|w|w|w f|w r|w entry|w|w|w id el Hctx|w g f Hf].
  - apply buffer_le_same. unfold getMediaId.
    by destruct (find_id el (registry w)).
  - by apply buffer_le_same.
  - by apply buffer_le_same.
  - by apply buffer_le_same.
  - by apply buffer_le_same.
  - apply buffer_le_same. unfold run_pending. rewrite Hn. simpl run_callback.
    by rewrite loadSettings_run.
  - unfold run_pending. rewrite Hn. simpl run_callback. by intros Hc.
  - apply buffer_le_same.
    pose proof (ensure_loaded_keeps w) as Hk. unfold load_view in Hk.
    unfold buffer_view. by injection Hk as -> -> _ _ _ _ _ -> _ _ _ _.
  - apply buffer_le_same.
    pose proof (saveSettings_keeps w) as Hk. unfold save_view in Hk.
    unfold buffer_view. by injection Hk as -> _ _ -> _ _ _.
  - by apply buffer_le_same.
  - by apply buffer_le_same.
  - apply buffer_le_same. unfold prune_entry. destruct entry as [id el].
    by destruct (prunable w el).
  - intros [c Hc]. destruct (initAudioContext_buffer w) as [_ Hcase].
    rewrite Hc in Hcase. rewrite Hcase, Hc. split; [by eexists|done].
  - unfold resume. destruct (resume_ok (host w)); [|done].
    intros _. simpl. split; [by eexists|done].
  - intros _. unfold build_graph, bind, createMediaElementSource.
    by destruct (e_tapped (elem w el) || negb (e_tappable (elem w el))).
  - by intros Hc.
Qed.

Lemma world_step_buffer_le (w w' : World) : world_step w w' → buffer_le w w'.
Proof.
  intros [H|H]; [by apply small_step_buffer_le|].
  destruct H as [w el e|w doc]; by apply buffer_le_same.
Qed.

Lemma run_buffer_le (getTitle : Element → string) (evs : list event) (w : World) :
  buffer_le w (run getTitle evs w).
Proof.
  eapply steps_relation;
    [apply buffer_le_refl|apply buffer_le_trans|apply world_step_buffer_le
    |apply run_world].
Qed.



(** *** The answer to a message *)


(** *** The script never plays, pauses, seeks or re-sources an element *)

Lemma media_kept_refl (w : World) : media_kept w w.
Proof. by split. Qed.

Lemma media_kept_trans (w1 w2 w3 : World) :
  media_kept w1 w2 → media_kept w2 w3 → media_kept w1 w3.
Proof.
  intros [Hd1 He1] [Hd2 He2]. split; [congruence|].
  intros el. destruct (He1 el) as (A1 & A2 & A3 & A4 & A5 & A6 & A7).
  destruct (He2 el) as (B1 & B2 & B3 & B4 & B5 & B6 & B7).
  unfold same_media. repeat split; congruence.
Qed.

Lemma media_kept_same (w w' : World) :
  elements (page w') = elements (page w) →
  document (page w') = document (page w) →
  media_kept w w'.
Proof. intros He Hd. split; [done|]. intros el. unfold elem. by rewrite He. Qed.

Lemma media_kept_write_el (el : elref) (f : Element → Element) (w : World) :
  (∀ e, same_media e (f e)) → media_kept w (write_el el f w).
Proof.
  intros Hf. split; [done|]. intros x. rewrite elem_write_el.
  case_decide; [subst; apply Hf|done].
Qed.

Lemma small_step_media (w w' : World) : small_step w w' → media_kept w w'.
Proof.
  intros H. destruct H as [w el|w el f Hf|w l|w cb Hcb|w n cb Hn Hjob
    |w n Hn|w n g id Hn|w|w|w f|w r|w entry|w|w|w id el Hctx|w g f Hf];
    try (by apply media_kept_same).
  - apply media_kept_same; unfold getMediaId;
      by destruct (find_id el (registry w)).
  - apply media_kept_write_el. intros e.
    destruct (Hf e) as (A1 & A2 & A3 & A4 & A5 & A6 & A7 & _). done.
  - apply media_kept_same; unfold run_pending; rewrite Hn; simpl run_callback;
      by rewrite loadSettings_run.
  - apply media_kept_same; unfold run_pending; by rewrite Hn.
  - pose proof (ensure_loaded_keeps w) as Hk. unfold load_view in Hk.
    injection Hk as _ _ _ _ _ He Hd _ _ _ _ _. by apply media_kept_same.
  - pose proof (saveSettings_keeps w) as Hk. unfold save_view in Hk.
    injection Hk as _ He Hd _ _ _ _. by apply media_kept_same.
  - apply media_kept_same; unfold prune_entry; destruct entry as [id el];
      by destruct (prunable w el).
  - apply media_kept_same; unfold initAudioContext;
      destruct (audioContext (script w)); try done;
      destruct (audio_available (host w)); try done;
      unfold bind, update, createImpulseResponse, ret; simpl;
      by destruct (render_ok (host w)).
  - apply media_kept_same; unfold resume; by destruct (resume_ok (host w)).
  - destruct (build_graph_cases id el w) as [->|(_ & g & G & _ & _ & _ & _ & _
      & Hels & _)]; [apply media_kept_refl|].
    split.
    + by destruct (quiet_view_inv _ _ (keeps_build_graph id el w))
        as (_ & _ & _ & _ & _ & Hd & _).
    + intros x. unfold elem at 2. rewrite Hels, lookup_insert.
      case_decide; [by subst|done].
Qed.

Lemma run_script_media (getTitle : Element → string) (evs : list event)
    (w : World) :
  Forall (fun ev => by_script ev = true) evs →
  media_kept w (run getTitle evs w).
Proof.
  intros Hevs.
  eapply steps_relation;
    [apply media_kept_refl|apply media_kept_trans|apply small_step_media
    |by apply run_script].
Qed.

(** X23.  The script never plays, pauses, seeks, re-sources, attaches
    or detaches anything.  Over events of the script's own (a construction,
    a mutation callback, a play, a message, a queued callback: every event
    but the page's edit of an element and its change of the document), in
    any number and order and from any world, and equally over the start-up
    followed by such events, the document keeps the elements it has
    attached and every element keeps its tag, src, currentSrc, paused,
    currentTime, duration and whether it can be tapped: only volume,
    playbackRate, the two preservesPitch properties, muted and the record
    of the tap can differ. *)
Theorem X23_script_leaves_the_media_alone (getTitle : Element → string) (h : Host)
    (els : gmap elref Element) (doc : list elref)
    (store : gmap string StoredValue) (evs : list event) :
  Forall (fun ev => by_script ev = true) evs →
  (∀ w, media_kept w (run getTitle evs w))
  ∧ media_kept (start_world h els doc store)
      (run getTitle evs (boot h els doc store)).
Proof.
  intros Hevs. split; [intros w; by apply run_script_media|].
  eapply media_kept_trans; [|by apply run_script_media].
  rewrite boot_eq.
  apply (media_kept_trans _ (initialScan (start_world h els doc store)));
    [|by apply media_kept_same].
  eapply steps_relation;
    [apply media_kept_refl|apply media_kept_trans|apply small_step_media
    |apply initialScan_small].
Qed.

Lemma X23_script_leaves_the_media_alone_witness :
  let evs := [EvCallback 0; EvMessage no_jobs (setReverbEnabled 1 true);
              EvMessage no_jobs (setVolume 1 (1 # 4)%Q); EvPlay 10] in
  let w := run plain_title evs (boot example_host {[ 10 := song ]} [10] ∅) in
  document (page w) = [10]
  ∧ e_paused (elem w 10) = e_paused song
  ∧ e_currentTime (elem w 10) = e_currentTime song
  ∧ e_src (elem w 10) = e_src song.
Proof.
  intros evs w.
  assert (Forall (fun ev => by_script ev = true) evs) as Hevs
    by (repeat (constructor; [reflexivity|]); constructor).
  destruct (X23_script_leaves_the_media_alone plain_title example_host
              {[ 10 := song ]} [10] ∅ evs Hevs) as [_ [Hd He]].
  destruct (He 10) as (_ & Hsrc & _ & Hp & Ht & _).
  split; [exact Hd|]. split; [exact Hp|]. split; [exact Ht|exact Hsrc].
Defined.
